(** * The CSG engine on a BSP tree (BooleanOperator.js), embedded in Rocq

    The engine is JavaScript that mutates shared objects: vertex arrays are
    reversed in place, vertex normals and plane objects are negated in place,
    and several polygons or a node and a polygon may hold the same array or
    the same plane object.  The embedding therefore keeps an explicit object
    store and threads it through every operation with a state-and-exception
    monad.  Numbers are kept abstract behind the class [Number]; the instance
    on Rocq's primitive binary64 floats is the arithmetic JavaScript runs. *)

From Stdlib Require Import Floats ZArith Lia.
From stdpp Require Import gmap list.

Set Default Proof Using "Type".

(** ** Numbers *)

(** The operations of JavaScript numbers the engine uses.  [nlt a b] is
    [a < b] (and [b > a]), [neq a b] is [a === b]. *)
Class Number (R : Type) := {
  n0 : R;
  n1 : R;
  EPSILON : R;
  nadd : R -> R -> R;
  nsub : R -> R -> R;
  nmul : R -> R -> R;
  ndiv : R -> R -> R;
  nneg : R -> R;
  nsqrt : R -> R;
  nlt : R -> R -> bool;
  neq : R -> R -> bool
}.

Declare Scope num_scope.
Delimit Scope num_scope with num.
Infix "+" := nadd : num_scope.
Infix "-" := nsub : num_scope.
Infix "*" := nmul : num_scope.
Infix "/" := ndiv : num_scope.
Notation "- x" := (nneg x) : num_scope.

(** IEEE 754 binary64, the numbers of JavaScript.  The literal is the
    binary64 value nearest to 1e-5, which is what the source text [1e-5]
    denotes. *)
#[export] Instance float_Number : Number float := {
  n0 := 0%float;
  n1 := 1%float;
  EPSILON := 0x1.4f8b588e368f1p-17%float;
  nadd := PrimFloat.add;
  nsub := PrimFloat.sub;
  nmul := PrimFloat.mul;
  ndiv := PrimFloat.div;
  nneg := PrimFloat.opp;
  nsqrt := PrimFloat.sqrt;
  nlt := PrimFloat.ltb;
  neq := PrimFloat.eqb
}.

(** A binary64 number that is a zero or a finite non-zero number (not an
    infinity, not NaN), and one that is a zero of either sign. *)
Definition float_finite (x : float) : Prop :=
  match Prim2SF x with
  | SpecFloat.S754_zero _ | SpecFloat.S754_finite _ _ _ => True
  | _ => False
  end.

Definition float_is_zero (x : float) : Prop :=
  x = 0%float \/ x = (- 0)%float.

(** ** The monad: state and exceptions *)

Inductive Exn := TypeError | FuelExhausted.

Inductive outcome (A : Type) :=
| Ret (a : A)
| Throw (e : Exn).
Arguments Ret {A} a.
Arguments Throw {A} e.

(** A computation over a store of type [St].  The store survives an
    exception, as the heap does in JavaScript. *)
Definition M (St A : Type) : Type := St -> outcome A * St.

Definition ret {St A} (a : A) : M St A := fun s => (Ret a, s).
Definition throw {St A} (e : Exn) : M St A := fun s => (Throw e, s).
Definition bind {St A B} (m : M St A) (k : A -> M St B) : M St B :=
  fun s => match m s with
           | (Ret a, s') => k a s'
           | (Throw e, s') => (Throw e, s')
           end.

Notation "'do' x <- m ; k" := (bind m (fun x => k))
  (at level 10, x name, m at level 100, k at level 200).
Notation "'do' ' p <- m ; k" := (bind m (fun x => match x with p => k end))
  (at level 10, p pattern, m at level 100, k at level 200).
Notation "m >> k" := (bind m (fun _ => k))
  (at level 100, k at level 200, right associativity).

(** A loop over an array that threads an accumulator. *)
Fixpoint foldM {St A B} (f : B -> A -> M St B) (b : B) (l : list A) : M St B :=
  match l with
  | [] => ret b
  | a :: l' => do b' <- f b a; foldM f b' l'
  end.

Fixpoint mapM {St A B} (f : A -> M St B) (l : list A) : M St (list B) :=
  match l with
  | [] => ret []
  | a :: l' => do b <- f a; do bs <- mapM f l'; ret (b :: bs)
  end.

Fixpoint forM_ {St A} (l : list A) (f : A -> M St unit) : M St unit :=
  match l with
  | [] => ret tt
  | a :: l' => f a >> forM_ l' f
  end.

(** The same loop with the index, as [for (let i = 0; i < l.length; i++)]. *)
Fixpoint forM_i {St A} (i : nat) (l : list A) (f : nat -> A -> M St unit)
  : M St unit :=
  match l with
  | [] => ret tt
  | a :: l' => f i a >> forM_i (S i) l' f
  end.

(** ** Properties of computations *)

(** [m] always returns, with a result satisfying [Q]. *)
Definition total {St A} (Q : A -> Prop) (m : M St A) : Prop :=
  forall s, exists a s', m s = (Ret a, s') /\ Q a.

(** [m] keeps the invariant [Inv], relates the store it starts from to the
    store it leaves by [Rel] whether it returns or throws, and returns only
    results satisfying [Q]. *)
Definition sound {St A} (Inv : St -> Prop) (Rel : St -> St -> Prop)
    (Q : A -> Prop) (m : M St A) : Prop :=
  forall s, Inv s ->
    Inv (m s).2 /\ Rel s (m s).2 /\
    match (m s).1 with
    | Ret a => Q a
    | Throw _ => True
    end.

(** ** Objects and the store *)

Section Engine.

Context {R : Type} `{Number R}.

Local Open Scope num_scope.

(** Vector.Vec3 as a value.  Every Vec3 the engine keeps is owned by exactly
    one vertex or plane object (the constructors clone their arguments), so a
    vector lives inside the cell of its owner. *)
Record Vec3 := mkVec3 { vx : R; vy : R; vz : R }.

(** [v.sub(u)], [v.add(u)], [v.mul(k)] with a number [k], [v.dot(u)],
    [v.cross(u)], [v.length()], [v.normalize()]: the vector each call leaves
    in its receiver. *)
Definition vsub (v u : Vec3) : Vec3 :=
  mkVec3 (vx v - vx u) (vy v - vy u) (vz v - vz u).
Definition vadd (v u : Vec3) : Vec3 :=
  mkVec3 (vx v + vx u) (vy v + vy u) (vz v + vz u).
Definition vmul (v : Vec3) (k : R) : Vec3 :=
  mkVec3 (vx v * k) (vy v * k) (vz v * k).
Definition vdot (v u : Vec3) : R :=
  vx v * vx u + vy v * vy u + vz v * vz u.
Definition vcross (v u : Vec3) : Vec3 :=
  mkVec3 (vy v * vz u - vz v * vy u)
         (vz v * vx u - vx v * vz u)
         (vx v * vy u - vy v * vx u).
Definition vlength (v : Vec3) : R :=
  nsqrt (vx v * vx v + vy v * vy v + vz v * vz v).
Definition vnormalize (v : Vec3) : Vec3 :=
  let len := vlength v in
  if neq len n0 then v
  else mkVec3 (vx v / len) (vy v / len) (vz v / len).

Definition vzero : Vec3 := mkVec3 n0 n0 n0.

(** A Vertex object: its position, its normal (negated in place by flip) and
    its uv pair, which no operation writes. *)
Record Vertex := mkVertex { position : Vec3; normal : Vec3; uv : R * R }.

(** The plane object [{ normal, w }] of a polygon or of a node. *)
Record Plane := mkPlane { pnormal : Vec3; pw : R }.

(** A Polygon holds two references that never change after construction:
    its vertex array and its plane object. *)
Record Polygon := mkPolygon { vertices : positive; plane : positive }.

(** The store: vertex objects, vertex arrays (rings) and plane objects by
    address, and the next unused address. *)
Record Store := mkStore {
  vertex_of : gmap positive Vertex;
  ring_of : gmap positive (list positive);
  plane_of : gmap positive Plane;
  next : positive
}.

Definition empty_store : Store := mkStore ∅ ∅ ∅ 1%positive.

#[export] Instance Vertex_inhabited : Inhabited Vertex :=
  populate (mkVertex vzero vzero (n0, n0)).
#[export] Instance Plane_inhabited : Inhabited Plane :=
  populate (mkPlane vzero n0).

(** Store primitives.  An address that holds no object reads as the default
    object and ignores writes; the constructors below never produce one. *)
Definition new_vertex (v : Vertex) : M Store positive := fun s =>
  (Ret (next s),
   mkStore (<[next s := v]> (vertex_of s)) (ring_of s) (plane_of s)
           (Pos.succ (next s))).
Definition new_ring (vs : list positive) : M Store positive := fun s =>
  (Ret (next s),
   mkStore (vertex_of s) (<[next s := vs]> (ring_of s)) (plane_of s)
           (Pos.succ (next s))).
Definition new_plane (p : Plane) : M Store positive := fun s =>
  (Ret (next s),
   mkStore (vertex_of s) (ring_of s) (<[next s := p]> (plane_of s))
           (Pos.succ (next s))).

Definition vertex_at (s : Store) (a : positive) : Vertex := vertex_of s !!! a.
Definition ring_at (s : Store) (a : positive) : list positive :=
  default [] (ring_of s !! a).
Definition plane_at (s : Store) (a : positive) : Plane := plane_of s !!! a.

Definition get_vertex (a : positive) : M Store Vertex := fun s => (Ret (vertex_at s a), s).
Definition get_ring (a : positive) : M Store (list positive) := fun s => (Ret (ring_at s a), s).
Definition get_plane (a : positive) : M Store Plane := fun s => (Ret (plane_at s a), s).

Definition modify_vertex (f : Vertex -> Vertex) (a : positive) : M Store unit := fun s =>
  (Ret tt, mkStore (alter f a (vertex_of s)) (ring_of s) (plane_of s) (next s)).
Definition modify_ring (f : list positive -> list positive) (a : positive) : M Store unit :=
  fun s =>
  (Ret tt, mkStore (vertex_of s) (alter f a (ring_of s)) (plane_of s) (next s)).
Definition modify_plane (f : Plane -> Plane) (a : positive) : M Store unit := fun s =>
  (Ret tt, mkStore (vertex_of s) (ring_of s) (alter f a (plane_of s)) (next s)).

(** ** Vertex *)

(** [new Vertex(position, normal, uv)]: position and normal are cloned, a
    missing normal is the zero vector, a missing uv is [[0, 0]]. *)
Definition Vertex_new (pos : Vec3) (nrm : option Vec3) (uv0 : option (R * R))
  : M Store positive :=
  new_vertex (mkVertex pos (default vzero nrm) (default (n0, n0) uv0)).

(** [vertex.clone()] *)
Definition Vertex_clone (a : positive) : M Store positive :=
  do v <- get_vertex a;
  Vertex_new (position v) (Some (normal v)) (Some (uv v)).

(** [interpolateVertex(v1, v2, t)] *)
Definition interpolateVertex (a1 a2 : positive) (t : R) : M Store positive :=
  do v1 <- get_vertex a1;
  do v2 <- get_vertex a2;
  let pos := vadd (vmul (position v1) (n1 - t)) (vmul (position v2) t) in
  let nrm := vadd (vmul (normal v1) (n1 - t)) (vmul (normal v2) t) in
  let uv' := (fst (uv v1) * (n1 - t) + fst (uv v2) * t,
              snd (uv v1) * (n1 - t) + snd (uv v2) * t) in
  Vertex_new pos (Some nrm) (Some uv').

(** ** Polygon *)

(** [polygon.calculatePlane()] on the vertex array [ring]: reading
    [this.vertices[i].position] for [i] past the end of the array is a
    TypeError. *)
Definition calculatePlane (ring : positive) : M Store Plane :=
  do vs <- get_ring ring;
  match vs !! 1%nat, vs !! 0%nat, vs !! 2%nat with
  | Some a1, Some a0, Some a2 =>
      do p1 <- get_vertex a1;
      do p0 <- get_vertex a0;
      do p2 <- get_vertex a2;
      let v1 := vsub (position p1) (position p0) in
      let v2 := vsub (position p2) (position p0) in
      let nrm := vnormalize (vcross v1 v2) in
      let w := vdot nrm (position p0) in
      ret (mkPlane nrm w)
  | _, _, _ => throw TypeError
  end.

(** [new Polygon(vertices)]: the array is kept, not copied. *)
Definition Polygon_new (ring : positive) : M Store Polygon :=
  do pl <- calculatePlane ring;
  do a <- new_plane pl;
  ret (mkPolygon ring a).

(** [polygon.clone()] *)
Definition Polygon_clone (p : Polygon) : M Store Polygon :=
  do vs <- get_ring (vertices p);
  do vs' <- mapM Vertex_clone vs;
  do ring <- new_ring vs';
  Polygon_new ring.

(** [v.normal.mul(-1)] on a vertex object, and the negation of a plane
    object: [plane.normal.mul(-1); plane.w = -plane.w]. *)
Definition negate_normal (v : Vertex) : Vertex :=
  mkVertex (position v) (vmul (normal v) (- n1)) (uv v).
Definition negate_plane (p : Plane) : Plane :=
  mkPlane (vmul (pnormal p) (- n1)) (- pw p).

(** [polygon.flip()] *)
Definition Polygon_flip (p : Polygon) : M Store unit :=
  modify_ring (@rev positive) (vertices p) >>
  do vs <- get_ring (vertices p);
  forM_ vs (modify_vertex negate_normal) >>
  modify_plane negate_plane (plane p).

(** ** Splitting a polygon by a plane *)

Definition COPLANAR : N := 0.
Definition FRONT : N := 1.
Definition BACK : N := 2.
Definition SPANNING : N := 3.

(** The type of one vertex against the plane [pl]. *)
Definition classify (pl : Plane) (v : Vertex) : N :=
  let t := vdot (pnormal pl) (position v) - pw pl in
  if nlt t (- EPSILON) then BACK
  else if nlt EPSILON t then FRONT
  else COPLANAR.

(** The array parameters of splitPolygon are references, and callers pass
    the same array for several of them.  The arrays a caller works with are
    the slots of a local environment, and a parameter is a slot number;
    [push] is [array.push(polygon)]. *)
Definition push (slot : nat) (p : Polygon) (env : list (list Polygon))
  : list (list Polygon) :=
  alter (fun l => l ++ [p]) slot env.

(** The successor ring: index [i] holds the element at [(i + 1) % length]. *)
Definition rotate1 {A} (l : list A) : list A :=
  match l with
  | [] => []
  | x :: l' => l' ++ [x]
  end.

(** One iteration of the loop of the SPANNING case, on the edge from vertex
    [vi] of type [ti] to vertex [vj] of type [tj]; [f] and [b] are the two
    arrays under construction. *)
Definition split_edge (pl : Plane) (fb : list positive * list positive)
    (e : (positive * N) * (positive * N))
  : M Store (list positive * list positive) :=
  let '((vi, ti), (vj, tj)) := e in
  let '(f, b) := fb in
  let f := if (ti =? BACK)%N then f else f ++ [vi] in
  do b <- (if (ti =? FRONT)%N then ret b
           else if (ti =? BACK)%N then ret (b ++ [vi])
           else do c <- Vertex_clone vi; ret (b ++ [c]));
  if (N.lor ti tj =? SPANNING)%N then
    do pi <- get_vertex vi;
    do pj <- get_vertex vj;
    let t := (pw pl - vdot (pnormal pl) (position pi))
             / vdot (pnormal pl) (vsub (position pj) (position pi)) in
    do v <- interpolateVertex vi vj t;
    do c <- Vertex_clone v;
    ret (f ++ [v], b ++ [c])
  else ret (f, b).

(** [new Polygon(ring)] pushed to [slot] when the array has at least three
    vertices. *)
Definition emit (slot : nat) (ring : list positive) (env : list (list Polygon))
  : M Store (list (list Polygon)) :=
  if (3 <=? length ring)%nat then
    do r <- new_ring ring;
    do p <- Polygon_new r;
    ret (push slot p env)
  else ret env.

(** [node.splitPolygon(polygon, coplanarFront, coplanarBack, front, back)]
    for a node whose plane object is at [this_plane]. *)
Definition splitPolygon (this_plane : positive) (polygon : Polygon)
    (coplanarFront coplanarBack front back : nat) (env : list (list Polygon))
  : M Store (list (list Polygon)) :=
  do pl <- get_plane this_plane;
  do vs <- get_ring (vertices polygon);
  do types <- mapM (fun a => do v <- get_vertex a; ret (classify pl v)) vs;
  let type := fold_left N.lor types 0%N in
  if (type =? COPLANAR)%N then
    do ppl <- get_plane (plane polygon);
    ret (push (if nlt n0 (vdot (pnormal pl) (pnormal ppl))
               then coplanarFront else coplanarBack) polygon env)
  else if (type =? FRONT)%N then ret (push front polygon env)
  else if (type =? BACK)%N then ret (push back polygon env)
  else if (type =? SPANNING)%N then
    let vts := zip vs types in
    do '(f, b) <- foldM (split_edge pl) ([], []) (zip vts (rotate1 vts));
    do env1 <- emit front f env;
    emit back b env1
  else ret env.

(** ** The partition tree *)

(** A reference to a BSPNode: [Null], or a node with its plane reference
    (or null), front and back children and own polygon array.  Nodes are
    never shared, so a tree is a value that each method returns updated. *)
Inductive BSPNode :=
| Null
| Node (nplane : option positive) (nfront nback : BSPNode)
       (npolygons : list Polygon).

(** [new BSPNode()] before any build. *)
Definition empty_node : BSPNode := Node None Null Null [].

(** [this.front] after [if (!this.front) this.front = new BSPNode()]. *)
Definition or_new (child : BSPNode) : BSPNode :=
  match child with
  | Null => empty_node
  | _ => child
  end.

(** [node.allPolygons()] *)
Fixpoint allPolygons (this : BSPNode) : list Polygon :=
  match this with
  | Null => []
  | Node _ fr bk own => own ++ allPolygons fr ++ allPolygons bk
  end.

(** [node.invert()]; on [Null] it is the skipped call of
    [if (this.front) this.front.invert()]. *)
Fixpoint invert (this : BSPNode) : M Store BSPNode :=
  match this with
  | Null => ret Null
  | Node pl fr bk own =>
      forM_ own Polygon_flip >>
      match pl with
      | Some a => modify_plane negate_plane a
      | None => ret tt
      end >>
      do fr' <- invert fr;
      do bk' <- invert bk;
      ret (Node pl bk' fr' own)
  end.

(** [node.clipPolygons(polygons)]; on [Null] it is the skipped call of
    [if (this.front) front = this.front.clipPolygons(front)]. *)
Fixpoint clipPolygons (this : BSPNode) (polygons : list Polygon)
  : M Store (list Polygon) :=
  match this with
  | Null => ret polygons
  | Node None _ _ _ => ret polygons
  | Node (Some pl) fr bk _ =>
      do env <- foldM (fun env poly => splitPolygon pl poly 0 1 0 1 env)
                      [[]; []] polygons;
      do front <- clipPolygons fr (env !!! 0%nat);
      do back <- clipPolygons bk (env !!! 1%nat);
      ret (front ++ back)
  end.

(** [node.clipTo(bsp)] *)
Fixpoint clipTo (this bsp : BSPNode) : M Store BSPNode :=
  match this with
  | Null => ret Null
  | Node pl fr bk own =>
      do own' <- clipPolygons bsp own;
      do fr' <- clipTo fr bsp;
      do bk' <- clipTo bk bsp;
      ret (Node pl fr' bk' own')
  end.

(** [node.build(polygons)].  Each recursive call receives a strictly shorter
    array (the guards [front.length !== polygons.length] and
    [back.length !== polygons.length]), so the recursion is by [fuel], an
    upper bound of [polygons.length]. *)
Fixpoint build_fuel (fuel : nat) (this : BSPNode) (polygons : list Polygon)
  : M Store BSPNode :=
  match this with
  | Null => throw TypeError
  | Node pl fr bk own =>
      if (length polygons =? 0)%nat || (1000 <? length own)%nat then ret this
      else
        match fuel, polygons with
        | S fuel', p0 :: _ =>
            let pl' := match pl with Some a => a | None => plane p0 end in
            do env <- foldM (fun env poly => splitPolygon pl' poly 0 0 1 2 env)
                            [own; []; []] polygons;
            let front := env !!! 1%nat in
            let back := env !!! 2%nat in
            do fr' <- (if (length front =? 0)%nat then ret fr
                       else if (length front =? length polygons)%nat
                            then ret (or_new fr)
                            else build_fuel fuel' (or_new fr) front);
            do bk' <- (if (length back =? 0)%nat then ret bk
                       else if (length back =? length polygons)%nat
                            then ret (or_new bk)
                            else build_fuel fuel' (or_new bk) back);
            ret (Node (Some pl') fr' bk' (env !!! 0%nat))
        | _, _ => throw FuelExhausted
        end
  end.

Definition build (this : BSPNode) (polygons : list Polygon) : M Store BSPNode :=
  build_fuel (length polygons) this polygons.

(** [new BSPNode(polygons)] *)
Definition BSPNode_new (polygons : option (list Polygon)) : M Store BSPNode :=
  match polygons with
  | Some ps => build empty_node ps
  | None => ret empty_node
  end.

(** ** The CSG facade *)

Record CSG := mkCSG { polygons : list Polygon }.

(** A face of the input mesh: [face.vertices], and [face.uvs] when present. *)
Record Face := mkFace { face_vertices : list nat; face_uvs : option (list nat) }.

(** The body of the inner loop of fromGeometry at index [i], pushing onto
    the array [faceVertices]. *)
Definition face_vertex (points : list Vec3) (normals : option (list Vec3))
    (uvs : option (list (R * R))) (face : Face) (faceVertices : positive)
    (i : nat) (vertexIndex : nat) : M Store unit :=
  let vertex := points !! vertexIndex in
  let nrm := match normals with Some ns => ns !! vertexIndex | None => None end in
  do uv0 <- match uvs with
            | Some us =>
                match face_uvs face with
                | Some fu => ret (match fu !! i with
                                  | Some k => us !! k
                                  | None => None
                                  end)
                | None => throw TypeError
                end
            | None => ret None
            end;
  match vertex with
  | Some pos =>
      do v <- Vertex_new pos nrm uv0;
      modify_ring (fun l => l ++ [v]) faceVertices
  | None => throw TypeError
  end.

(** [CSG.fromGeometry(vertices, faces, normals, uvs)]: the array
    [faceVertices] is created once, before the loop over the faces. *)
Definition fromGeometry (points : list Vec3) (faces : list Face)
    (normals : option (list Vec3)) (uvs : option (list (R * R))) : M Store CSG :=
  do faceVertices <- new_ring [];
  do ps <- foldM (fun ps face =>
                    forM_i 0 (face_vertices face)
                           (face_vertex points normals uvs face faceVertices) >>
                    do p <- Polygon_new faceVertices;
                    ret (ps ++ [p]))
                 [] faces;
  ret (mkCSG ps).

(** [csg.clone()] *)
Definition CSG_clone (this : CSG) : M Store CSG :=
  do ps <- mapM Polygon_clone (polygons this);
  ret (mkCSG ps).

(** [new BSPNode(csg.clone().polygons)] *)
Definition tree_of (csg : CSG) : M Store BSPNode :=
  do c <- CSG_clone csg;
  BSPNode_new (Some (polygons c)).

Definition union (this csg : CSG) : M Store CSG :=
  do a <- tree_of this;
  do b <- tree_of csg;
  do a <- clipTo a b;
  do b <- clipTo b a;
  do b <- invert b;
  do b <- clipTo b a;
  do b <- invert b;
  do a <- build a (allPolygons b);
  ret (mkCSG (allPolygons a)).

Definition subtract (this csg : CSG) : M Store CSG :=
  do a <- tree_of this;
  do b <- tree_of csg;
  do a <- invert a;
  do a <- clipTo a b;
  do b <- clipTo b a;
  do b <- invert b;
  do b <- clipTo b a;
  do b <- invert b;
  do a <- build a (allPolygons b);
  do a <- invert a;
  ret (mkCSG (allPolygons a)).

Definition intersect (this csg : CSG) : M Store CSG :=
  do a <- tree_of this;
  do b <- tree_of csg;
  do a <- invert a;
  do b <- clipTo b a;
  do b <- invert b;
  do a <- clipTo a b;
  do b <- clipTo b a;
  do a <- build a (allPolygons b);
  do a <- invert a;
  ret (mkCSG (allPolygons a)).

Definition inverse (this : CSG) : M Store CSG :=
  do csg <- CSG_clone this;
  forM_ (polygons csg) Polygon_flip >>
  ret csg.

(** [CSG.fromPolygons(polygons)] *)
Definition fromPolygons (ps : list Polygon) : CSG := mkCSG ps.

(** ** Vocabulary of the statements *)

Definition is_node (t : BSPNode) : Prop :=
  match t with
  | Null => False
  | Node _ _ _ _ => True
  end.

(** The number of nodes of a tree. *)
Fixpoint node_count (t : BSPNode) : nat :=
  match t with
  | Null => 0
  | Node _ fr bk _ => S (node_count fr + node_count bk)
  end.

(** The tree with front and back exchanged at every node. *)
Fixpoint mirror (t : BSPNode) : BSPNode :=
  match t with
  | Null => Null
  | Node pl fr bk own => Node pl (mirror bk) (mirror fr) own
  end.

(** Two trees with the same nodes, planes and children, whatever their own
    polygon arrays hold. *)
Fixpoint same_shape (t t' : BSPNode) : Prop :=
  match t, t' with
  | Null, Null => True
  | Node pl fr bk _, Node pl' fr' bk' _ =>
      pl = pl' /\ same_shape fr fr' /\ same_shape bk bk'
  | _, _ => False
  end.

(** The length of the array in a slot of an environment. *)
Definition slot_length (env : list (list Polygon)) (k : nat) : nat :=
  length (env !!! k).

(** ** Inputs of the examples *)

(** The number of a binary numeral, by doubling. *)
Fixpoint npos (p : positive) : R :=
  match p with
  | xH => n1
  | xO q => npos q + npos q
  | xI q => npos q + npos q + n1
  end.

Definition nN (k : N) : R :=
  match k with
  | N0 => n0
  | Npos p => npos p
  end.

(** [new Polygon(points.map(p => new Vertex(p)))] *)
Definition polygon_of (points : list Vec3) : M Store Polygon :=
  do vs <- mapM (fun p => Vertex_new p None None) points;
  do r <- new_ring vs;
  Polygon_new r.

(** [CSG.fromPolygons(rings.map(...))], one polygon per list of points. *)
Definition csg_of (rings : list (list Vec3)) : M Store CSG :=
  do ps <- mapM polygon_of rings;
  ret (fromPolygons ps).

(** The triangle (0,0,k), (1,0,k), (0,1,k) in the plane z = k. *)
Definition level (k : N) : list Vec3 :=
  [mkVec3 n0 n0 (nN k); mkVec3 n1 n0 (nN k); mkVec3 n0 n1 (nN k)].

(** The numbers [lo .. lo + 2^depth - 2], the middle one first, then the
    lower half and the upper half in the same way. *)
Fixpoint midpoints (depth : nat) (lo : N) : list N :=
  match depth with
  | O => []
  | S d => let mid := (lo + 2 ^ N.of_nat d - 1)%N in
           mid :: midpoints d lo ++ midpoints d (mid + 1)%N
  end.

(** [2^depth - 1] parallel triangles, at z = 0, 1, ..., in the order of
    [midpoints]. *)
Definition shelves (depth : nat) : M Store (list Polygon) :=
  mapM (fun k => polygon_of (level k)) (midpoints depth 0%N).

(** The points (0,0,0), (1,0,0), (0,1,0), (0,0,1), (1,0,1), (0,1,1): a
    triangle in the plane z = 0 and one in the plane z = 1. *)
Definition six_points : list Vec3 :=
  [mkVec3 n0 n0 n0; mkVec3 n1 n0 n0; mkVec3 n0 n1 n0;
   mkVec3 n0 n0 n1; mkVec3 n1 n0 n1; mkVec3 n0 n1 n1].

(** The two faces over [six_points], without uv indices. *)
Definition two_faces : list Face :=
  [mkFace [0; 1; 2]%nat None; mkFace [3; 4; 5]%nat None].

(** A face with two vertex indices only. *)
Definition short_face : list Face := [mkFace [0; 1]%nat None].

(** A simple, planar, counter-clockwise pentagon in the plane z = 0 with a
    reflex vertex at (2,1). *)
Definition dented_pentagon : list Vec3 :=
  [mkVec3 n0 n0 n0; mkVec3 (nN 4) n0 n0; mkVec3 (nN 4) (nN 4) n0;
   mkVec3 (nN 2) n1 n0; mkVec3 n0 (nN 4) n0].

(** The triangle (0,0,-1), (1,0,1), (0,1,1), which crosses the plane z = 0
    of [level 0]. *)
Definition crossing_triangle : list Vec3 :=
  [mkVec3 n0 n0 (- n1); mkVec3 n1 n0 n1; mkVec3 n0 n1 n1].

(** The order of steps that the specification text gives for intersect:
    invert both trees; clip b to a; clip a to b; invert b; clip b to a;
    invert b back; build b's polygons into a; invert a back. *)
Definition intersect_as_specified (this csg : CSG) : M Store CSG :=
  do a <- tree_of this;
  do b <- tree_of csg;
  do a <- invert a;
  do b <- invert b;
  do b <- clipTo b a;
  do a <- clipTo a b;
  do b <- invert b;
  do b <- clipTo b a;
  do b <- invert b;
  do a <- build a (allPolygons b);
  do a <- invert a;
  ret (mkCSG (allPolygons a)).

(** What a caller can read from a polygon: the positions, normals and uvs of
    its ring in order, and its plane. *)
Definition ring_values (s : Store) (p : Polygon) : list Vertex :=
  map (vertex_at s) (ring_at s (vertices p)).
Definition polygon_plane (s : Store) (p : Polygon) : Plane :=
  plane_at s (plane p).

(** Every object of [s] at an address below [n] is the same in [s']. *)
Definition same_below (n : positive) (s s' : Store) : Prop :=
  forall a, (a < n)%positive ->
    vertex_of s' !! a = vertex_of s !! a /\
    ring_of s' !! a = ring_of s !! a /\
    plane_of s' !! a = plane_of s !! a.

(** [s'] comes from [s] by allocation only. *)
Definition grows (s s' : Store) : Prop :=
  (next s <= next s')%positive /\ same_below (next s) s s'.

(** No object lives at or above the next unused address.  The empty store
    is well formed and every operation keeps stores well formed. *)
Definition well_formed (s : Store) : Prop :=
  forall a, (next s <= a)%positive ->
    vertex_of s !! a = None /\ ring_of s !! a = None /\ plane_of s !! a = None.

(** The arrays at or above [n] hold only vertices at or above [n]: what was
    allocated from [n] on does not point back below [n]. *)
Definition closed_above (n : positive) (s : Store) : Prop :=
  (n <= next s)%positive /\
  forall r vs, (n <= r)%positive -> ring_of s !! r = Some vs ->
    Forall (fun v => (n <= v)%positive) vs.

Definition fresh_polygon (n : positive) (p : Polygon) : Prop :=
  (n <= vertices p)%positive /\ (n <= plane p)%positive.

Definition env_fresh (n : positive) (env : list (list Polygon)) : Prop :=
  Forall (Forall (fresh_polygon n)) env.

Fixpoint fresh_tree (n : positive) (t : BSPNode) : Prop :=
  match t with
  | Null => True
  | Node pl fr bk own =>
      match pl with Some a => (n <= a)%positive | None => True end /\
      fresh_tree n fr /\ fresh_tree n bk /\ Forall (fresh_polygon n) own
  end.

(** The objects of polygon [p] all lie below the next unused address. *)
Definition allocated (s : Store) (p : Polygon) : Prop :=
  (vertices p < next s)%positive /\ (plane p < next s)%positive /\
  Forall (fun v => (v < next s)%positive) (ring_at s (vertices p)).

(** The result of a run, or [d] if it threw. *)
Definition result_of {A} (d : A) (r : outcome A * Store) : A :=
  match r.1 with
  | Ret a => a
  | Throw _ => d
  end.

(** [m] run from [s] returns (it does not throw). *)
Definition returns {A} (m : M Store A) (s : Store) : Prop :=
  exists a s', m s = (Ret a, s').

(** A polygon whose vertex array was allocated in [s] and holds at least
    three vertices. *)
Definition proper (s : Store) (p : Polygon) : Prop :=
  (vertices p < next s)%positive /\ 3 <= length (ring_at s (vertices p)).

(** A face fromGeometry can process: at least three vertex indices, each
    within the point array, and uv indices present when uvs are given. *)
Definition face_ok (points : list Vec3) (uvs : option (list (R * R)))
    (face : Face) : Prop :=
  3 <= length (face_vertices face) /\
  Forall (fun i => i < length points) (face_vertices face) /\
  (is_Some uvs -> is_Some (face_uvs face)).

(** The in-place writes of flip and invert: reversing a vertex array,
    negating the normal of a vertex object, negating a plane object. *)
Inductive Write :=
| WRev (r : positive)
| WNormal (v : positive)
| WPlane (p : positive).

#[global] Instance Write_eq_dec : EqDecision Write.
Proof. solve_decision. Defined.

Definition apply_write (w : Write) (s : Store) : Store :=
  match w with
  | WRev r =>
      mkStore (vertex_of s) (alter (@rev positive) r (ring_of s)) (plane_of s)
              (next s)
  | WNormal v =>
      mkStore (alter negate_normal v (vertex_of s)) (ring_of s) (plane_of s)
              (next s)
  | WPlane p =>
      mkStore (vertex_of s) (ring_of s) (alter negate_plane p (plane_of s))
              (next s)
  end.

Definition apply_writes (ws : list Write) (s : Store) : Store :=
  foldl (fun s w => apply_write w s) s ws.

(** The writes of [p.flip()] when the store is [s]. *)
Definition flip_writes (s : Store) (p : Polygon) : list Write :=
  WRev (vertices p) :: (WNormal <$> rev (ring_at s (vertices p)))
  ++ [WPlane (plane p)].

(** The writes of [t.invert()], with every array read in [s]. *)
Fixpoint invert_writes (s : Store) (t : BSPNode) : list Write :=
  match t with
  | Null => []
  | Node pl fr bk own =>
      (own ≫= flip_writes s)
      ++ match pl with Some a => [WPlane a] | None => [] end
      ++ invert_writes s fr ++ invert_writes s bk
  end.

(** Two stores whose arrays hold the same vertices up to order. *)
Definition rings_perm (s s' : Store) : Prop :=
  forall r, ring_at s r ≡ₚ ring_at s' r.

(** The two facts about numbers that make negating twice the identity:
    multiplying twice by -1, and taking the opposite twice. *)
Definition negation_involutive : Prop :=
  (forall x : R, x * - n1 * - n1 = x) /\ (forall x : R, - - x = x).

(** ** The specification of splitting, on vertex values *)

(** The plane that the first three vertices of a ring define, if the ring
    has three vertices. *)
Definition plane_of_values (vs : list Vertex) : option Plane :=
  match vs !! 1%nat, vs !! 0%nat, vs !! 2%nat with
  | Some p1, Some p0, Some p2 =>
      let v1 := vsub (position p1) (position p0) in
      let v2 := vsub (position p2) (position p0) in
      let nrm := vnormalize (vcross v1 v2) in
      Some (mkPlane nrm (vdot nrm (position p0)))
  | _, _, _ => None
  end.

(** The vertex at parameter [t] on the segment from [v1] to [v2]: position,
    normal and uv blended component by component. *)
Definition lerp (v1 v2 : Vertex) (t : R) : Vertex :=
  mkVertex (vadd (vmul (position v1) (n1 - t)) (vmul (position v2) t))
           (vadd (vmul (normal v1) (n1 - t)) (vmul (normal v2) t))
           (fst (uv v1) * (n1 - t) + fst (uv v2) * t,
            snd (uv v1) * (n1 - t) + snd (uv v2) * t).

(** t = (w - normal . vi) / (normal . (vj - vi)) *)
Definition crossing_parameter (pl : Plane) (vi vj : Vertex) : R :=
  (pw pl - vdot (pnormal pl) (position vi))
  / vdot (pnormal pl) (vsub (position vj) (position vi)).

(** The edge from [vi] to [vj] has its ends on opposite sides of [pl]. *)
Definition crosses (pl : Plane) (vi vj : Vertex) : bool :=
  ((classify pl vi =? FRONT)%N && (classify pl vj =? BACK)%N)
  || ((classify pl vi =? BACK)%N && (classify pl vj =? FRONT)%N).

(** The edges of a ring: each vertex with its successor, the last with the
    first. *)
Definition edges_of {A} (l : list A) : list (A * A) := zip l (rotate1 l).

(** What the edge [e] contributes to the front ring and to the back ring:
    its first vertex unless that lies on the other side, then the crossing
    vertex if the edge crosses the plane. *)
Definition front_part (pl : Plane) (e : Vertex * Vertex) : list Vertex :=
  (if (classify pl e.1 =? BACK)%N then [] else [e.1])
  ++ (if crosses pl e.1 e.2
      then [lerp e.1 e.2 (crossing_parameter pl e.1 e.2)] else []).
Definition back_part (pl : Plane) (e : Vertex * Vertex) : list Vertex :=
  (if (classify pl e.1 =? FRONT)%N then [] else [e.1])
  ++ (if crosses pl e.1 e.2
      then [lerp e.1 e.2 (crossing_parameter pl e.1 e.2)] else []).

Definition front_ring (pl : Plane) (vs : list Vertex) : list Vertex :=
  edges_of vs ≫= front_part pl.
Definition back_ring (pl : Plane) (vs : list Vertex) : list Vertex :=
  edges_of vs ≫= back_part pl.

(** The bitwise OR of the types of the vertices. *)
Definition aggregate (types : list N) : N := fold_left N.lor types 0%N.

(** The addresses [l] are allocated in [s] and hold the vertex values
    [vals]. *)
Definition holds (s : Store) (l : list positive) (vals : list Vertex) : Prop :=
  map (vertex_at s) l = vals /\ Forall (fun a => (a < next s)%positive) l.

(** The polygons [qs] have, in [s], the ring of values [ring] and the plane
    its first three vertices define, if [ring] has at least three vertices;
    otherwise there are none. *)
Definition emitted (s : Store) (ring : list Vertex) (qs : list Polygon) : Prop :=
  if (3 <=? length ring)%nat
  then exists q, qs = [q] /\ allocated s q /\ ring_values s q = ring /\
                 Some (polygon_plane s q) = plane_of_values ring
  else qs = [].

(** Some vertex has type [t]. *)
Definition has (t : N) (types : list N) : bool := existsb (N.eqb t) types.

(** The aggregate type of a polygon with or without a FRONT vertex and with
    or without a BACK vertex. *)
Definition type_code (hasF hasB : bool) : N :=
  N.lor (if hasF then FRONT else COPLANAR) (if hasB then BACK else COPLANAR).

(** ** The specification of clipping *)

(** The vertex array of [p] and the vertices in it were allocated in [s]. *)
Definition ring_allocated (s : Store) (p : Polygon) : Prop :=
  (vertices p < next s)%positive /\
  Forall (fun a => (a < next s)%positive) (ring_at s (vertices p)).

(** Where clipPolygons sends polygon [p] at a node whose plane object is at
    [a], run from store [s] to store [s']: the polygons [fs] it adds to the
    front set and the polygons [bs] it adds to the back set.  A polygon with
    all vertices coplanar goes by the sign of the dot product of the node's
    plane normal with its own plane normal; a polygon on one side goes to
    that side; a polygon on both sides is replaced by the polygons of its
    front ring and back ring. *)
Definition routed (a : positive) (p : Polygon) (s s' : Store)
    (fs bs : list Polygon) : Prop :=
  let pl := plane_at s a in
  let vs := ring_values s p in
  let types := classify pl <$> vs in
  match has FRONT types, has BACK types with
  | false, false =>
      s' = s /\
      if nlt n0 (vdot (pnormal pl) (pnormal (polygon_plane s p)))
      then fs = [p] /\ bs = [] else fs = [] /\ bs = [p]
  | true, false => s' = s /\ fs = [p] /\ bs = []
  | false, true => s' = s /\ fs = [] /\ bs = [p]
  | true, true =>
      emitted s' (front_ring pl vs) fs /\ emitted s' (back_ring pl vs) bs
  end.

(** ** The specification of cloning and of inverse *)

(** How many times [x] occurs in [l]. *)
Definition occurrences {A} `{EqDecision A} (x : A) (l : list A) : nat :=
  length (filter (x =.) l).

(** A polygon an operation can take as input: its array and the vertices in
    it were allocated, and there are at least three of them. *)
Definition operand (s : Store) (p : Polygon) : Prop :=
  ring_allocated s p /\ 3 <= length (ring_at s (vertices p)).

(** The objects of [q] are in the store, at addresses from [lo] up to but
    not including [hi], and no vertex occurs twice in its array. *)
Definition owned (lo hi : positive) (s : Store) (q : Polygon) : Prop :=
  (lo <= vertices q < hi)%positive /\ (lo <= plane q < hi)%positive /\
  is_Some (ring_of s !! vertices q) /\ is_Some (plane_of s !! plane q) /\
  Forall (fun v => (lo <= v < hi)%positive /\ is_Some (vertex_of s !! v))
         (ring_at s (vertices q)).

(** No two polygons of [qs] share an array, a plane object or a vertex
    object, and no array holds a vertex twice. *)
Definition separate (s : Store) (qs : list Polygon) : Prop :=
  NoDup (vertices <$> qs) /\ NoDup (plane <$> qs) /\
  NoDup (qs ≫= fun q => ring_at s (vertices q)).

(** [q] has in [s] the vertex values [vals], in that order, and the plane
    they define. *)
Definition has_values (s : Store) (vals : list Vertex) (q : Polygon) : Prop :=
  ring_values s q = vals /\
  Some (polygon_plane s q) = plane_of_values vals.

(** [q] has in [s] the vertex values [vals] in reverse order with negated
    normals, and the negation of the plane that [vals] define. *)
Definition has_flipped_values (s : Store) (vals : list Vertex) (q : Polygon)
  : Prop :=
  ring_values s q = rev (negate_normal <$> vals) /\
  Some (polygon_plane s q) = negate_plane <$> plane_of_values vals.

(** The edges of the open path [l] followed by [c]: each element with its
    successor, the last with [c]. *)
Fixpoint path_edges {A} (l : list A) (c : A) : list (A * A) :=
  match l with
  | [] => []
  | a :: l' => (a, hd c l') :: path_edges l' c
  end.

(** ** Operands of further operations *)

(** [s'] comes from [s] by allocation and by writes that keep, up to order,
    what every array of [s] holds. *)
Definition extends (s s' : Store) : Prop :=
  (next s <= next s')%positive /\
  forall r, (r < next s)%positive -> ring_at s r ≡ₚ ring_at s' r.

(** Every polygon of the tree is an operand. *)
Definition tree_ok (s : Store) (t : BSPNode) : Prop :=
  Forall (operand s) (allPolygons t).

(** Every polygon in every array of the environment is an operand. *)
Definition env_ok (s : Store) (env : list (list Polygon)) : Prop :=
  Forall (Forall (operand s)) env.

(** ** Meshes *)

(** The fields of a mesh that fromMesh reads. *)
Record Mesh := mkMesh {
  mesh_vertices : list Vec3;
  mesh_faces : list Face;
  mesh_normals : option (list Vec3);
  mesh_uvs : option (list (R * R))
}.

(** [CSG.fromMesh(mesh)] *)
Definition fromMesh (mesh : Mesh) : M Store CSG :=
  fromGeometry (mesh_vertices mesh) (mesh_faces mesh) (mesh_normals mesh)
               (mesh_uvs mesh).

(** A face whose inner loop in fromGeometry runs through: every vertex
    index is within the point array, and when uvs are given a face that has
    vertices has uv indices. *)
Definition face_valid (points : list Vec3) (uvs : option (list (R * R)))
    (face : Face) : Prop :=
  Forall (fun i => i < length points) (face_vertices face) /\
  (is_Some uvs -> face_vertices face <> [] -> is_Some (face_uvs face)).

(** The first face, if there is one, has at least three vertex indices. *)
Definition first_face_long (faces : list Face) : Prop :=
  match faces with
  | [] => True
  | face :: _ => 3 <= length (face_vertices face)
  end.

(** The faces, met when the shared array holds [n] vertices: each is valid
    and finds at least three vertices in the array once its own are
    pushed. *)
Fixpoint faces_run (points : list Vec3) (uvs : option (list (R * R)))
    (n : nat) (faces : list Face) : Prop :=
  match faces with
  | [] => True
  | face :: rest =>
      face_valid points uvs face /\
      3 <= n + length (face_vertices face) /\
      faces_run points uvs (n + length (face_vertices face))%nat rest
  end.

(** All a computation can throw is a TypeError. *)
Definition only_TypeError {A} (m : M Store A) : Prop :=
  forall s e s', m s = (Throw e, s') -> e = TypeError.

(** The vertex fromGeometry makes at position [i] of a face for the vertex
    index [idx]: the point at [idx]; the normal at [idx] or, if there is
    none, the zero vector; the uv pair at the face's [i]-th uv index or, if
    there is none, [[0, 0]]. *)
Definition face_value (points : list Vec3) (normals : option (list Vec3))
    (uvs : option (list (R * R))) (face : Face) (i idx : nat) : option Vertex :=
  match points !! idx with
  | Some pos =>
      Some (mkVertex pos
              (default vzero (match normals with
                              | Some ns => ns !! idx
                              | None => None
                              end))
              (default (n0, n0)
                       (match uvs, face_uvs face with
                        | Some us, Some fu =>
                            match fu !! i with
                            | Some k => us !! k
                            | None => None
                            end
                        | _, _ => None
                        end)))
  | None => None
  end.

(** The vertices of a face, from position [i] on. *)
Fixpoint face_values_from (points : list Vec3) (normals : option (list Vec3))
    (uvs : option (list (R * R))) (face : Face) (i : nat) (idxs : list nat)
  : list (option Vertex) :=
  match idxs with
  | [] => []
  | idx :: rest =>
      face_value points normals uvs face i idx
      :: face_values_from points normals uvs face (S i) rest
  end.

Definition face_values (points : list Vec3) (normals : option (list Vec3))
    (uvs : option (list (R * R))) (face : Face) : list (option Vertex) :=
  face_values_from points normals uvs face 0 (face_vertices face).

(** Every array of [env'] starts with what the array of [env] in the same
    slot holds: polygons were pushed, none removed. *)
Definition slots_grow (env env' : list (list Polygon)) : Prop :=
  forall k, env !!! k `prefix_of` env' !!! k.

(** All vertices of [p] that are off the plane at [a] are on one side of
    it, the front if [front_side] and the back otherwise, and at least one
    vertex is off the plane. *)
Definition on_side (front_side : bool) (a : positive) (s : Store)
    (p : Polygon) : Prop :=
  let types := classify (plane_at s a) <$> ring_values s p in
  has FRONT types = front_side /\ has BACK types = negb front_side.

(** Every vertex of [p] is COPLANAR with the plane at [a]. *)
Definition on_plane (a : positive) (s : Store) (p : Polygon) : Prop :=
  let types := classify (plane_at s a) <$> ring_values s p in
  has FRONT types = false /\ has BACK types = false.

(** The engine calls of [DoorWindow.generateGeometry], from the meshes of
    the outer frame, the inner cutout and the glass panel: the three
    [CSG.fromMesh] calls, [frameCSG.subtract(cutoutCSG)] for the frame, and
    [frameCSG.subtract(cutoutCSG).union(glassCSG)] for the complete window.
    It returns the components [frame], [glass] and [complete]. *)
Definition DoorWindow_components (outerFrame innerCutout glassPanel : Mesh)
  : M Store (CSG * CSG * CSG) :=
  do frameCSG <- fromMesh outerFrame;
  do cutoutCSG <- fromMesh innerCutout;
  do glassCSG <- fromMesh glassPanel;
  do frame <- subtract frameCSG cutoutCSG;
  do cut <- subtract frameCSG cutoutCSG;
  do complete <- union cut glassCSG;
  ret (frame, glassCSG, complete).

(** A mesh fromMesh accepts. *)
Definition mesh_valid (mesh : Mesh) : Prop :=
  Forall (face_valid (mesh_vertices mesh) (mesh_uvs mesh)) (mesh_faces mesh) /\
  first_face_long (mesh_faces mesh).

(** ** The contract of splitting and clipping, in its own terms *)

(** The definitions of this part are written from the text of the contract
    and use nothing of the embedded methods: sides instead of type numbers
    computed by the code, the edges of a ring instead of index arithmetic. *)

(** The side of a plane a vertex lies on. *)
Inductive Side := Behind | InFront | OnPlane.

(** The signed value normal . position - w of a vertex against a plane. *)
Definition signed_distance (pl : Plane) (v : Vertex) : R :=
  vdot (pnormal pl) (position v) - pw pl.

(** Below -epsilon is behind, above +epsilon is in front, otherwise on the
    plane. *)
Definition side_of (pl : Plane) (v : Vertex) : Side :=
  if nlt (signed_distance pl v) (- EPSILON) then Behind
  else if nlt EPSILON (signed_distance pl v) then InFront
  else OnPlane.

(** The type of a vertex on a side. *)
Definition type_of_side (d : Side) : N :=
  match d with
  | Behind => BACK
  | InFront => FRONT
  | OnPlane => COPLANAR
  end.

(** The type of a polygon against a plane: the bitwise OR of the types of
    its vertices, read as all coplanar (0), pure front, pure back or
    spanning. *)
Inductive PolygonType := AllCoplanar | PureFront | PureBack | Spanning.

Definition polygon_type (pl : Plane) (vs : list Vertex) : PolygonType :=
  let t := fold_left N.lor (type_of_side <$> (side_of pl <$> vs)) 0%N in
  if (t =? COPLANAR)%N then AllCoplanar
  else if (t =? FRONT)%N then PureFront
  else if (t =? BACK)%N then PureBack
  else Spanning.

(** The edges of a ring: every vertex with the next one, and the last
    vertex with the first. *)
Definition ring_edges {A} (l : list A) : list (A * A) :=
  match l with
  | [] => []
  | first :: _ => path_edges l first
  end.

(** The ends of an edge classify on opposite sides. *)
Definition opposite_sides (pl : Plane) (vi vj : Vertex) : bool :=
  match side_of pl vi, side_of pl vj with
  | InFront, Behind | Behind, InFront => true
  | _, _ => false
  end.

(** The vertex synthesized on a crossing edge: the interpolation of its
    ends at t = (w - normal . vi) / (normal . (vj - vi)). *)
Definition crossing_vertex (pl : Plane) (vi vj : Vertex) : Vertex :=
  lerp vi vj (crossing_parameter pl vi vj).

(** The front-side ring: going round the ring, every vertex that is not
    behind the plane, followed by the crossing vertex if the edge to the
    next vertex crosses.  The back-side ring likewise, with every vertex
    that is not in front. *)
Definition front_side_ring (pl : Plane) (vs : list Vertex) : list Vertex :=
  ring_edges vs ≫= fun e =>
    match side_of pl e.1 with Behind => [] | _ => [e.1] end
    ++ (if opposite_sides pl e.1 e.2 then [crossing_vertex pl e.1 e.2] else []).

Definition back_side_ring (pl : Plane) (vs : list Vertex) : list Vertex :=
  ring_edges vs ≫= fun e =>
    match side_of pl e.1 with InFront => [] | _ => [e.1] end
    ++ (if opposite_sides pl e.1 e.2 then [crossing_vertex pl e.1 e.2] else []).

(** The arrays [env] after the polygons [qs] were appended to the array in
    [slot]. *)
Definition appended (slot : nat) (qs : list Polygon)
    (env : list (list Polygon)) : list (list Polygon) :=
  alter (fun l => l ++ qs) slot env.

(** Where the partition against the plane object at [a] sends polygon [p],
    from store [s] to store [s']: the polygons [fs] that join the front set
    and the polygons [bs] that join the back set.  An all-coplanar polygon
    goes whole to the front set if the dot product of the plane's normal
    with its own plane's normal is positive, and whole to the back set
    otherwise; a pure front or pure back polygon goes whole to its side; a
    spanning polygon is replaced by the polygons of its front-side and
    back-side rings. *)
Definition sent (a : positive) (p : Polygon) (s s' : Store)
    (fs bs : list Polygon) : Prop :=
  let pl := plane_at s a in
  let vs := ring_values s p in
  match polygon_type pl vs with
  | AllCoplanar =>
      s' = s /\
      if nlt n0 (vdot (pnormal pl) (pnormal (polygon_plane s p)))
      then fs = [p] /\ bs = [] else fs = [] /\ bs = [p]
  | PureFront => s' = s /\ fs = [p] /\ bs = []
  | PureBack => s' = s /\ fs = [] /\ bs = [p]
  | Spanning =>
      emitted s' (front_side_ring pl vs) fs /\
      emitted s' (back_side_ring pl vs) bs
  end.

(** The partition of a polygon list against the plane object at [a],
    polygon after polygon: the front set and the back set, each in the
    order of the list. *)
Inductive partition_by (a : positive) :
  list Polygon -> Store -> Store -> list Polygon -> list Polygon -> Prop :=
| partition_by_nil s : partition_by a [] s s [] []
| partition_by_cons p ps s s1 s2 fs bs front back :
    sent a p s s1 fs bs ->
    partition_by a ps s1 s2 front back ->
    partition_by a (p :: ps) s s2 (fs ++ front) (bs ++ back).

(** Clipping the list [ps] through the tree [t] from store [s] gives the
    list [out] in store [s']: an absent child and a node without a plane
    give the list back; a node with a plane partitions the list against its
    plane, clips the front set through the front child, then the back set
    through the back child, and gives the clipped front polygons followed
    by the clipped back polygons. *)
Inductive clipped :
  BSPNode -> list Polygon -> Store -> Store -> list Polygon -> Prop :=
| clipped_absent ps s : clipped Null ps s s ps
| clipped_leaf fr bk own ps s : clipped (Node None fr bk own) ps s s ps
| clipped_node a fr bk own ps s s1 s2 s3 front back front' back' :
    partition_by a ps s s1 front back ->
    clipped fr front s1 s2 front' ->
    clipped bk back s2 s3 back' ->
    clipped (Node (Some a) fr bk own) ps s s3 (front' ++ back').

(** * Facts *)

(** ** The monad *)

Section MonadFacts.

Context {St : Type}.

Lemma bind_Ret {A B} (m : M St A) (k : A -> M St B) s a s' :
  m s = (Ret a, s') -> bind m k s = k a s'.
Proof. unfold bind. by intros ->. Qed.

Lemma bind_Throw {A B} (m : M St A) (k : A -> M St B) s e s' :
  m s = (Throw e, s') -> bind m k s = (Throw e, s').
Proof. unfold bind. by intros ->. Qed.

Lemma bind_returns {A B} (m : M St A) (k : A -> M St B) s b s'' :
  bind m k s = (Ret b, s'') ->
  exists a s', m s = (Ret a, s') /\ k a s' = (Ret b, s'').
Proof.
  unfold bind. destruct (m s) as [[a|e] s']; [eauto | discriminate].
Qed.

Lemma total_ret {A} (Q : A -> Prop) a : Q a -> total (St := St) Q (ret a).
Proof. intros HQ s. by exists a, s. Qed.

Lemma total_bind {A B} (Q1 : A -> Prop) (Q2 : B -> Prop) m (k : A -> M St B) :
  total Q1 m -> (forall a, Q1 a -> total Q2 (k a)) -> total Q2 (bind m k).
Proof.
  intros Hm Hk s. destruct (Hm s) as (a & s' & Hms & Ha).
  destruct (Hk a Ha s') as (b & s'' & Hks & Hb).
  exists b, s''. by rewrite (bind_Ret _ _ _ _ _ Hms).
Qed.

Lemma total_weaken {A} (Q Q' : A -> Prop) (m : M St A) :
  total Q m -> (forall a, Q a -> Q' a) -> total Q' m.
Proof.
  intros Hm HQ s. destruct (Hm s) as (a & s' & ? & ?). exists a, s'. auto.
Qed.

Lemma total_foldM {A B} (I : B -> Prop) (f : B -> A -> M St B) l b :
  (forall b a, I b -> total I (f b a)) -> I b -> total I (foldM f b l).
Proof.
  intros Hf. revert b. induction l as [|a l IH]; intros b Hb; simpl.
  - by apply total_ret.
  - eapply total_bind; [by apply Hf | auto].
Qed.

Lemma total_mapM {A B} (Q : B -> Prop) (f : A -> M St B) l :
  (forall a, total Q (f a)) -> total (Forall Q) (mapM f l).
Proof.
  intros Hf. induction l as [|a l IH]; simpl.
  - by apply total_ret.
  - eapply total_bind; [apply Hf |]. intros b Hb.
    eapply total_bind; [apply IH |]. intros bs Hbs.
    apply total_ret. by constructor.
Qed.

Lemma total_forM_ {A} (f : A -> M St unit) l :
  (forall a, total (fun _ => True) (f a)) -> total (fun _ => True) (forM_ l f).
Proof.
  intros Hf. induction l as [|a l IH]; simpl.
  - by apply total_ret.
  - eapply total_bind; [apply Hf | auto].
Qed.

Section Sound.

Context (Inv : St -> Prop) (Rel : St -> St -> Prop).
Context (Rel_refl : forall s, Rel s s).
Context (Rel_trans : forall s1 s2 s3, Rel s1 s2 -> Rel s2 s3 -> Rel s1 s3).

Lemma sound_ret {A} (Q : A -> Prop) a : Q a -> sound Inv Rel Q (ret a).
Proof using Rel_refl. intros HQ s Hs. simpl. auto. Qed.

Lemma sound_throw {A} (Q : A -> Prop) e : sound Inv Rel Q (throw e).
Proof using Rel_refl. intros s Hs. simpl. auto. Qed.

Lemma sound_bind {A B} (Q1 : A -> Prop) (Q2 : B -> Prop) m (k : A -> M St B) :
  sound Inv Rel Q1 m -> (forall a, Q1 a -> sound Inv Rel Q2 (k a)) ->
  sound Inv Rel Q2 (bind m k).
Proof using Rel_trans.
  intros Hm Hk s Hs. destruct (Hm s Hs) as (Hi & Hr & Ho).
  unfold bind. destruct (m s) as [[a|e] s']; simpl in *; [|auto].
  destruct (Hk a Ho s' Hi) as (Hi' & Hr' & Ho'). eauto.
Qed.

Lemma sound_weaken {A} (Q Q' : A -> Prop) (m : M St A) :
  sound Inv Rel Q m -> (forall a, Q a -> Q' a) -> sound Inv Rel Q' m.
Proof.
  intros Hm HQ s Hs. destruct (Hm s Hs) as (? & ? & Ho).
  repeat split; [done..|]. destruct (m s).1; auto.
Qed.

Lemma sound_foldM {A B} (I : B -> Prop) (P : A -> Prop) (f : B -> A -> M St B)
    l b :
  (forall b a, I b -> P a -> sound Inv Rel I (f b a)) ->
  Forall P l -> I b -> sound Inv Rel I (foldM f b l).
Proof using Rel_refl Rel_trans.
  intros Hf Hl. revert b. induction Hl as [|a l Ha Hl IH]; intros b Hb; simpl.
  - by apply sound_ret.
  - eapply sound_bind; [by apply Hf | auto].
Qed.

Lemma sound_mapM {A B} (Q : B -> Prop) (P : A -> Prop) (f : A -> M St B) l :
  (forall a, P a -> sound Inv Rel Q (f a)) ->
  Forall P l -> sound Inv Rel (Forall Q) (mapM f l).
Proof using Rel_refl Rel_trans.
  intros Hf Hl. induction Hl as [|a l Ha Hl IH]; simpl.
  - by apply sound_ret.
  - eapply sound_bind; [by apply Hf |]. intros b Hb.
    eapply sound_bind; [apply IH |]. intros bs Hbs.
    apply sound_ret. by constructor.
Qed.

Lemma sound_forM_ {A} (P : A -> Prop) (f : A -> M St unit) l :
  (forall a, P a -> sound Inv Rel (fun _ => True) (f a)) ->
  Forall P l -> sound Inv Rel (fun _ => True) (forM_ l f).
Proof using Rel_refl Rel_trans.
  intros Hf Hl. induction Hl as [|a l Ha Hl IH]; simpl.
  - by apply sound_ret.
  - eapply sound_bind; [by apply Hf | auto].
Qed.

End Sound.

End MonadFacts.

(** ** Operations that always return *)

Ltac total_prim := intros s; eexists _, _; split; [reflexivity | done].

Lemma total_get_vertex a : total (fun _ => True) (get_vertex a).
Proof. total_prim. Qed.
Lemma total_get_ring a : total (fun _ => True) (get_ring a).
Proof. total_prim. Qed.
Lemma total_get_plane a : total (fun _ => True) (get_plane a).
Proof. total_prim. Qed.
Lemma total_new_vertex v : total (fun _ => True) (new_vertex v).
Proof. total_prim. Qed.
Lemma total_new_ring vs : total (fun _ => True) (new_ring vs).
Proof. total_prim. Qed.
Lemma total_new_plane p : total (fun _ => True) (new_plane p).
Proof. total_prim. Qed.
Lemma total_modify_vertex f a : total (fun _ => True) (modify_vertex f a).
Proof. total_prim. Qed.
Lemma total_modify_ring f a : total (fun _ => True) (modify_ring f a).
Proof. total_prim. Qed.
Lemma total_modify_plane f a : total (fun _ => True) (modify_plane f a).
Proof. total_prim. Qed.

Create HintDb total discriminated.
Hint Resolve total_get_vertex total_get_ring total_get_plane total_new_vertex
  total_new_ring total_new_plane total_modify_vertex total_modify_ring
  total_modify_plane : total.

Ltac total_go :=
  repeat first
    [ apply total_ret; try done
    | eapply total_bind; [ solve [eauto with total] | intros ? ? ]
    | match goal with
      | |- total _ (match ?x with _ => _ end) => destruct x
      end ].

Lemma total_Vertex_new pos nrm uv0 :
  total (fun _ => True) (Vertex_new pos nrm uv0).
Proof. unfold Vertex_new. eauto with total. Qed.
Hint Resolve total_Vertex_new : total.

Lemma total_Vertex_clone a : total (fun _ => True) (Vertex_clone a).
Proof. unfold Vertex_clone. total_go. eauto with total. Qed.
Hint Resolve total_Vertex_clone : total.

Lemma total_interpolateVertex a1 a2 t :
  total (fun _ => True) (interpolateVertex a1 a2 t).
Proof. unfold interpolateVertex. total_go. eauto with total. Qed.
Hint Resolve total_interpolateVertex : total.

Lemma total_Polygon_flip p : total (fun _ => True) (Polygon_flip p).
Proof.
  unfold Polygon_flip. total_go.
  eapply total_bind; [apply total_forM_; eauto with total | intros ? ?].
  eauto with total.
Qed.
Hint Resolve total_Polygon_flip : total.

Lemma total_split_edge pl fb e : total (fun _ => True) (split_edge pl fb e).
Proof.
  unfold split_edge. destruct e as [[vi ti] [vj tj]], fb as [f b].
  eapply total_bind with (Q1 := fun _ => True).
  - repeat case_match; total_go.
  - intros b' _. case_match; total_go.
Qed.
Hint Resolve total_split_edge : total.

(** [new Polygon(ring)] returns as soon as the array holds three vertices. *)
Lemma Polygon_new_returns s r :
  3 <= length (ring_at s r) ->
  exists pl, Polygon_new r s =
    (Ret (mkPolygon r (next s)),
     mkStore (vertex_of s) (ring_of s) (<[next s := pl]> (plane_of s))
             (Pos.succ (next s))).
Proof.
  intros Hlen. unfold Polygon_new, calculatePlane, bind, get_ring at 1.
  destruct (ring_at s r) as [|a0 [|a1 [|a2 vs]]] eqn:E; simpl in Hlen; try lia.
  simpl. eauto.
Qed.

Lemma Polygon_new_throws s r :
  length (ring_at s r) < 3 -> Polygon_new r s = (Throw TypeError, s).
Proof.
  intros Hlen. unfold Polygon_new, calculatePlane, bind, get_ring at 1.
  destruct (ring_at s r) as [|a0 [|a1 [|a2 vs]]] eqn:E; simpl in Hlen;
    try lia; done.
Qed.

Lemma ring_at_new_ring s vs : ring_at (new_ring vs s).2 (next s) = vs.
Proof. unfold ring_at. simpl. by rewrite lookup_insert_eq. Qed.

Lemma slot_length_push_ne env i k p :
  k <> i -> slot_length (push i p env) k = slot_length env k.
Proof.
  intros Hne. unfold slot_length, push.
  by rewrite list_lookup_total_alter_ne.
Qed.

Lemma slot_length_push env i k p :
  slot_length (push i p env) k
  <= slot_length env k + (if decide (k = i) then 1 else 0).
Proof.
  destruct (decide (k = i)) as [->|Hne].
  - unfold slot_length, push.
    destruct (decide (i < length env)) as [Hlt|Hge].
    + rewrite list_lookup_total_alter_eq by done. rewrite length_app. simpl. lia.
    + rewrite !list_lookup_total_alt, list_lookup_alter_eq.
      rewrite lookup_ge_None_2 by lia. simpl. lia.
  - rewrite slot_length_push_ne by done. lia.
Qed.

Lemma total_emit slot ring env :
  total (fun env' => forall k, slot_length env' k
                     <= slot_length env k + (if decide (k = slot) then 1 else 0))
        (emit slot ring env).
Proof.
  unfold emit. destruct (3 <=? length ring) eqn:E.
  - intros s. apply Nat.leb_le in E.
    destruct (Polygon_new_returns (new_ring ring s).2 (next s)) as [pl Hp].
    { by rewrite ring_at_new_ring. }
    unfold bind at 1. simpl. unfold bind. simpl in Hp. rewrite Hp.
    eexists _, _. split; [reflexivity|]. intros k. apply slot_length_push.
  - apply total_ret. intros k. lia.
Qed.

Lemma total_splitPolygon a p cf cb f b env :
  f <> b ->
  total (fun env' => forall k, slot_length env' k <= S (slot_length env k))
        (splitPolygon a p cf cb f b env).
Proof.
  intros Hfb. unfold splitPolygon.
  assert (Hpush : forall i k, slot_length (push i p env) k
                              <= S (slot_length env k)).
  { intros i k. pose proof (slot_length_push env i k p). case_decide; lia. }
  total_go.
  eapply total_bind; [apply total_mapM with (Q := fun _ => True) |].
  { intros v. total_go. }
  intros types _. repeat case_match; total_go; try (intros k; lia).
  eapply total_bind; [apply total_foldM with (I := fun _ => True) |];
    [eauto with total | done |].
  intros [fr bk] _.
  eapply total_bind; [apply total_emit |]. intros env1 He1.
  eapply total_weaken; [apply total_emit |]. intros env2 He2 k. simpl.
  specialize (He1 k). specialize (He2 k). repeat case_decide; subst; lia.
Qed.

Lemma total_split_loop a cf cb f b polys env :
  f <> b ->
  total (fun env' => forall k,
           slot_length env' k <= slot_length env k + length polys)
        (foldM (fun env poly => splitPolygon a poly cf cb f b env) env polys).
Proof.
  intros Hfb. revert env. induction polys as [|p polys IH]; intros env; simpl.
  - apply total_ret. intros k. lia.
  - eapply total_bind; [by apply total_splitPolygon |]. intros env1 He1.
    eapply total_weaken; [apply IH |]. intros env2 He2 k. simpl.
    specialize (He1 k). specialize (He2 k). lia.
Qed.

Lemma total_invert t : total (fun t' => t' = mirror t) (invert t).
Proof.
  induction t as [|pl fr IHf bk IHb own]; simpl.
  - by apply total_ret.
  - eapply total_bind; [apply total_forM_; eauto with total | intros ? ?].
    eapply total_bind with (Q1 := fun _ => True).
    { destruct pl; [eauto with total | by apply total_ret]. }
    intros ? ?. eapply total_bind; [apply IHf |]. intros fr' ->.
    eapply total_bind; [apply IHb |]. intros bk' ->.
    by apply total_ret.
Qed.

Lemma total_clipPolygons t polys :
  total (fun _ => True) (clipPolygons t polys).
Proof.
  revert polys. induction t as [|pl fr IHf bk IHb own]; intros polys; simpl.
  - by apply total_ret.
  - destruct pl as [a|]; [|by apply total_ret].
    eapply total_bind; [by apply total_split_loop |]. intros env _.
    eapply total_bind; [apply IHf |]. intros front _.
    eapply total_bind; [apply IHb |]. intros back _.
    by apply total_ret.
Qed.

Lemma total_clipTo t bsp : total (same_shape t) (clipTo t bsp).
Proof.
  induction t as [|pl fr IHf bk IHb own]; simpl.
  - by apply total_ret.
  - eapply total_bind; [apply total_clipPolygons |]. intros own' _.
    eapply total_bind; [apply IHf |]. intros fr' Hf.
    eapply total_bind; [apply IHb |]. intros bk' Hb.
    by apply total_ret.
Qed.

Lemma same_shape_is_node t t' : same_shape t t' -> is_node t -> is_node t'.
Proof. by destruct t, t'. Qed.

Lemma is_node_or_new t : is_node (or_new t).
Proof. by destruct t. Qed.

Lemma mirror_is_node t : is_node t -> is_node (mirror t).
Proof. by destruct t. Qed.

(** build never runs out of fuel and never throws: each recursive call gets
    a strictly shorter array. *)
Lemma total_build_fuel fuel this polys :
  is_node this -> length polys <= fuel ->
  total is_node (build_fuel fuel this polys).
Proof.
  revert this polys. induction fuel as [|fuel IH]; intros this polys Hn Hlen.
  - destruct this as [|pl fr bk own]; [done|]. simpl.
    destruct polys; [|simpl in Hlen; lia]. simpl. by apply total_ret.
  - destruct this as [|pl fr bk own]; [done|]. simpl.
    destruct (_ || _) eqn:Hguard; [by apply total_ret|].
    destruct polys as [|p0 polys']; [done|].
    set (polys := p0 :: polys') in *.
    eapply total_bind; [apply total_split_loop; lia |]. intros env Henv.
    assert (Hfront := Henv 1). assert (Hback := Henv 2).
    unfold slot_length in Hfront, Hback. simpl in Hfront, Hback.
    eapply total_bind with (Q1 := fun _ => True).
    { repeat case_match; try by apply total_ret.
      eapply total_weaken; [apply IH|done]; [apply is_node_or_new|].
      repeat match goal with
             | E : (_ =? _) = false |- _ => apply Nat.eqb_neq in E
             end.
      subst polys. simpl in *. lia. }
    intros fr' _.
    eapply total_bind with (Q1 := fun _ => True).
    { repeat case_match; try by apply total_ret.
      eapply total_weaken; [apply IH|done]; [apply is_node_or_new|].
      repeat match goal with
             | E : (_ =? _) = false |- _ => apply Nat.eqb_neq in E
             end.
      subst polys. simpl in *. lia. }
    intros bk' _. by apply total_ret.
Qed.

Lemma total_build this polys : is_node this -> total is_node (build this polys).
Proof. intros Hn. by apply total_build_fuel. Qed.

Hint Resolve total_invert total_clipPolygons total_clipTo total_build : total.

Lemma total_tree_node csg s a s' :
  tree_of csg s = (Ret a, s') -> is_node a.
Proof.
  unfold tree_of. intros Hrun.
  apply bind_returns in Hrun as (c & s1 & _ & Hb). simpl in Hb.
  destruct (total_build empty_node (polygons c) I s1) as (t & s2 & Ht & Hn).
  congruence.
Qed.

(** ** The ceiling in build *)

(** C5 (amended): build never raises an error, and when the own polygon
    array of the node already holds more than 1000 polygons it returns at
    once: the node keeps its plane, children and polygons, and the store is
    untouched.  The ceiling is on that array; it does not bound the number
    of nodes of the tree. *)
Theorem build_halts_at_own_ceiling pl fr bk own polys (s : Store) :
  exists t s',
    build (Node pl fr bk own) polys s = (Ret t, s') /\ is_node t /\
    (1000 < length own -> t = Node pl fr bk own /\ s' = s).
Proof.
  destruct (total_build (Node pl fr bk own) polys I s) as (t & s' & Ht & Hn).
  exists t, s'. split; [done|]. split; [done|].
  intros Hlen. unfold build in Ht. apply Nat.ltb_lt in Hlen.
  destruct (length polys); simpl in Ht; rewrite Hlen, orb_true_r in Ht;
    by inversion Ht.
Qed.

(** ** The steps of intersect *)

(** C3 (amended): intersect builds the trees a and b from clones of the two
    operands and then performs exactly these steps, each of which returns:
    invert a; clip b to a; invert b; clip a to b; clip b to a; build b's
    polygons into a; invert a; the result is a's flattened polygon list.  If
    cloning an operand throws, intersect throws there. *)
Theorem intersect_steps (this csg : CSG) (s : Store) :
  match tree_of this s with
  | (Throw e, s1) => intersect this csg s = (Throw e, s1)
  | (Ret a0, s1) =>
      match tree_of csg s1 with
      | (Throw e, s2) => intersect this csg s = (Throw e, s2)
      | (Ret b0, s2) =>
          exists a1 s3 b1 s4 b2 s5 a2 s6 b3 s7 a3 s8 a4 s9,
            invert a0 s2 = (Ret a1, s3) /\
            clipTo b0 a1 s3 = (Ret b1, s4) /\
            invert b1 s4 = (Ret b2, s5) /\
            clipTo a1 b2 s5 = (Ret a2, s6) /\
            clipTo b2 a2 s6 = (Ret b3, s7) /\
            build a2 (allPolygons b3) s7 = (Ret a3, s8) /\
            invert a3 s8 = (Ret a4, s9) /\
            intersect this csg s = (Ret (fromPolygons (allPolygons a4)), s9)
      end
  end.
Proof.
  unfold intersect.
  destruct (tree_of this s) as [[a0|e] s1] eqn:Ea;
    [|by rewrite (bind_Throw _ _ _ _ _ Ea)].
  rewrite (bind_Ret _ _ _ _ _ Ea).
  destruct (tree_of csg s1) as [[b0|e] s2] eqn:Eb;
    [|by rewrite (bind_Throw _ _ _ _ _ Eb)].
  rewrite (bind_Ret _ _ _ _ _ Eb).
  assert (Ha0 := total_tree_node _ _ _ _ Ea).
  destruct (total_invert a0 s2) as (a1 & s3 & E1 & ->).
  destruct (total_clipTo b0 (mirror a0) s3) as (b1 & s4 & E2 & _).
  destruct (total_invert b1 s4) as (b2 & s5 & E3 & ->).
  destruct (total_clipTo (mirror a0) (mirror b1) s5) as (a2 & s6 & E4 & Hs).
  destruct (total_clipTo (mirror b1) a2 s6) as (b3 & s7 & E5 & _).
  assert (Ha2 : is_node a2).
  { eapply same_shape_is_node; [done|]. by apply mirror_is_node. }
  destruct (total_build a2 (allPolygons b3) Ha2 s7) as (a3 & s8 & E6 & _).
  destruct (total_invert a3 s8) as (a4 & s9 & E7 & ->).
  exists (mirror a0), s3, b1, s4, (mirror b1), s5, a2, s6, b3, s7, a3, s8,
    (mirror a3), s9.
  repeat split; try done.
  rewrite (bind_Ret _ _ _ _ _ E1), (bind_Ret _ _ _ _ _ E2),
    (bind_Ret _ _ _ _ _ E3), (bind_Ret _ _ _ _ _ E4), (bind_Ret _ _ _ _ _ E5),
    (bind_Ret _ _ _ _ _ E6), (bind_Ret _ _ _ _ _ E7).
  reflexivity.
Qed.

(** ** Operations that leave earlier objects alone *)

Lemma same_below_refl n s : same_below n s s.
Proof. by intros a Ha. Qed.

Lemma same_below_trans n s1 s2 s3 :
  same_below n s1 s2 -> same_below n s2 s3 -> same_below n s1 s3.
Proof.
  intros H12 H23 a Ha. destruct (H12 a Ha) as (? & ? & ?).
  destruct (H23 a Ha) as (? & ? & ?). repeat split; congruence.
Qed.

Lemma same_below_le n m s s' :
  (n <= m)%positive -> same_below m s s' -> same_below n s s'.
Proof. intros Hle Hs a Ha. apply Hs. lia. Qed.

Lemma grows_refl s : grows s s.
Proof. split; [lia | apply same_below_refl]. Qed.

Lemma grows_trans s1 s2 s3 : grows s1 s2 -> grows s2 s3 -> grows s1 s3.
Proof.
  intros [Hn12 H12] [Hn23 H23]. split; [lia|].
  eapply same_below_trans; [done|]. by eapply same_below_le.
Qed.

Lemma well_formed_closed s : well_formed s -> closed_above (next s) s.
Proof.
  intros Hwf. split; [lia|]. intros r vs Hr Hvs.
  destruct (Hwf r Hr) as (_ & Hnone & _). congruence.
Qed.

Section Frame.

Context (n : positive).

Local Abbreviation fsound := (sound (closed_above n) (same_below n)).
Local Abbreviation fr a := (n <= a)%positive.

Lemma fs_ret {A} (Q : A -> Prop) a : Q a -> fsound Q (ret a).
Proof. apply sound_ret, same_below_refl. Qed.

Lemma fs_throw {A} (Q : A -> Prop) e : fsound Q (throw e).
Proof. apply sound_throw, same_below_refl. Qed.

Lemma fs_bind {A B} (Q1 : A -> Prop) (Q2 : B -> Prop) m (k : A -> M Store B) :
  fsound Q1 m -> (forall a, Q1 a -> fsound Q2 (k a)) -> fsound Q2 (bind m k).
Proof. apply sound_bind, same_below_trans. Qed.

Lemma fs_foldM {A B} (I : B -> Prop) (P : A -> Prop)
    (f : B -> A -> M Store B) l b :
  (forall b a, I b -> P a -> fsound I (f b a)) ->
  Forall P l -> I b -> fsound I (foldM f b l).
Proof. apply sound_foldM; [apply same_below_refl | apply same_below_trans]. Qed.

Lemma fs_mapM {A B} (Q : B -> Prop) (P : A -> Prop) (f : A -> M Store B) l :
  (forall a, P a -> fsound Q (f a)) ->
  Forall P l -> fsound (Forall Q) (mapM f l).
Proof. apply sound_mapM; [apply same_below_refl | apply same_below_trans]. Qed.

Lemma fs_forM_ {A} (P : A -> Prop) (f : A -> M Store unit) l :
  (forall a, P a -> fsound (fun _ => True) (f a)) ->
  Forall P l -> fsound (fun _ => True) (forM_ l f).
Proof. apply sound_forM_; [apply same_below_refl | apply same_below_trans]. Qed.

Lemma fs_get_vertex a : fsound (fun _ => True) (get_vertex a).
Proof. intros s Hs. split; [exact Hs|]. split; [apply same_below_refl|done]. Qed.

Lemma fs_get_plane a : fsound (fun _ => True) (get_plane a).
Proof. intros s Hs. split; [exact Hs|]. split; [apply same_below_refl|done]. Qed.

Lemma fs_get_ring_any a : fsound (fun _ => True) (get_ring a).
Proof. intros s Hs. split; [exact Hs|]. split; [apply same_below_refl|done]. Qed.

Lemma fs_get_ring a :
  fr a -> fsound (Forall (fun v => fr v)) (get_ring a).
Proof.
  intros Ha s Hs. split; [exact Hs|]. split; [apply same_below_refl|].
  simpl. unfold ring_at.
  destruct (ring_of s !! a) as [vs|] eqn:E; simpl; [|done].
  by apply (proj2 Hs a).
Qed.

Lemma fs_new_vertex v : fsound (fun a => fr a) (new_vertex v).
Proof.
  intros s [Hn Hc]. split; [split; simpl; [lia | done]|].
  split; [|simpl; lia]. intros a Ha. simpl.
  rewrite lookup_insert_ne; [done | lia].
Qed.

Lemma fs_new_plane p : fsound (fun a => fr a) (new_plane p).
Proof.
  intros s [Hn Hc]. split; [split; simpl; [lia | done]|].
  split; [|simpl; lia]. intros a Ha. simpl.
  rewrite lookup_insert_ne; [done | lia].
Qed.

Lemma fs_new_ring vs :
  Forall (fun v => fr v) vs -> fsound (fun a => fr a) (new_ring vs).
Proof.
  intros Hvs s [Hn Hc]. split; [split; simpl; [lia|]|].
  - intros r vs' Hr. rewrite lookup_insert. case_decide.
    + by intros [= <-].
    + by apply Hc.
  - split; [|simpl; lia]. intros a Ha. simpl.
    rewrite lookup_insert_ne; [done | lia].
Qed.

Lemma fs_modify_vertex f a : fr a -> fsound (fun _ => True) (modify_vertex f a).
Proof.
  intros Ha s [Hn Hc]. split; [by split|].
  split; [|done]. intros a' Ha'. simpl.
  rewrite lookup_alter_ne; [done | lia].
Qed.

Lemma fs_modify_plane f a : fr a -> fsound (fun _ => True) (modify_plane f a).
Proof.
  intros Ha s [Hn Hc]. split; [by split|].
  split; [|done]. intros a' Ha'. simpl.
  rewrite lookup_alter_ne; [done | lia].
Qed.

Lemma fs_modify_ring_rev a : fr a -> fsound (fun _ => True) (modify_ring (@rev positive) a).
Proof.
  intros Ha s [Hn Hc]. split; [split; simpl; [done|]|].
  - intros r vs Hr. rewrite lookup_alter. case_decide.
    + subst. destruct (ring_of s !! r) as [vs0|] eqn:E; simpl; [|done].
      intros [= <-]. apply Forall_rev. by apply (Hc r).
    + by apply Hc.
  - split; [|done]. intros a' Ha'. simpl.
    rewrite lookup_alter_ne; [done | lia].
Qed.

Create HintDb fs discriminated.
Hint Resolve fs_get_vertex fs_get_plane fs_get_ring fs_new_vertex
  fs_new_plane fs_new_ring fs_modify_vertex fs_modify_plane
  fs_modify_ring_rev : fs.

Ltac fs_go :=
  repeat first
    [ apply fs_ret; try done
    | apply fs_throw
    | eapply fs_bind; [ solve [eauto with fs] | intros ? ? ]
    | match goal with
      | |- sound _ _ _ (match ?x with _ => _ end) => destruct x
      end ].

Lemma fs_Vertex_new pos nrm uv0 : fsound (fun a => fr a) (Vertex_new pos nrm uv0).
Proof. unfold Vertex_new. eauto with fs. Qed.
Hint Resolve fs_Vertex_new : fs.

Lemma fs_Vertex_clone a : fsound (fun a => fr a) (Vertex_clone a).
Proof. unfold Vertex_clone. fs_go. eauto with fs. Qed.
Hint Resolve fs_Vertex_clone : fs.

Lemma fs_interpolateVertex a1 a2 t :
  fsound (fun a => fr a) (interpolateVertex a1 a2 t).
Proof. unfold interpolateVertex. fs_go. eauto with fs. Qed.
Hint Resolve fs_interpolateVertex : fs.

Lemma fs_calculatePlane r : fsound (fun _ => True) (calculatePlane r).
Proof.
  unfold calculatePlane. eapply fs_bind; [apply fs_get_ring_any|].
  intros vs _. fs_go.
Qed.
Hint Resolve fs_calculatePlane : fs.

Lemma fs_Polygon_new r : fr r -> fsound (fresh_polygon n) (Polygon_new r).
Proof. intros Hr. unfold Polygon_new. fs_go. Qed.
Hint Resolve fs_Polygon_new : fs.

Lemma fs_Polygon_clone p : fsound (fresh_polygon n) (Polygon_clone p).
Proof.
  unfold Polygon_clone. eapply fs_bind; [apply fs_get_ring_any|].
  intros vs _.
  eapply fs_bind; [apply fs_mapM with (P := fun _ => True) |].
  { intros a _. apply fs_Vertex_clone. }
  { by apply Forall_true. }
  intros vs' Hvs'. fs_go.
Qed.
Hint Resolve fs_Polygon_clone : fs.

Lemma fs_Polygon_flip p : fresh_polygon n p -> fsound (fun _ => True) (Polygon_flip p).
Proof.
  intros [Hr Hp]. unfold Polygon_flip. fs_go.
  eapply fs_bind; [apply fs_forM_ with (P := fun v => fr v); eauto with fs|].
  intros ? ?. eauto with fs.
Qed.
Hint Resolve fs_Polygon_flip : fs.

Lemma fs_split_edge pl f b vi ti vj tj :
  Forall (fun v => fr v) f -> Forall (fun v => fr v) b -> fr vi ->
  fsound (fun fb => Forall (fun v => fr v) fb.1 /\ Forall (fun v => fr v) fb.2)
         (split_edge pl (f, b) ((vi, ti), (vj, tj))).
Proof.
  intros Hf Hb Hvi. unfold split_edge.
  assert (Hf' : Forall (fun v => fr v) (if (ti =? BACK)%N then f else f ++ [vi])).
  { case_match; [done|]. apply Forall_app. by repeat constructor. }
  eapply fs_bind with (Q1 := Forall (fun v => fr v)).
  { repeat case_match; fs_go; apply Forall_app; by repeat constructor. }
  intros b' Hb'. case_match; fs_go.
  all: simpl in *; split; try done; apply Forall_app; by repeat constructor.
Qed.

Lemma env_fresh_push slot p env :
  fresh_polygon n p -> env_fresh n env -> env_fresh n (push slot p env).
Proof.
  intros Hp Henv. apply Forall_alter; [done|].
  intros l _ Hl. apply Forall_app. split; [done | by constructor].
Qed.

Lemma env_fresh_lookup env k : env_fresh n env -> Forall (fresh_polygon n) (env !!! k).
Proof.
  intros Henv. rewrite list_lookup_total_alt.
  destruct (env !! k) as [l|] eqn:E; simpl; [|done].
  by eapply Forall_lookup_1.
Qed.

Lemma fs_emit slot ring env :
  Forall (fun v => fr v) ring -> env_fresh n env ->
  fsound (env_fresh n) (emit slot ring env).
Proof.
  intros Hring Henv. unfold emit. case_match; fs_go.
  by apply env_fresh_push.
Qed.

Lemma fs_splitPolygon a p cf cb f b env :
  fresh_polygon n p -> env_fresh n env ->
  fsound (env_fresh n) (splitPolygon a p cf cb f b env).
Proof.
  intros Hp Henv. unfold splitPolygon.
  eapply fs_bind; [apply fs_get_plane|]. intros pl _.
  eapply fs_bind; [apply fs_get_ring, Hp|]. intros vs Hvs.
  eapply fs_bind; [apply fs_mapM with (P := fun _ => True) (Q := fun _ => True)|].
  { intros v _. fs_go. }
  { by apply Forall_true. }
  intros types _.
  repeat case_match; fs_go; try by apply env_fresh_push.
  eapply fs_bind.
  { apply fs_foldM with
      (I := fun fb => Forall (fun v => fr v) fb.1 /\ Forall (fun v => fr v) fb.2)
      (P := fun e : (positive * N) * (positive * N) => fr e.1.1).
    - intros [f' b'] [[vi ti] [vj tj]] [Hf' Hb'] Hvi. by apply fs_split_edge.
    - apply Forall_forall. intros [[vi ti] [vj tj]] Hin. simpl.
      apply elem_of_zip_l, elem_of_zip_l in Hin.
      by eapply Forall_forall in Hvs.
    - by split. }
  intros [f' b'] [Hf' Hb']. simpl in *.
  eapply fs_bind; [by apply fs_emit|]. intros env1 Henv1.
  by apply fs_emit.
Qed.

Lemma fs_split_loop a cf cb f b polys env :
  Forall (fresh_polygon n) polys -> env_fresh n env ->
  fsound (env_fresh n)
    (foldM (fun env poly => splitPolygon a poly cf cb f b env) env polys).
Proof.
  intros Hps Henv.
  apply fs_foldM with (P := fresh_polygon n); [|done..].
  intros env' p He Hp. by apply fs_splitPolygon.
Qed.

Lemma fs_clipPolygons t polys :
  Forall (fresh_polygon n) polys ->
  fsound (Forall (fresh_polygon n)) (clipPolygons t polys).
Proof.
  revert polys. induction t as [|pl fr IHf bk IHb own]; intros polys Hps; simpl.
  - by apply fs_ret.
  - destruct pl as [a|]; [|by apply fs_ret].
    eapply fs_bind; [apply fs_split_loop; [done|by repeat constructor]|].
    intros env Henv.
    eapply fs_bind; [apply IHf, env_fresh_lookup, Henv|]. intros front Hfront.
    eapply fs_bind; [apply IHb, env_fresh_lookup, Henv|]. intros back Hback.
    apply fs_ret. by apply Forall_app.
Qed.

Lemma fs_clipTo t bsp : fresh_tree n t -> fsound (fresh_tree n) (clipTo t bsp).
Proof.
  induction t as [|pl fr IHf bk IHb own]; intros Ht; simpl.
  - by apply fs_ret.
  - destruct Ht as (Hpl & Hfr & Hbk & Hown).
    eapply fs_bind; [by apply fs_clipPolygons|]. intros own' Hown'.
    eapply fs_bind; [by apply IHf|]. intros fr' Hfr'.
    eapply fs_bind; [by apply IHb|]. intros bk' Hbk'.
    by apply fs_ret.
Qed.

Lemma fs_invert t : fresh_tree n t -> fsound (fresh_tree n) (invert t).
Proof.
  induction t as [|pl fr IHf bk IHb own]; intros Ht; simpl.
  - by apply fs_ret.
  - destruct Ht as (Hpl & Hfr & Hbk & Hown).
    eapply fs_bind;
      [apply fs_forM_ with (P := fresh_polygon n); eauto with fs|].
    intros ? ?.
    eapply fs_bind with (Q1 := fun _ => True).
    { destruct pl; [eauto with fs | by apply fs_ret]. }
    intros ? ?.
    eapply fs_bind; [by apply IHf|]. intros fr' Hfr'.
    eapply fs_bind; [by apply IHb|]. intros bk' Hbk'.
    by apply fs_ret.
Qed.

Lemma fresh_tree_or_new t : fresh_tree n t -> fresh_tree n (or_new t).
Proof. destruct t; [|done]. intros _. simpl. by repeat split. Qed.

Lemma fs_build_fuel fuel t polys :
  fresh_tree n t -> Forall (fresh_polygon n) polys ->
  fsound (fresh_tree n) (build_fuel fuel t polys).
Proof.
  revert t polys. induction fuel as [|fuel IH]; intros t polys Ht Hps.
  - destruct t as [|pl fr bk own]; simpl; [apply fs_throw|].
    case_match; [by apply fs_ret | apply fs_throw].
  - destruct t as [|pl fr bk own]; simpl; [apply fs_throw|].
    case_match; [by apply fs_ret|].
    destruct polys as [|p0 polys']; [apply fs_throw|].
    destruct Ht as (Hpl & Hfr & Hbk & Hown).
    eapply fs_bind;
      [apply fs_split_loop; [done | by repeat constructor]|].
    intros env Henv.
    eapply fs_bind with (Q1 := fresh_tree n).
    { repeat match goal with
             | |- sound _ _ _ (if ?c then _ else _) => destruct c
             end;
        try (apply fs_ret; by try apply fresh_tree_or_new).
      apply IH; [by apply fresh_tree_or_new | by apply env_fresh_lookup]. }
    intros fr' Hfr'.
    eapply fs_bind with (Q1 := fresh_tree n).
    { repeat match goal with
             | |- sound _ _ _ (if ?c then _ else _) => destruct c
             end;
        try (apply fs_ret; by try apply fresh_tree_or_new).
      apply IH; [by apply fresh_tree_or_new | by apply env_fresh_lookup]. }
    intros bk' Hbk'. apply fs_ret. simpl. repeat split; try done.
    + destruct pl; [done|]. inversion Hps as [|? ? [? ?]]; by subst.
    + by apply env_fresh_lookup.
Qed.

Lemma fs_CSG_clone c :
  fsound (fun c' => Forall (fresh_polygon n) (polygons c')) (CSG_clone c).
Proof.
  unfold CSG_clone.
  eapply fs_bind; [apply fs_mapM with (P := fun _ => True)|].
  { intros p _. apply fs_Polygon_clone. }
  { by apply Forall_true. }
  intros ps Hps. by apply fs_ret.
Qed.

Lemma fs_tree_of c : fsound (fresh_tree n) (tree_of c).
Proof.
  unfold tree_of. eapply fs_bind; [apply fs_CSG_clone|]. intros c' Hc'.
  simpl. apply fs_build_fuel; [by repeat split | done].
Qed.

Lemma fresh_tree_allPolygons t :
  fresh_tree n t -> Forall (fresh_polygon n) (allPolygons t).
Proof.
  induction t as [|pl fr IHf bk IHb own]; simpl; [done|].
  intros (Hpl & Hfr & Hbk & Hown). rewrite !Forall_app. auto.
Qed.

Hint Resolve fs_clipTo fs_invert fs_tree_of fresh_tree_allPolygons : fs.

Lemma fs_build t polys :
  fresh_tree n t -> Forall (fresh_polygon n) polys ->
  fsound (fresh_tree n) (build t polys).
Proof. apply fs_build_fuel. Qed.
Hint Resolve fs_build : fs.

Lemma fs_union a b : fsound (fun _ => True) (union a b).
Proof. unfold union. fs_go. Qed.

Lemma fs_subtract a b : fsound (fun _ => True) (subtract a b).
Proof. unfold subtract. fs_go. Qed.

Lemma fs_intersect a b : fsound (fun _ => True) (intersect a b).
Proof. unfold intersect. fs_go. Qed.

Lemma fs_inverse a : fsound (fun _ => True) (inverse a).
Proof.
  unfold inverse. eapply fs_bind; [apply fs_CSG_clone|]. intros c Hc.
  eapply fs_bind;
    [apply fs_forM_ with (P := fresh_polygon n); eauto with fs|].
  intros ? ?. by apply fs_ret.
Qed.

End Frame.

(** ** Operations that only allocate *)

Section Alloc.

Local Abbreviation asound := (sound well_formed grows).

Lemma well_formed_empty : well_formed empty_store.
Proof. intros a _. unfold empty_store. simpl. by rewrite !lookup_empty. Qed.

Lemma as_ret {A} (Q : A -> Prop) a : Q a -> asound Q (ret a).
Proof. apply sound_ret, grows_refl. Qed.

Lemma as_throw {A} (Q : A -> Prop) e : asound Q (throw e).
Proof. apply sound_throw, grows_refl. Qed.

Lemma as_bind {A B} (Q1 : A -> Prop) (Q2 : B -> Prop) m (k : A -> M Store B) :
  asound Q1 m -> (forall a, Q1 a -> asound Q2 (k a)) -> asound Q2 (bind m k).
Proof. apply sound_bind, grows_trans. Qed.

Lemma as_foldM {A B} (I : B -> Prop) (f : B -> A -> M Store B) l b :
  (forall b a, I b -> asound I (f b a)) -> I b -> asound I (foldM f b l).
Proof.
  intros Hf Hb.
  apply sound_foldM with (P := fun _ => True);
    [apply grows_refl | apply grows_trans | auto | by apply Forall_true | done].
Qed.

Lemma as_mapM {A B} (Q : B -> Prop) (f : A -> M Store B) l :
  (forall a, asound Q (f a)) -> asound (Forall Q) (mapM f l).
Proof.
  intros Hf.
  apply sound_mapM with (P := fun _ => True);
    [apply grows_refl | apply grows_trans | auto | by apply Forall_true].
Qed.

Lemma as_get_vertex a : asound (fun _ => True) (get_vertex a).
Proof. intros s Hs. split; [exact Hs|]. split; [apply grows_refl|done]. Qed.

Lemma as_get_plane a : asound (fun _ => True) (get_plane a).
Proof. intros s Hs. split; [exact Hs|]. split; [apply grows_refl|done]. Qed.

Lemma as_get_ring a : asound (fun _ => True) (get_ring a).
Proof. intros s Hs. split; [exact Hs|]. split; [apply grows_refl|done]. Qed.

Ltac as_new :=
  intros s Hs; split; [|split; [split|done]]; simpl;
  [ intros a Ha; simpl in *; destruct (Hs a ltac:(lia)) as (? & ? & ?);
    rewrite ?lookup_insert_ne by lia; done
  | lia
  | intros a Ha; simpl; rewrite ?lookup_insert_ne by lia; done ].

Lemma as_new_vertex v : asound (fun _ => True) (new_vertex v).
Proof. as_new. Qed.

Lemma as_new_ring vs : asound (fun _ => True) (new_ring vs).
Proof. as_new. Qed.

Lemma as_new_plane p : asound (fun _ => True) (new_plane p).
Proof. as_new. Qed.

Create HintDb alloc discriminated.
Hint Resolve as_get_vertex as_get_plane as_get_ring as_new_vertex as_new_ring
  as_new_plane : alloc.

Ltac as_go :=
  repeat first
    [ apply as_ret; try done
    | apply as_throw
    | eapply as_bind; [ solve [eauto with alloc] | intros ? ? ]
    | match goal with
      | |- sound _ _ _ (match ?x with _ => _ end) => destruct x
      end ].

Lemma as_Vertex_new pos nrm uv0 : asound (fun _ => True) (Vertex_new pos nrm uv0).
Proof. unfold Vertex_new. eauto with alloc. Qed.
Hint Resolve as_Vertex_new : alloc.

Lemma as_Vertex_clone a : asound (fun _ => True) (Vertex_clone a).
Proof. unfold Vertex_clone. as_go; eauto with alloc. Qed.
Hint Resolve as_Vertex_clone : alloc.

Lemma as_interpolateVertex a1 a2 t :
  asound (fun _ => True) (interpolateVertex a1 a2 t).
Proof. unfold interpolateVertex. as_go; eauto with alloc. Qed.
Hint Resolve as_interpolateVertex : alloc.

Lemma as_calculatePlane r : asound (fun _ => True) (calculatePlane r).
Proof. unfold calculatePlane. as_go. Qed.
Hint Resolve as_calculatePlane : alloc.

Lemma as_Polygon_new r : asound (fun _ => True) (Polygon_new r).
Proof. unfold Polygon_new. as_go. Qed.
Hint Resolve as_Polygon_new : alloc.

Lemma as_Polygon_clone p : asound (fun _ => True) (Polygon_clone p).
Proof.
  unfold Polygon_clone. as_go.
  eapply as_bind; [apply as_mapM, as_Vertex_clone|]. intros ? ?. as_go; eauto with alloc.
Qed.
Hint Resolve as_Polygon_clone : alloc.

Lemma as_split_edge pl fb e : asound (fun _ => True) (split_edge pl fb e).
Proof.
  unfold split_edge. destruct e as [[vi ti] [vj tj]], fb as [f b].
  eapply as_bind with (Q1 := fun _ => True).
  - repeat case_match; as_go.
  - intros b' _. case_match; as_go.
Qed.
Hint Resolve as_split_edge : alloc.

Lemma as_emit slot ring env : asound (fun _ => True) (emit slot ring env).
Proof. unfold emit. case_match; as_go. Qed.
Hint Resolve as_emit : alloc.

Lemma as_splitPolygon a p cf cb f b env :
  asound (fun _ => True) (splitPolygon a p cf cb f b env).
Proof.
  unfold splitPolygon. as_go.
  eapply as_bind; [apply as_mapM with (Q := fun _ => True)|].
  { intros v. as_go. }
  intros types _. repeat case_match; as_go.
  eapply as_bind; [apply as_foldM with (I := fun _ => True)|];
    [eauto with alloc | done |].
  intros [fr bk] _. as_go; eauto with alloc.
Qed.
Hint Resolve as_splitPolygon : alloc.

Lemma as_split_loop a cf cb f b polys env :
  asound (fun _ => True)
    (foldM (fun env poly => splitPolygon a poly cf cb f b env) env polys).
Proof. apply as_foldM; [|done]. intros. apply as_splitPolygon. Qed.
Hint Resolve as_split_loop : alloc.

Lemma as_clipPolygons t polys : asound (fun _ => True) (clipPolygons t polys).
Proof.
  revert polys. induction t as [|pl fr IHf bk IHb own]; intros polys; simpl.
  - by apply as_ret.
  - destruct pl as [a|]; [|by apply as_ret].
    eapply as_bind; [apply as_split_loop|]. intros env _.
    eapply as_bind; [apply IHf|]. intros front _.
    eapply as_bind; [apply IHb|]. intros back _.
    by apply as_ret.
Qed.
Hint Resolve as_clipPolygons : alloc.

Lemma as_clipTo t bsp : asound (fun _ => True) (clipTo t bsp).
Proof.
  induction t as [|pl fr IHf bk IHb own]; simpl.
  - by apply as_ret.
  - eapply as_bind; [apply as_clipPolygons|]. intros own' _.
    eapply as_bind; [apply IHf|]. intros fr' _.
    eapply as_bind; [apply IHb|]. intros bk' _.
    by apply as_ret.
Qed.
Hint Resolve as_clipTo : alloc.

Lemma as_build_fuel fuel t polys : asound (fun _ => True) (build_fuel fuel t polys).
Proof.
  revert t polys. induction fuel as [|fuel IH]; intros t polys.
  - destruct t as [|pl fr bk own]; simpl; [apply as_throw|].
    case_match; [by apply as_ret | apply as_throw].
  - destruct t as [|pl fr bk own]; simpl; [apply as_throw|].
    case_match; [by apply as_ret|].
    destruct polys as [|p0 polys']; [apply as_throw|].
    eapply as_bind; [apply as_split_loop|]. intros env _.
    eapply as_bind with (Q1 := fun _ => True).
    { repeat case_match; try by apply as_ret. apply IH. }
    intros fr' _.
    eapply as_bind with (Q1 := fun _ => True).
    { repeat case_match; try by apply as_ret. apply IH. }
    intros bk' _. by apply as_ret.
Qed.

Lemma as_build t polys : asound (fun _ => True) (build t polys).
Proof. apply as_build_fuel. Qed.
Hint Resolve as_build : alloc.

Lemma as_CSG_clone c : asound (fun _ => True) (CSG_clone c).
Proof.
  unfold CSG_clone. eapply as_bind; [apply as_mapM, as_Polygon_clone|].
  intros ? ?. by apply as_ret.
Qed.
Hint Resolve as_CSG_clone : alloc.

Lemma as_tree_of c : asound (fun _ => True) (tree_of c).
Proof. unfold tree_of. as_go. simpl. apply as_build. Qed.

Lemma as_polygon_of pts : asound (fun _ => True) (polygon_of pts).
Proof.
  unfold polygon_of.
  eapply as_bind; [apply as_mapM with (Q := fun _ => True)|].
  { intros p. apply as_Vertex_new. }
  intros ? ?. as_go; eauto with alloc.
Qed.

Lemma as_csg_of rings : asound (fun _ => True) (csg_of rings).
Proof.
  unfold csg_of. eapply as_bind; [apply as_mapM, as_polygon_of|].
  intros ? ?. by apply as_ret.
Qed.

Lemma csg_of_well_formed rings s : well_formed s -> well_formed (csg_of rings s).2.
Proof. intros Hs. exact (proj1 (as_csg_of rings s Hs)). Qed.

End Alloc.

(** ** The operands of a CSG operation *)

Lemma same_below_values n s s' p :
  same_below n s s' ->
  (vertices p < n)%positive -> (plane p < n)%positive ->
  Forall (fun v => (v < n)%positive) (ring_at s (vertices p)) ->
  ring_values s' p = ring_values s p /\ polygon_plane s' p = polygon_plane s p.
Proof.
  intros Hsame Hr Hp Hvs. unfold ring_values, polygon_plane, plane_at, ring_at.
  destruct (Hsame _ Hr) as (_ & Hring & _). rewrite Hring.
  destruct (Hsame _ Hp) as (_ & _ & Hpl).
  split; [|by rewrite !lookup_total_alt, Hpl].
  apply map_ext_Forall. eapply Forall_impl; [exact Hvs|]. intros v Hv. simpl in Hv.
  unfold vertex_at. destruct (Hsame _ Hv) as (Hvv & _ & _).
  by rewrite !lookup_total_alt, Hvv.
Qed.

(** C4: union, subtract, intersect and inverse leave every object that
    existed before the call as it was, whether they return or throw.  In
    particular each polygon of either operand keeps its ring (the same
    vertices in the same order, with their positions, normals and uvs) and
    its plane, so the operands can be used again. *)
Theorem operations_leave_operands (this csg : CSG) (s s' : Store) :
  well_formed s ->
  s' = (union this csg s).2 \/ s' = (subtract this csg s).2 \/
  s' = (intersect this csg s).2 \/ s' = (inverse this s).2 ->
  same_below (next s) s s' /\
  forall p, p ∈ polygons this \/ p ∈ polygons csg -> allocated s p ->
    ring_values s' p = ring_values s p /\ polygon_plane s' p = polygon_plane s p.
Proof.
  intros Hwf Hs'. apply well_formed_closed in Hwf.
  assert (Hsame : same_below (next s) s s').
  { destruct Hs' as [-> | [-> | [-> | ->]]].
    - apply (fs_union (next s) this csg s Hwf).
    - apply (fs_subtract (next s) this csg s Hwf).
    - apply (fs_intersect (next s) this csg s Hwf).
    - apply (fs_inverse (next s) this s Hwf). }
  split; [done|]. intros p _ (Hr & Hp & Hvs).
  by apply (same_below_values (next s)).
Qed.

(** ** Errors *)

Lemma mapM_length {St A B} (f : A -> M St B) l s bs s' :
  mapM f l s = (Ret bs, s') -> length bs = length l.
Proof.
  revert s bs. induction l as [|a l IH]; intros s bs; simpl.
  - by intros [= <- <-].
  - intros Hrun. apply bind_returns in Hrun as (b & s1 & _ & Hrun).
    apply bind_returns in Hrun as (bs' & s2 & Hl & Hrun).
    injection Hrun as <- <-. simpl. f_equal. by eapply IH.
Qed.

Lemma grows_proper s s' p : grows s s' -> proper s p -> proper s' p.
Proof.
  intros [Hn Hsame] [Hr Hlen]. split; [lia|]. unfold ring_at in *.
  by destruct (Hsame _ Hr) as (_ & -> & _).
Qed.

Lemma Polygon_clone_returns s p :
  3 <= length (ring_at s (vertices p)) -> returns (Polygon_clone p) s.
Proof.
  intros Hlen. unfold Polygon_clone, returns.
  unfold bind at 1. unfold get_ring at 1.
  destruct (total_mapM (fun _ => True) Vertex_clone (ring_at s (vertices p))
              total_Vertex_clone s) as (vs' & s1 & Hm & _).
  rewrite (bind_Ret _ _ _ _ _ Hm). apply mapM_length in Hm.
  unfold bind at 1.
  destruct (Polygon_new_returns (new_ring vs' s1).2 (next s1)) as [pl Hp].
  { rewrite ring_at_new_ring. lia. }
  simpl in *. rewrite Hp. eauto.
Qed.

Lemma CSG_clone_returns s c :
  well_formed s -> Forall (proper s) (polygons c) -> returns (CSG_clone c) s.
Proof.
  unfold CSG_clone, returns. generalize (polygons c) as ps. clear c.
  intros ps Hwf Hps.
  enough (exists ps' s', mapM Polygon_clone ps s = (Ret ps', s')) as
    (ps' & s' & Hm) by (rewrite (bind_Ret _ _ _ _ _ Hm); simpl; eauto).
  revert s Hwf Hps. induction ps as [|p ps IH]; intros s Hwf Hps; simpl.
  - eauto.
  - inversion Hps as [|? ? Hp Hps']; subst.
    destruct (Polygon_clone_returns s p (proj2 Hp)) as (p' & s1 & Hc).
    rewrite (bind_Ret _ _ _ _ _ Hc).
    destruct (as_Polygon_clone p s Hwf) as (Hwf1 & Hg & _).
    rewrite Hc in Hwf1, Hg. simpl in Hwf1, Hg.
    destruct (IH s1 Hwf1) as (ps' & s2 & Hm).
    { eapply Forall_impl; [exact Hps'|]. intros q. by apply grows_proper. }
    rewrite (bind_Ret _ _ _ _ _ Hm). simpl. eauto.
Qed.

Lemma tree_of_returns s c :
  well_formed s -> Forall (proper s) (polygons c) ->
  exists a s', tree_of c s = (Ret a, s') /\ is_node a.
Proof.
  intros Hwf Hps. destruct (CSG_clone_returns s c Hwf Hps) as (c' & s1 & Hc).
  unfold tree_of. rewrite (bind_Ret _ _ _ _ _ Hc). simpl.
  destruct (total_build empty_node (polygons c') I s1) as (a & s2 & Ha & Hn).
  eauto.
Qed.

Lemma total_returns {A} (Q : A -> Prop) (m : M Store A) s :
  total Q m -> returns m s.
Proof. intros Hm. destruct (Hm s) as (a & s' & Hr & _). by exists a, s'. Qed.

(** After both trees are built, no step of union, subtract or intersect
    throws. *)
Lemma total_union_steps a b :
  is_node a ->
  total (fun _ => True)
    (do a <- clipTo a b; do b <- clipTo b a; do b <- invert b;
     do b <- clipTo b a; do b <- invert b;
     do a <- build a (allPolygons b); ret (mkCSG (allPolygons a))).
Proof.
  intros Ha.
  eapply total_bind; [apply total_clipTo|]. intros a1 Ha1.
  eapply total_bind; [apply total_clipTo|]. intros b1 _.
  eapply total_bind; [apply total_invert|]. intros b2 _.
  eapply total_bind; [apply total_clipTo|]. intros b3 _.
  eapply total_bind; [apply total_invert|]. intros b4 _.
  eapply total_bind; [apply total_build; by eapply same_shape_is_node|].
  intros a2 _. by apply total_ret.
Qed.

Lemma total_subtract_steps a b :
  is_node a ->
  total (fun _ => True)
    (do a <- invert a; do a <- clipTo a b; do b <- clipTo b a;
     do b <- invert b; do b <- clipTo b a; do b <- invert b;
     do a <- build a (allPolygons b); do a <- invert a;
     ret (mkCSG (allPolygons a))).
Proof.
  intros Ha.
  eapply total_bind; [apply total_invert|]. intros a1 ->.
  eapply total_bind; [apply total_clipTo|]. intros a2 Ha2.
  eapply total_bind; [apply total_clipTo|]. intros b1 _.
  eapply total_bind; [apply total_invert|]. intros b2 _.
  eapply total_bind; [apply total_clipTo|]. intros b3 _.
  eapply total_bind; [apply total_invert|]. intros b4 _.
  eapply total_bind.
  { apply total_build. eapply same_shape_is_node; [done|].
    by apply mirror_is_node. }
  intros a3 _. eapply total_bind; [apply total_invert|]. intros a4 _.
  by apply total_ret.
Qed.

Lemma total_intersect_steps a b :
  is_node a ->
  total (fun _ => True)
    (do a <- invert a; do b <- clipTo b a; do b <- invert b;
     do a <- clipTo a b; do b <- clipTo b a;
     do a <- build a (allPolygons b); do a <- invert a;
     ret (mkCSG (allPolygons a))).
Proof.
  intros Ha.
  eapply total_bind; [apply total_invert|]. intros a1 ->.
  eapply total_bind; [apply total_clipTo|]. intros b1 _.
  eapply total_bind; [apply total_invert|]. intros b2 _.
  eapply total_bind; [apply total_clipTo|]. intros a2 Ha2.
  eapply total_bind; [apply total_clipTo|]. intros b3 _.
  eapply total_bind.
  { apply total_build. eapply same_shape_is_node; [done|].
    by apply mirror_is_node. }
  intros a3 _. eapply total_bind; [apply total_invert|]. intros a4 _.
  by apply total_ret.
Qed.

Lemma binary_returns (this csg : CSG) (s : Store)
    (steps : BSPNode -> BSPNode -> M Store CSG) :
  well_formed s ->
  Forall (proper s) (polygons this) -> Forall (proper s) (polygons csg) ->
  (forall a b, is_node a -> total (fun _ => True) (steps a b)) ->
  returns (do a <- tree_of this; do b <- tree_of csg; steps a b) s.
Proof.
  intros Hwf Hthis Hcsg Hsteps.
  destruct (tree_of_returns s this Hwf Hthis) as (a & s1 & Ha & Hna).
  destruct (as_tree_of this s Hwf) as (Hwf1 & Hg & _).
  rewrite Ha in Hwf1, Hg. simpl in Hwf1, Hg.
  destruct (tree_of_returns s1 csg Hwf1) as (b & s2 & Hb & Hnb).
  { eapply Forall_impl; [exact Hcsg|]. intros q. by apply grows_proper. }
  unfold returns. rewrite (bind_Ret _ _ _ _ _ Ha), (bind_Ret _ _ _ _ _ Hb).
  destruct (Hsteps a b Hna s2) as (c & s3 & Hc & _). eauto.
Qed.

Lemma inverse_returns (this : CSG) (s : Store) :
  well_formed s -> Forall (proper s) (polygons this) -> returns (inverse this) s.
Proof.
  intros Hwf Hthis. destruct (CSG_clone_returns s this Hwf Hthis) as (c & s1 & Hc).
  unfold inverse, returns. rewrite (bind_Ret _ _ _ _ _ Hc).
  destruct (total_forM_ Polygon_flip (polygons c) total_Polygon_flip s1)
    as ([] & s2 & Hf & _).
  rewrite (bind_Ret _ _ _ _ _ Hf). simpl. eauto.
Qed.

(** One iteration of the inner loop of fromGeometry appends one vertex to
    the array [faceVertices]. *)
Lemma face_vertex_appends points normals uvs face fv i idx s l :
  (fv < next s)%positive -> ring_of s !! fv = Some l ->
  idx < length points -> (is_Some uvs -> is_Some (face_uvs face)) ->
  exists v s',
    face_vertex points normals uvs face fv i idx s = (Ret tt, s') /\
    (fv < next s')%positive /\ ring_of s' !! fv = Some (l ++ [v]).
Proof.
  intros Hfv Hl Hidx Huv. unfold face_vertex.
  destruct (lookup_lt_is_Some_2 points idx Hidx) as [pos Hpos]. rewrite Hpos.
  assert (exists uv0,
    (match uvs with
     | Some us =>
         match face_uvs face with
         | Some fu => ret (match fu !! i with
                           | Some k => us !! k
                           | None => None
                           end)
         | None => throw TypeError
         end
     | None => ret None
     end : M Store (option (R * R))) s = (Ret uv0, s)) as [uv0 Huv0].
  { destruct uvs as [us|]; [|by eexists].
    destruct Huv as [fu ->]; [done|]. by eexists. }
  rewrite (bind_Ret _ _ _ _ _ Huv0).
  unfold bind, Vertex_new, new_vertex, modify_ring. simpl.
  eexists _, _. split; [reflexivity|]. simpl. split; [lia|].
  by rewrite lookup_alter_eq, Hl.
Qed.

Lemma face_loop_appends points normals uvs face fv idxs i s l :
  (fv < next s)%positive -> ring_of s !! fv = Some l ->
  Forall (fun k => k < length points) idxs ->
  (is_Some uvs -> is_Some (face_uvs face)) ->
  exists l' s',
    forM_i i idxs (face_vertex points normals uvs face fv) s = (Ret tt, s') /\
    (fv < next s')%positive /\ ring_of s' !! fv = Some (l ++ l') /\
    length l' = length idxs.
Proof.
  intros Hfv Hl Hidxs Huv. revert i s l Hfv Hl.
  induction Hidxs as [|idx idxs Hidx Hidxs IH]; intros i s l Hfv Hl; simpl.
  - exists [], s. by rewrite app_nil_r.
  - destruct (face_vertex_appends points normals uvs face fv i idx s l)
      as (v & s1 & Hv & Hfv1 & Hl1); [done..|].
    rewrite (bind_Ret _ _ _ _ _ Hv).
    destruct (IH (S i) s1 (l ++ [v]) Hfv1 Hl1) as (l' & s2 & Hrun & ? & Hl2 & ?).
    exists (v :: l'), s2. rewrite Hrun. repeat split; [done| |simpl; lia].
    by rewrite Hl2, <- app_assoc.
Qed.

Lemma fromGeometry_returns points faces normals uvs s :
  Forall (face_ok points uvs) faces ->
  returns (fromGeometry points faces normals uvs) s.
Proof.
  intros Hfaces. unfold fromGeometry, returns.
  unfold bind at 1. simpl.
  set (fv := next s).
  set (s1 := mkStore _ _ _ _).
  assert (Hfv : (fv < next s1)%positive) by (subst fv s1; simpl; lia).
  assert (Hl : ring_of s1 !! fv = Some []).
  { subst fv s1. simpl. by rewrite lookup_insert_eq. }
  enough (forall ps0 s1 l, (fv < next s1)%positive -> ring_of s1 !! fv = Some l ->
    exists ps s2,
      foldM (fun ps face =>
               forM_i 0 (face_vertices face)
                 (face_vertex points normals uvs face fv) >>
               do p <- Polygon_new fv;
               ret (ps ++ [p])) ps0 faces s1 = (Ret ps, s2)) as Hloop.
  { destruct (Hloop [] s1 [] Hfv Hl) as (ps & s2 & Hrun).
    rewrite (bind_Ret _ _ _ _ _ Hrun). simpl. eauto. }
  clear s1 Hfv Hl.
  induction Hfaces as [|face faces (Hlen & Hidxs & Huv) Hfaces IH];
    intros ps0 s1 l Hfv Hl; simpl.
  - eauto.
  - destruct (face_loop_appends points normals uvs face fv
                (face_vertices face) 0 s1 l Hfv Hl Hidxs Huv)
      as (l' & s2 & Hrun & Hfv2 & Hl2 & Hlen').
    unfold bind at 1. rewrite (bind_Ret _ _ _ _ _ Hrun).
    destruct (Polygon_new_returns s2 fv) as [pl Hp].
    { unfold ring_at. rewrite Hl2. simpl. rewrite length_app. lia. }
    rewrite (bind_Ret _ _ _ _ _ Hp). simpl.
    apply (IH _ _ (l ++ l')); simpl; [lia | done].
Qed.

(** C8 (amended): on input whose polygons have at least three vertices,
    whatever their geometry (not planar, of zero area, self-intersecting),
    nothing raises an error: the Polygon constructor, union, subtract,
    intersect and inverse return, fromGeometry returns on faces with at
    least three valid vertex indices, and a split result with fewer than
    three vertices is dropped without an error.  A vertex array with fewer
    than three vertices makes the Polygon constructor throw a TypeError. *)
Theorem no_error_from_three_vertices (this csg : CSG) (s : Store) :
  well_formed s ->
  Forall (proper s) (polygons this) -> Forall (proper s) (polygons csg) ->
  returns (union this csg) s /\ returns (subtract this csg) s /\
  returns (intersect this csg) s /\ returns (inverse this) s /\
  (forall points faces normals uvs,
     Forall (face_ok points uvs) faces ->
     returns (fromGeometry points faces normals uvs) s) /\
  (forall ring,
     (3 <= length (ring_at s ring) -> returns (Polygon_new ring) s) /\
     (length (ring_at s ring) < 3 ->
      Polygon_new ring s = (Throw TypeError, s))) /\
  (forall slot ring env,
     length ring < 3 -> emit slot ring env s = (Ret env, s)).
Proof.
  intros Hwf Hthis Hcsg.
  split; [apply binary_returns; auto using total_union_steps|].
  split; [apply binary_returns; auto using total_subtract_steps|].
  split; [apply binary_returns; auto using total_intersect_steps|].
  split; [by apply inverse_returns|].
  split; [intros; by apply fromGeometry_returns|].
  split.
  - intros ring. split; [|apply Polygon_new_throws].
    intros Hlen. destruct (Polygon_new_returns s ring Hlen) as [pl Hp].
    unfold returns. eauto.
  - intros slot ring env Hlen. unfold emit.
    apply Nat.leb_gt in Hlen. by rewrite Hlen.
Qed.

(** ** The writes of flip and invert *)

Lemma apply_writes_cons w ws s :
  apply_writes (w :: ws) s = apply_writes ws (apply_write w s).
Proof. done. Qed.

Lemma apply_writes_app ws ws' s :
  apply_writes (ws ++ ws') s = apply_writes ws' (apply_writes ws s).
Proof. apply foldl_app. Qed.

Lemma apply_write_comm w1 w2 s :
  apply_write w1 (apply_write w2 s) = apply_write w2 (apply_write w1 s).
Proof.
  destruct w1 as [a|a|a], w2 as [b|b|b]; simpl; try done;
    (destruct (decide (a = b)) as [->|Hne]; [done|]);
    by rewrite alter_alter_ne.
Qed.

Lemma apply_write_writes_comm w ws s :
  apply_write w (apply_writes ws s) = apply_writes ws (apply_write w s).
Proof.
  revert s. induction ws as [|w' ws IH]; intros s; [done|].
  by rewrite !apply_writes_cons, IH, apply_write_comm.
Qed.

Lemma apply_writes_perm ws ws' s :
  ws ≡ₚ ws' -> apply_writes ws s = apply_writes ws' s.
Proof.
  intros Hp. revert s. induction Hp as [|w ws ws' _ IH|w1 w2 ws|? ? ? _ IH1 _ IH2];
    intros s.
  - done.
  - by rewrite !apply_writes_cons, IH.
  - by rewrite !apply_writes_cons, apply_write_comm.
  - by rewrite IH1, IH2.
Qed.

Lemma next_apply_writes ws s : next (apply_writes ws s) = next s.
Proof.
  revert s. induction ws as [|w ws IH]; intros s; [done|].
  rewrite apply_writes_cons, IH. by destruct w.
Qed.

Section Involution.

Context (Hneg : negation_involutive).

Lemma negate_normal_involutive v : negate_normal (negate_normal v) = v.
Proof using Hneg.
  destruct v as [pos [x y z] uv0]. unfold negate_normal, vmul. simpl.
  by rewrite !(proj1 Hneg).
Qed.

Lemma negate_plane_involutive pl : negate_plane (negate_plane pl) = pl.
Proof using Hneg.
  destruct pl as [[x y z] w]. unfold negate_plane, vmul. simpl.
  by rewrite !(proj1 Hneg), (proj2 Hneg).
Qed.

Lemma apply_write_twice w s : apply_write w (apply_write w s) = s.
Proof using Hneg.
  destruct s as [vs rs ps nx]. destruct w as [a|a|a]; simpl; f_equal;
    rewrite alter_alter_eq; apply alter_id; intros x _; simpl.
  - apply rev_involutive.
  - apply negate_normal_involutive.
  - apply negate_plane_involutive.
Qed.

Lemma apply_writes_twice ws ws' s :
  ws ≡ₚ ws' -> apply_writes ws' (apply_writes ws s) = s.
Proof using Hneg.
  intros Hp. rewrite <- (apply_writes_perm ws ws') by done. clear ws' Hp.
  revert s. induction ws as [|w ws IH]; intros s; [done|].
  rewrite !apply_writes_cons, apply_write_writes_comm, IH.
  apply apply_write_twice.
Qed.

End Involution.

Lemma rings_perm_refl s : rings_perm s s.
Proof. by intros r. Qed.

Lemma rings_perm_trans s1 s2 s3 :
  rings_perm s1 s2 -> rings_perm s2 s3 -> rings_perm s1 s3.
Proof. intros H12 H23 r. etrans; [apply H12 | apply H23]. Qed.

Lemma ring_at_apply_write w s r :
  ring_at (apply_write w s) r
  = if decide (w = WRev r) then rev (ring_at s r) else ring_at s r.
Proof.
  unfold ring_at. destruct w as [a|a|a]; simpl.
  - rewrite lookup_alter. destruct (decide (a = r)) as [->|Hne].
    + rewrite decide_True by done. by destruct (ring_of s !! r).
    + rewrite decide_False by congruence. done.
  - done.
  - done.
Qed.

Lemma rings_perm_apply_write w s : rings_perm s (apply_write w s).
Proof.
  intros r. rewrite ring_at_apply_write. case_decide; [|done].
  apply Permutation_rev.
Qed.

Lemma rings_perm_apply_writes ws s : rings_perm s (apply_writes ws s).
Proof.
  revert s. induction ws as [|w ws IH]; intros s; [apply rings_perm_refl|].
  rewrite apply_writes_cons. eapply rings_perm_trans; [|apply IH].
  apply rings_perm_apply_write.
Qed.

Lemma flip_writes_perm s s' p :
  rings_perm s s' -> flip_writes s p ≡ₚ flip_writes s' p.
Proof.
  intros Hp. unfold flip_writes. f_equiv. f_equiv.
  by rewrite <- !Permutation_rev, (Hp (vertices p)).
Qed.

Lemma negations_run vs s :
  forM_ vs (modify_vertex negate_normal) s
  = (Ret tt, apply_writes (WNormal <$> vs) s).
Proof.
  revert s. induction vs as [|v vs IH]; intros s; [done|].
  simpl. unfold bind at 1. simpl. by rewrite IH.
Qed.

(** What flip does to the store, as a list of writes. *)
Lemma flip_run p s :
  Polygon_flip p s = (Ret tt, apply_writes (flip_writes s p) s).
Proof.
  unfold Polygon_flip, flip_writes. unfold bind at 1. simpl.
  change (mkStore (vertex_of s) (alter (@rev positive) (vertices p) (ring_of s))
            (plane_of s) (next s)) with (apply_write (WRev (vertices p)) s).
  unfold bind at 1, get_ring at 1.
  rewrite ring_at_apply_write, decide_True by done.
  unfold bind. rewrite negations_run.
  by rewrite apply_writes_app.
Qed.

Lemma flips_run own s0 s :
  rings_perm s0 s ->
  exists ws, ws ≡ₚ own ≫= flip_writes s0 /\
    forM_ own Polygon_flip s = (Ret tt, apply_writes ws s).
Proof.
  revert s. induction own as [|p own IH]; intros s Hp.
  - by exists [].
  - destruct (IH (apply_writes (flip_writes s p) s)) as (ws & Hws & Hrun).
    { eapply rings_perm_trans; [done | apply rings_perm_apply_writes]. }
    exists (flip_writes s p ++ ws). split.
    + rewrite bind_cons. f_equiv; [|done]. symmetry. by apply flip_writes_perm.
    + simpl. unfold bind. by rewrite flip_run, Hrun, apply_writes_app.
Qed.

(** What invert does to the store, as a list of writes; the tree comes back
    mirrored. *)
Lemma invert_run t s0 s :
  rings_perm s0 s ->
  exists ws, ws ≡ₚ invert_writes s0 t /\
    invert t s = (Ret (mirror t), apply_writes ws s).
Proof.
  revert s. induction t as [|pl fr IHf bk IHb own]; intros s Hp.
  - by exists [].
  - destruct (flips_run own s0 s Hp) as (w1 & Hw1 & Hrun1).
    set (w2 := match pl with Some a => [WPlane a] | None => [] end).
    destruct (IHf (apply_writes (w1 ++ w2) s)) as (w3 & Hw3 & Hrun3).
    { eapply rings_perm_trans; [done | apply rings_perm_apply_writes]. }
    destruct (IHb (apply_writes ((w1 ++ w2) ++ w3) s)) as (w4 & Hw4 & Hrun4).
    { eapply rings_perm_trans; [done | apply rings_perm_apply_writes]. }
    exists (((w1 ++ w2) ++ w3) ++ w4). split.
    + rewrite <- !app_assoc. subst w2. simpl. by rewrite Hw1, Hw3, Hw4.
    + simpl. unfold bind at 1. rewrite Hrun1.
      unfold bind at 1.
      assert (Hpl : (match pl with
                     | Some a => modify_plane negate_plane a
                     | None => ret tt
                     end) (apply_writes w1 s)
                    = (Ret tt, apply_writes (w1 ++ w2) s)).
      { rewrite apply_writes_app. subst w2. by destruct pl. }
      rewrite Hpl. unfold bind at 1. rewrite Hrun3.
      unfold bind. rewrite <- apply_writes_app, Hrun4.
      by rewrite <- apply_writes_app.
Qed.

Lemma mirror_mirror t : mirror (mirror t) = t.
Proof. induction t; simpl; congruence. Qed.

Lemma invert_writes_mirror s t : invert_writes s (mirror t) ≡ₚ invert_writes s t.
Proof.
  induction t as [|pl fr IHf bk IHb own]; simpl; [done|].
  rewrite IHf, IHb. do 2 f_equiv. apply Permutation_app_comm.
Qed.

Lemma allPolygons_mirror t : allPolygons (mirror t) ≡ₚ allPolygons t.
Proof.
  induction t as [|pl fr IHf bk IHb own]; simpl; [done|].
  rewrite IHf, IHb. f_equiv. apply Permutation_app_comm.
Qed.

(** invert returns the mirrored tree, and inverting that tree in the store
    invert left restores both the tree and the store. *)
Lemma invert_invert t s :
  negation_involutive ->
  exists s', invert t s = (Ret (mirror t), s') /\
             invert (mirror t) s' = (Ret t, s).
Proof.
  intros Hneg.
  destruct (invert_run t s s (rings_perm_refl s)) as (w1 & Hw1 & Hrun1).
  exists (apply_writes w1 s). split; [done|].
  destruct (invert_run (mirror t) s (apply_writes w1 s)) as (w2 & Hw2 & Hrun2).
  { apply rings_perm_apply_writes. }
  rewrite Hrun2, mirror_mirror. f_equal.
  apply apply_writes_twice; [done|].
  by rewrite Hw1, Hw2, invert_writes_mirror.
Qed.

Lemma flip_flip p s :
  negation_involutive ->
  exists s', Polygon_flip p s = (Ret tt, s') /\ Polygon_flip p s' = (Ret tt, s).
Proof.
  intros Hneg. exists (apply_writes (flip_writes s p) s).
  split; [apply flip_run|]. rewrite flip_run. f_equal.
  apply apply_writes_twice; [done|].
  apply flip_writes_perm, rings_perm_apply_writes.
Qed.

(** ** Intersection with the empty CSG *)

Lemma clipPolygons_nil t s : clipPolygons t [] s = (Ret [], s).
Proof.
  revert s. induction t as [|pl fr IHf bk IHb own]; intros s; [done|].
  destruct pl as [a|]; [|done]. simpl.
  unfold bind. simpl. change ([[]; []] !!! 0) with (@nil Polygon).
  rewrite IHf. change ([[]; []] !!! 1) with (@nil Polygon). by rewrite IHb.
Qed.

Lemma clipTo_empty_node t s : clipTo empty_node t s = (Ret empty_node, s).
Proof. simpl. unfold bind. by rewrite clipPolygons_nil. Qed.

Lemma clipTo_leaf t s : clipTo t empty_node s = (Ret t, s).
Proof.
  revert s. induction t as [|pl fr IHf bk IHb own]; intros s; [done|].
  simpl. unfold bind. simpl. by rewrite IHf, IHb.
Qed.

Lemma build_nil t s : is_node t -> build t [] s = (Ret t, s).
Proof. by destruct t. Qed.

Lemma tree_of_empty csg s : polygons csg = [] -> tree_of csg s = (Ret empty_node, s).
Proof. intros Hnil. unfold tree_of, CSG_clone. rewrite Hnil. done. Qed.

(** C9 (amended): intersecting with a CSG whose polygon list is empty
    returns what flattening the tree built from the clones of A's polygons
    returns, in the store that building left.  The tree built from the
    empty polygon list is a leaf without a plane, clipping any polygon list
    through such a leaf gives the list back, and the two inversions of A's
    tree cancel, so the empty operand removes nothing from that tree. *)
Theorem intersect_with_empty (this csg : CSG) (s : Store) :
  negation_involutive -> polygons csg = [] ->
  (forall s0, tree_of csg s0 = (Ret empty_node, s0)) /\
  (forall ps s0, clipPolygons empty_node ps s0 = (Ret ps, s0)) /\
  intersect this csg s
  = (do a <- tree_of this; ret (fromPolygons (allPolygons a))) s.
Proof.
  intros Hneg Hnil.
  split; [intros s0; by apply tree_of_empty|]. split; [done|].
  unfold intersect.
  destruct (tree_of this s) as [[a|e] s1] eqn:Ea;
    [|by rewrite !(bind_Throw _ _ _ _ _ Ea)].
  rewrite !(bind_Ret _ _ _ _ _ Ea).
  assert (Ha := total_tree_node _ _ _ _ Ea).
  rewrite (bind_Ret _ _ _ _ _ (tree_of_empty csg s1 Hnil)).
  destruct (invert_invert a s1 Hneg) as (s2 & Hi1 & Hi2).
  rewrite (bind_Ret _ _ _ _ _ Hi1).
  rewrite (bind_Ret _ _ _ _ _ (clipTo_empty_node _ s2)).
  assert (Hie : invert empty_node s2 = (Ret empty_node, s2)) by done.
  rewrite (bind_Ret _ _ _ _ _ Hie).
  rewrite (bind_Ret _ _ _ _ _ (clipTo_leaf _ s2)).
  rewrite (bind_Ret _ _ _ _ _ (clipTo_empty_node _ s2)).
  rewrite (bind_Ret _ _ _ _ _ (build_nil _ s2 (mirror_is_node _ Ha))).
  by rewrite (bind_Ret _ _ _ _ _ Hi2).
Qed.

(** ** Splitting a polygon *)

Lemma classify_cases pl v :
  classify pl v = BACK \/ classify pl v = FRONT \/ classify pl v = COPLANAR.
Proof. unfold classify. repeat case_match; auto. Qed.

Lemma aggregate_code_from x y types :
  Forall (fun t => t = BACK \/ t = FRONT \/ t = COPLANAR) types ->
  fold_left N.lor types (type_code x y)
  = type_code (x || has FRONT types) (y || has BACK types).
Proof.
  intros Htypes. revert x y.
  induction Htypes as [|t types Ht _ IH]; intros x y; simpl.
  - by rewrite !orb_false_r.
  - destruct Ht as [-> | [-> | ->]].
    + replace (N.lor (type_code x y) BACK) with (type_code x true)
        by (by destruct x, y).
      rewrite IH. simpl. by rewrite orb_true_r.
    + replace (N.lor (type_code x y) FRONT) with (type_code true y)
        by (by destruct x, y).
      rewrite IH. simpl. by rewrite orb_true_r.
    + replace (N.lor (type_code x y) COPLANAR) with (type_code x y)
        by (by destruct x, y).
      rewrite IH. done.
Qed.

(** The bitwise OR of the vertex types tells whether some vertex is in
    front and whether some vertex is behind. *)
Lemma aggregate_code pl (vs : list Vertex) :
  aggregate (classify pl <$> vs)
  = type_code (has FRONT (classify pl <$> vs)) (has BACK (classify pl <$> vs)).
Proof.
  unfold aggregate. change 0%N with (type_code false false).
  rewrite aggregate_code_from; [done|].
  apply Forall_fmap, Forall_true. intros v. apply classify_cases.
Qed.

Lemma crossing_test pl vi vj :
  (N.lor (classify pl vi) (classify pl vj) =? SPANNING)%N = crosses pl vi vj.
Proof.
  unfold crosses.
  destruct (classify_cases pl vi) as [-> | [-> | ->]],
           (classify_cases pl vj) as [-> | [-> | ->]]; done.
Qed.

Lemma classify_loop pl l s :
  mapM (fun a => do v <- get_vertex a; ret (classify pl v)) l s
  = (Ret ((fun a => classify pl (vertex_at s a)) <$> l), s).
Proof.
  induction l as [|a l IH]; [done|].
  simpl. unfold bind at 1. simpl. unfold bind at 1. by rewrite IH.
Qed.

Lemma vertex_at_grows s s' a :
  grows s s' -> (a < next s)%positive -> vertex_at s' a = vertex_at s a.
Proof.
  intros [_ Hsame] Ha. unfold vertex_at.
  destruct (Hsame a Ha) as (Hv & _ & _). by rewrite !lookup_total_alt, Hv.
Qed.

Lemma holds_grows s s' l vals : grows s s' -> holds s l vals -> holds s' l vals.
Proof.
  intros Hg [Hvals Hl]. split.
  - rewrite <- Hvals. apply map_ext_Forall.
    eapply Forall_impl; [exact Hl|]. intros a Ha. by apply vertex_at_grows.
  - eapply Forall_impl; [exact Hl|]. intros a Ha. simpl in *.
    destruct Hg as [Hn _]. lia.
Qed.

Lemma holds_snoc s l vals a :
  holds s l vals -> (a < next s)%positive ->
  holds s (l ++ [a]) (vals ++ [vertex_at s a]).
Proof.
  intros [Hvals Hl] Ha. split.
  - by rewrite map_app, Hvals.
  - apply Forall_app. by repeat constructor.
Qed.

Lemma holds_length s l vals : holds s l vals -> length l = length vals.
Proof. intros [<- _]. by rewrite length_map. Qed.

(** Allocating a vertex object. *)
Lemma new_vertex_run x s :
  exists s', new_vertex x s = (Ret (next s), s') /\ grows s s' /\
    (next s < next s')%positive /\ vertex_at s' (next s) = x.
Proof.
  eexists. split; [reflexivity|]. split; [split|split]; simpl.
  - lia.
  - intros a Ha. simpl. rewrite lookup_insert_ne; [done | lia].
  - lia.
  - unfold vertex_at. simpl. by rewrite lookup_total_insert_eq.
Qed.

Lemma Vertex_clone_run a s :
  exists s', Vertex_clone a s = (Ret (next s), s') /\ grows s s' /\
    (next s < next s')%positive /\ vertex_at s' (next s) = vertex_at s a.
Proof.
  unfold Vertex_clone, Vertex_new, bind, get_vertex. simpl.
  destruct (new_vertex_run (vertex_at s a) s) as (s' & Hrun & Hg & Hn & Hv).
  exists s'. split; [|done].
  rewrite <- Hrun. by destruct (vertex_at s a).
Qed.

Lemma interpolateVertex_run a1 a2 t s :
  exists s', interpolateVertex a1 a2 t s = (Ret (next s), s') /\ grows s s' /\
    (next s < next s')%positive /\
    vertex_at s' (next s) = lerp (vertex_at s a1) (vertex_at s a2) t.
Proof.
  unfold interpolateVertex, Vertex_new, bind, get_vertex. simpl.
  apply new_vertex_run.
Qed.

Lemma rotate1_fmap {A B} (h : A -> B) (l : list A) :
  rotate1 (h <$> l) = h <$> rotate1 l.
Proof. destruct l as [|x l]; [done|]. simpl. by rewrite fmap_app. Qed.

Lemma edges_of_fmap {A B} (h : A -> B) (l : list A) :
  edges_of (h <$> l) = prod_map h h <$> edges_of l.
Proof. unfold edges_of. by rewrite rotate1_fmap, prod_map_zip. Qed.

Lemma zip_with_image {A B} (g : A -> B) (l : list A) :
  zip l (g <$> l) = (fun a => (a, g a)) <$> l.
Proof. induction l as [|a l IH]; [done|]. simpl. f_equal. exact IH. Qed.

Lemma elem_of_rotate1 {A} (x : A) (l : list A) : x ∈ rotate1 l -> x ∈ l.
Proof.
  destruct l as [|y l]; [done|]. simpl.
  rewrite elem_of_app, elem_of_cons, elem_of_cons, elem_of_nil. tauto.
Qed.

Lemma Forall_edges_of {A} (P : A -> Prop) (l : list A) :
  Forall P l -> Forall (fun e => P e.1 /\ P e.2) (edges_of l).
Proof.
  intros Hl. apply Forall_forall. intros [x y] Hin. simpl.
  rewrite Forall_forall in Hl. split.
  - apply Hl. by eapply elem_of_zip_l.
  - apply Hl. eapply elem_of_rotate1. by eapply elem_of_zip_r.
Qed.

Lemma bind_get_vertex {A} a (k : Vertex -> M Store A) s :
  bind (get_vertex a) k s = k (vertex_at s a) s.
Proof. done. Qed.

(** One iteration of the loop of the SPANNING case, on vertex values. *)
Lemma split_edge_run pl s f b Fv Bv ai aj :
  holds s f Fv -> holds s b Bv ->
  (ai < next s)%positive -> (aj < next s)%positive ->
  exists f' b' s',
    split_edge pl (f, b)
      ((ai, classify pl (vertex_at s ai)), (aj, classify pl (vertex_at s aj))) s
    = (Ret (f', b'), s') /\
    grows s s' /\
    holds s' f' (Fv ++ front_part pl (vertex_at s ai, vertex_at s aj)) /\
    holds s' b' (Bv ++ back_part pl (vertex_at s ai, vertex_at s aj)).
Proof.
  intros Hf Hb Hai Haj. unfold split_edge, front_part, back_part. simpl.
  set (vi := vertex_at s ai). set (vj := vertex_at s aj).
  set (ti := classify pl vi). set (tj := classify pl vj).
  assert (Hf1 : holds s (if (ti =? BACK)%N then f else f ++ [ai])
                        (Fv ++ (if (ti =? BACK)%N then [] else [vi]))).
  { destruct (ti =? BACK)%N; [by rewrite app_nil_r | by apply holds_snoc]. }
  assert (exists b1 s1,
    (if (ti =? FRONT)%N then ret b
     else if (ti =? BACK)%N then ret (b ++ [ai])
          else do c <- Vertex_clone ai; ret (b ++ [c])) s = (Ret b1, s1) /\
    grows s s1 /\
    holds s1 b1 (Bv ++ (if (ti =? FRONT)%N then [] else [vi])))
    as (b1 & s1 & Hrun1 & Hg1 & Hb1).
  { destruct (ti =? FRONT)%N.
    { exists b, s. rewrite app_nil_r. auto using grows_refl. }
    destruct (ti =? BACK)%N.
    { exists (b ++ [ai]), s. split; [done|]. split; [apply grows_refl|].
      by apply holds_snoc. }
    destruct (Vertex_clone_run ai s) as (s1 & Hc & Hg & Hn & Hv).
    exists (b ++ [next s]), s1. rewrite (bind_Ret _ _ _ _ _ Hc).
    split; [done|]. split; [done|]. fold vi in Hv. rewrite <- Hv.
    apply holds_snoc; [by eapply holds_grows | done]. }
  rewrite (bind_Ret _ _ _ _ _ Hrun1).
  replace (N.lor ti tj =? SPANNING)%N with (crosses pl vi vj)
    by (symmetry; apply crossing_test).
  apply (holds_grows _ _ _ _ Hg1) in Hf1.
  destruct (crosses pl vi vj).
  2: { eexists _, _, _. rewrite !app_nil_r. split; [reflexivity|]. auto. }
  rewrite !bind_get_vertex.
  rewrite (vertex_at_grows s s1 ai Hg1 Hai), (vertex_at_grows s s1 aj Hg1 Haj).
  fold vi vj. fold (crossing_parameter pl vi vj).
  set (t := crossing_parameter pl vi vj).
  destruct (interpolateVertex_run ai aj t s1) as (s2 & Hi & Hg2 & Hn2 & Hv2).
  rewrite (vertex_at_grows s s1 ai Hg1 Hai), (vertex_at_grows s s1 aj Hg1 Haj)
    in Hv2. fold vi vj in Hv2.
  rewrite (bind_Ret _ _ _ _ _ Hi).
  destruct (Vertex_clone_run (next s1) s2) as (s3 & Hc & Hg3 & Hn3 & Hv3).
  rewrite (bind_Ret _ _ _ _ _ Hc). rewrite Hv2 in Hv3.
  exists ((if (ti =? BACK)%N then f else f ++ [ai]) ++ [next s1]),
    (b1 ++ [next s2]), s3.
  split; [done|]. split; [eauto using grows_trans|].
  rewrite !app_assoc. split.
  - rewrite <- Hv2. eapply holds_grows; [exact Hg3|].
    apply holds_snoc; [by eapply holds_grows | done].
  - rewrite <- Hv3. apply holds_snoc; [|done].
    eapply holds_grows; [exact Hg3|]. by eapply holds_grows.
Qed.

Lemma split_loop_run pl s0 AE :
  Forall (fun e : positive * positive =>
            (e.1 < next s0)%positive /\ (e.2 < next s0)%positive) AE ->
  forall s f b Fv Bv,
    grows s0 s -> holds s f Fv -> holds s b Bv ->
    exists f' b' s',
      foldM (split_edge pl) (f, b)
        (prod_map (fun a => (a, classify pl (vertex_at s0 a)))
                  (fun a => (a, classify pl (vertex_at s0 a))) <$> AE) s
      = (Ret (f', b'), s') /\
      grows s s' /\
      holds s' f'
        (Fv ++ ((prod_map (vertex_at s0) (vertex_at s0) <$> AE) ≫= front_part pl)) /\
      holds s' b'
        (Bv ++ ((prod_map (vertex_at s0) (vertex_at s0) <$> AE) ≫= back_part pl)).
Proof.
  induction 1 as [|[ai aj] AE [Hai Haj] _ IH]; intros s f b Fv Bv Hg Hf Hb.
  - exists f, b, s. rewrite !app_nil_r. auto using grows_refl.
  - simpl in Hai, Haj. rewrite !fmap_cons, !bind_cons. simpl.
    assert (Hai' : (ai < next s)%positive) by (destruct Hg; lia).
    assert (Haj' : (aj < next s)%positive) by (destruct Hg; lia).
    rewrite <- (vertex_at_grows s0 s ai Hg Hai), <- (vertex_at_grows s0 s aj Hg Haj).
    destruct (split_edge_run pl s f b Fv Bv ai aj Hf Hb Hai' Haj')
      as (f1 & b1 & s1 & Hrun & Hg1 & Hf1 & Hb1).
    rewrite (bind_Ret _ _ _ _ _ Hrun).
    destruct (IH s1 f1 b1 _ _ (grows_trans _ _ _ Hg Hg1) Hf1 Hb1)
      as (f' & b' & s' & Hrun' & Hg' & Hf' & Hb').
    exists f', b', s'. rewrite Hrun'. rewrite !app_assoc.
    eauto using grows_trans.
Qed.

(** [new Polygon(ring)] derives the plane from the first three vertices. *)
Lemma Polygon_new_run s r :
  3 <= length (ring_at s r) ->
  exists pl,
    plane_of_values (vertex_at s <$> ring_at s r) = Some pl /\
    Polygon_new r s =
      (Ret (mkPolygon r (next s)),
       mkStore (vertex_of s) (ring_of s) (<[next s := pl]> (plane_of s))
               (Pos.succ (next s))).
Proof.
  intros Hlen. unfold Polygon_new, calculatePlane, bind, get_ring at 1.
  destruct (ring_at s r) as [|a0 [|a1 [|a2 vs]]] eqn:E; simpl in Hlen; try lia.
  simpl. eauto.
Qed.

Lemma allocated_grows s s' q : grows s s' -> allocated s q -> allocated s' q.
Proof.
  intros [Hn Hsame] (Hr & Hp & Hvs). unfold allocated, ring_at in *.
  destruct (Hsame _ Hr) as (_ & Hring & _). rewrite Hring.
  split; [lia|]. split; [lia|].
  eapply Forall_impl; [exact Hvs|]. intros a Ha. simpl in *. lia.
Qed.

Lemma emitted_grows s s' ring qs :
  grows s s' -> emitted s ring qs -> emitted s' ring qs.
Proof.
  intros Hg. unfold emitted. destruct (3 <=? length ring); [|done].
  intros (q & -> & Hal & Hrv & Hpl). exists q. split; [done|].
  split; [by eapply allocated_grows|].
  destruct Hal as (Hr & Hp & Hvs).
  destruct (same_below_values (next s) s s' q (proj2 Hg) Hr Hp Hvs) as [-> ->].
  done.
Qed.

(** A ring of the SPANNING case becomes a polygon if it has at least three
    vertices, and is dropped otherwise. *)
Lemma emit_run slot l vals env s :
  holds s l vals ->
  exists qs s',
    emit slot l env s = (Ret (foldl (fun e q => push slot q e) env qs), s') /\
    grows s s' /\ emitted s' vals qs.
Proof.
  intros Hl. unfold emit, emitted. rewrite (holds_length _ _ _ Hl).
  destruct Hl as [Hvals Hlt].
  destruct (3 <=? length vals) eqn:E; [|exists [], s; auto using grows_refl].
  apply Nat.leb_le in E.
  destruct (Polygon_new_run (new_ring l s).2 (next s)) as (pl & Hpl & Hp).
  { rewrite ring_at_new_ring, <- Hvals, length_map in *. done. }
  rewrite ring_at_new_ring in Hpl.
  exists [mkPolygon (next s) (Pos.succ (next s))]. eexists.
  unfold bind at 1. simpl. unfold bind. simpl in Hp. rewrite Hp.
  split; [reflexivity|]. split; [split|]; simpl.
  - lia.
  - intros a Ha. simpl. rewrite !lookup_insert_ne by lia. done.
  - eexists. split; [reflexivity|].
    unfold allocated, ring_values, polygon_plane, ring_at, plane_at. simpl.
    rewrite lookup_insert_eq, lookup_total_insert_eq. simpl.
    split; [|split; [exact Hvals | by rewrite <- Hpl, <- Hvals]].
    split; [lia|]. split; [lia|].
    eapply Forall_impl; [exact Hlt|]. intros a Ha. simpl in *. lia.
Qed.

Lemma bind_get_plane {A} a (k : Plane -> M Store A) s :
  bind (get_plane a) k s = k (plane_at s a) s.
Proof. done. Qed.

Lemma bind_get_ring {A} a (k : list positive -> M Store A) s :
  bind (get_ring a) k s = k (ring_at s a) s.
Proof. done. Qed.

(** What one call of splitPolygon does, by the types of the vertices. *)
Lemma splitPolygon_run (this_plane : positive) (p : Polygon)
    (coplanarFront coplanarBack front back : nat) (env : list (list Polygon))
    (s : Store) :
  Forall (fun a => (a < next s)%positive) (ring_at s (vertices p)) ->
  let pl := plane_at s this_plane in
  let vs := ring_values s p in
  let types := classify pl <$> vs in
  aggregate types = type_code (has FRONT types) (has BACK types) /\
  exists env' s',
    splitPolygon this_plane p coplanarFront coplanarBack front back env s
    = (Ret env', s') /\
    grows s s' /\
    match has FRONT types, has BACK types with
    | false, false =>
        s' = s /\
        env' = push (if nlt n0 (vdot (pnormal pl) (pnormal (polygon_plane s p)))
                     then coplanarFront else coplanarBack) p env
    | true, false => s' = s /\ env' = push front p env
    | false, true => s' = s /\ env' = push back p env
    | true, true =>
        exists fs bs,
          emitted s' (front_ring pl vs) fs /\
          emitted s' (back_ring pl vs) bs /\
          env' = foldl (fun e q => push back q e)
                       (foldl (fun e q => push front q e) env fs) bs
    end.
Proof.
  intros Hvs pl vs types. split; [apply aggregate_code|].
  unfold splitPolygon. rewrite bind_get_plane, bind_get_ring. fold pl.
  rewrite (bind_Ret _ _ _ _ _ (classify_loop pl (ring_at s (vertices p)) s)).
  set (ring := ring_at s (vertices p)) in *.
  set (g := fun a => classify pl (vertex_at s a)).
  assert (Htypes : g <$> ring = types).
  { unfold types, vs, ring_values, g. fold ring.
    change (map (vertex_at s) ring) with (vertex_at s <$> ring).
    by rewrite <- list_fmap_compose. }
  replace (fold_left N.lor (g <$> ring) 0%N) with (aggregate types)
    by (by rewrite <- Htypes).
  assert (Hagg := aggregate_code pl vs). fold types in Hagg. rewrite Hagg.
  clear Hagg.
  set (h := fun a : positive => (a, classify pl (vertex_at s a))).
  replace (zip (zip ring (g <$> ring)) (rotate1 (zip ring (g <$> ring))))
    with (prod_map h h <$> edges_of ring).
  2: { unfold g. rewrite zip_with_image. symmetry.
       exact (edges_of_fmap h ring). }
  unfold h.
  destruct (has FRONT types), (has BACK types); simpl.
  - destruct (split_loop_run pl s (edges_of ring) (Forall_edges_of _ _ Hvs)
                s [] [] [] [] (grows_refl s))
      as (f' & b' & s1 & Hrun & Hg1 & Hf' & Hb'); [by split..|].
    rewrite (bind_Ret _ _ _ _ _ Hrun).
    rewrite !app_nil_l, <- edges_of_fmap in Hf', Hb'.
    change (vertex_at s <$> ring) with vs in Hf', Hb'.
    fold (front_ring pl vs) in Hf'. fold (back_ring pl vs) in Hb'.
    destruct (emit_run front f' _ env s1 Hf') as (fs & s2 & Hrun2 & Hg2 & He2).
    rewrite (bind_Ret _ _ _ _ _ Hrun2).
    destruct (emit_run back b' _ (foldl (fun e q => push front q e) env fs) s2
                (holds_grows _ _ _ _ Hg2 Hb'))
      as (bs & s3 & Hrun3 & Hg3 & He3).
    rewrite Hrun3. eexists _, _. split; [reflexivity|].
    split; [eauto using grows_trans|].
    exists fs, bs. eauto using emitted_grows.
  - eexists _, _. split; [reflexivity|]. auto using grows_refl.
  - eexists _, _. split; [reflexivity|]. auto using grows_refl.
  - rewrite bind_get_plane. eexists _, _. split; [reflexivity|].
    auto using grows_refl.
Qed.

(** *** The code against the contract *)

Lemma path_edges_zip {A} (l : list A) (c : A) :
  zip l (tail l ++ [c]) = path_edges l c.
Proof.
  induction l as [|a l IH]; [done|]. simpl.
  destruct l as [|b l']; [done|]. simpl. f_equal. exact IH.
Qed.

Lemma edges_of_path {A} (x : A) (l : list A) :
  edges_of (x :: l) = path_edges (x :: l) x.
Proof. unfold edges_of. simpl rotate1. by rewrite <- path_edges_zip. Qed.

(** The type the code computes for a vertex is the type of its side. *)
Lemma classify_side_of pl v : classify pl v = type_of_side (side_of pl v).
Proof.
  unfold classify, side_of, signed_distance.
  destruct (nlt _ (- EPSILON)); [done|]. by destruct (nlt EPSILON _).
Qed.

Lemma types_of_sides pl (vs : list Vertex) :
  classify pl <$> vs = type_of_side <$> (side_of pl <$> vs).
Proof.
  induction vs as [|v vs IH]; [done|]. simpl. f_equal; [|exact IH].
  apply classify_side_of.
Qed.

Lemma polygon_type_cases pl (vs : list Vertex) :
  polygon_type pl vs
  = match has FRONT (classify pl <$> vs), has BACK (classify pl <$> vs) with
    | false, false => AllCoplanar
    | true, false => PureFront
    | false, true => PureBack
    | true, true => Spanning
    end.
Proof.
  unfold polygon_type. rewrite <- types_of_sides.
  fold (aggregate (classify pl <$> vs)). rewrite aggregate_code.
  by destruct (has FRONT _), (has BACK _).
Qed.

Lemma crosses_opposite pl vi vj : crosses pl vi vj = opposite_sides pl vi vj.
Proof.
  unfold crosses, opposite_sides. rewrite !classify_side_of.
  by destruct (side_of pl vi), (side_of pl vj).
Qed.

(** The pairs of indices [i] and [(i + 1) % length] are the edges of the
    ring. *)
Lemma edges_of_ring_edges {A} (l : list A) : edges_of l = ring_edges l.
Proof. destruct l as [|x l]; [done|]. apply edges_of_path. Qed.

Lemma front_ring_sides pl (vs : list Vertex) :
  front_ring pl vs = front_side_ring pl vs.
Proof.
  unfold front_ring, front_side_ring. rewrite edges_of_ring_edges.
  induction (ring_edges vs) as [|e l IH]; [done|].
  rewrite !bind_cons, IH. f_equal.
  unfold front_part, crossing_vertex.
  rewrite classify_side_of, crosses_opposite. by destruct (side_of pl e.1).
Qed.

Lemma back_ring_sides pl (vs : list Vertex) :
  back_ring pl vs = back_side_ring pl vs.
Proof.
  unfold back_ring, back_side_ring. rewrite edges_of_ring_edges.
  induction (ring_edges vs) as [|e l IH]; [done|].
  rewrite !bind_cons, IH. f_equal.
  unfold back_part, crossing_vertex.
  rewrite classify_side_of, crosses_opposite. by destruct (side_of pl e.1).
Qed.

Lemma foldl_push slot (qs : list Polygon) env :
  foldl (fun e q => push slot q e) env qs = appended slot qs env.
Proof.
  revert env. induction qs as [|q qs IH]; intros env; simpl.
  - unfold appended. symmetry. apply list_alter_id. intros l. apply app_nil_r.
  - rewrite IH. unfold appended, push. rewrite list_alter_alter_eq.
    apply list_alter_ext; [|done]. intros l _. simpl. by rewrite <- app_assoc.
Qed.

(** C1: splitPolygon classifies each vertex by the signed value
    normal . position - w against the tolerance (below -EPSILON behind,
    above EPSILON in front, otherwise on the plane) and ORs the types into
    the type of the polygon.  An all-coplanar polygon goes whole to
    coplanarFront if the dot product of the plane's normal with its own
    plane's normal is positive and to coplanarBack otherwise; a pure front
    polygon goes whole to front, a pure back polygon whole to back.  A
    spanning polygon is split edge by edge: its front-side ring and its
    back-side ring, with a vertex interpolated at
    t = (w - normal . vi) / (normal . (vj - vi)) on every edge whose ends
    are on opposite sides, each become a new polygon, pushed to front or to
    back, only if they have at least three vertices.  In every case the
    store only grows: no object that existed is changed. *)
Theorem splitPolygon_spec (this_plane : positive) (p : Polygon)
    (coplanarFront coplanarBack front back : nat) (env : list (list Polygon))
    (s : Store) :
  Forall (fun a => (a < next s)%positive) (ring_at s (vertices p)) ->
  let pl := plane_at s this_plane in
  let vs := ring_values s p in
  exists env' s',
    splitPolygon this_plane p coplanarFront coplanarBack front back env s
    = (Ret env', s') /\
    grows s s' /\
    match polygon_type pl vs with
    | AllCoplanar =>
        s' = s /\
        env' = appended
                 (if nlt n0 (vdot (pnormal pl) (pnormal (polygon_plane s p)))
                  then coplanarFront else coplanarBack) [p] env
    | PureFront => s' = s /\ env' = appended front [p] env
    | PureBack => s' = s /\ env' = appended back [p] env
    | Spanning =>
        exists fs bs,
          emitted s' (front_side_ring pl vs) fs /\
          emitted s' (back_side_ring pl vs) bs /\
          env' = appended back bs (appended front fs env)
    end.
Proof.
  intros Hvs pl vs.
  destruct (splitPolygon_run this_plane p coplanarFront coplanarBack front back
              env s Hvs) as (_ & env' & s' & Hrun & Hg & Hcase).
  exists env', s'. split; [exact Hrun|]. split; [exact Hg|].
  rewrite polygon_type_cases. fold pl vs in Hcase.
  destruct (has FRONT _), (has BACK _).
  - destruct Hcase as (fs & bs & Hfs & Hbs & ->). exists fs, bs.
    rewrite <- front_ring_sides, <- back_ring_sides, !foldl_push. done.
  - exact Hcase.
  - exact Hcase.
  - exact Hcase.
Qed.

(** ** Clipping *)

Lemma ring_allocated_grows s s' p :
  grows s s' -> ring_allocated s p -> ring_allocated s' p.
Proof.
  intros [Hn Hsame] [Hr Hvs]. unfold ring_allocated, ring_at in *.
  destruct (Hsame _ Hr) as (_ & Hring & _). rewrite Hring.
  split; [lia|]. eapply Forall_impl; [exact Hvs|]. intros a Ha. simpl in *. lia.
Qed.

Lemma foldl_push_front (F B : list Polygon) qs :
  foldl (fun e q => push 0 q e) [F; B] qs = [F ++ qs; B].
Proof.
  revert F. induction qs as [|q qs IH]; intros F; simpl.
  - by rewrite app_nil_r.
  - change (push 0 q [F; B]) with [F ++ [q]; B].
    rewrite IH. by rewrite <- app_assoc.
Qed.

Lemma foldl_push_back (F B : list Polygon) qs :
  foldl (fun e q => push 1 q e) [F; B] qs = [F; B ++ qs].
Proof.
  revert B. induction qs as [|q qs IH]; intros B; simpl.
  - by rewrite app_nil_r.
  - change (push 1 q [F; B]) with [F; B ++ [q]].
    rewrite IH. by rewrite <- app_assoc.
Qed.

(** splitPolygon as clipPolygons calls it, with coplanarFront and front the
    one array and coplanarBack and back the other. *)
Lemma split_in_clip a p F B s :
  ring_allocated s p ->
  exists fs bs s',
    splitPolygon a p 0 1 0 1 [F; B] s = (Ret [F ++ fs; B ++ bs], s') /\
    routed a p s s' fs bs /\ grows s s'.
Proof.
  intros [_ Hvs].
  destruct (splitPolygon_run a p 0 1 0 1 [F; B] s Hvs)
    as (_ & env' & s' & Hrun & Hg & Hcase).
  unfold routed.
  destruct (has FRONT _), (has BACK _).
  - destruct Hcase as (fs & bs & Hfs & Hbs & ->).
    exists fs, bs, s'. rewrite foldl_push_front, foldl_push_back in Hrun. auto.
  - destruct Hcase as [-> ->]. exists [p], [], s.
    rewrite app_nil_r. auto.
  - destruct Hcase as [-> ->]. exists [], [p], s.
    rewrite app_nil_r. auto.
  - destruct Hcase as [-> ->].
    destruct (nlt n0 _).
    + exists [p], [], s. rewrite app_nil_r. auto.
    + exists [], [p], s. rewrite app_nil_r. auto.
Qed.

Lemma routed_sent a p s s' fs bs :
  routed a p s s' fs bs -> sent a p s s' fs bs.
Proof.
  unfold routed, sent. rewrite polygon_type_cases.
  destruct (has FRONT _), (has BACK _); try done.
  by rewrite front_ring_sides, back_ring_sides.
Qed.

Lemma emitted_allocated s ring qs :
  emitted s ring qs -> Forall (ring_allocated s) qs.
Proof.
  unfold emitted. destruct (3 <=? length ring); [|by intros ->].
  intros (q & -> & (Hr & _ & Hvs) & _). by repeat constructor.
Qed.

Lemma sent_allocated a p s s' fs bs :
  ring_allocated s p -> grows s s' -> sent a p s s' fs bs ->
  Forall (ring_allocated s') fs /\ Forall (ring_allocated s') bs.
Proof.
  intros Hp Hg. apply (ring_allocated_grows _ _ _ Hg) in Hp.
  unfold sent. destruct (polygon_type _ _).
  - intros [-> Hr]. destruct (nlt n0 _); destruct Hr as [-> ->].
    + split; [by apply Forall_singleton | constructor].
    + split; [constructor | by apply Forall_singleton].
  - intros (-> & -> & ->). split; [by apply Forall_singleton | constructor].
  - intros (-> & -> & ->). split; [constructor | by apply Forall_singleton].
  - intros [Hfs Hbs]. split; by eapply emitted_allocated.
Qed.

Lemma partition_by_run a ps :
  forall F B s,
    Forall (ring_allocated s) ps ->
    exists front back s1,
      foldM (fun env p => splitPolygon a p 0 1 0 1 env) [F; B] ps s
      = (Ret [F ++ front; B ++ back], s1) /\
      partition_by a ps s s1 front back /\ grows s s1 /\
      Forall (ring_allocated s1) front /\ Forall (ring_allocated s1) back.
Proof.
  induction ps as [|p ps IH]; intros F B s Hps.
  - exists [], [], s. rewrite !app_nil_r.
    split; [done|]. split; [constructor|]. split; [apply grows_refl|].
    split; constructor.
  - inversion Hps as [|? ? Hp Hps']; subst.
    destruct (split_in_clip a p F B s Hp) as (fs & bs & s1 & Hrun & Hr & Hg).
    apply routed_sent in Hr.
    destruct (sent_allocated _ _ _ _ _ _ Hp Hg Hr) as [Hfs Hbs].
    simpl. rewrite (bind_Ret _ _ _ _ _ Hrun).
    destruct (IH (F ++ fs) (B ++ bs) s1)
      as (front & back & s2 & Hrun2 & Hpart & Hg2 & Hfront & Hback).
    { eapply Forall_impl; [exact Hps'|]. intros q. by apply ring_allocated_grows. }
    exists (fs ++ front), (bs ++ back), s2. rewrite Hrun2, !app_assoc.
    split; [done|]. split; [by econstructor|].
    split; [by eapply grows_trans|].
    rewrite !Forall_app. split; (split; [|done]).
    + eapply Forall_impl; [exact Hfs|]. intros q. by apply ring_allocated_grows.
    + eapply Forall_impl; [exact Hbs|]. intros q. by apply ring_allocated_grows.
Qed.


(** ** Flipping separate polygons *)

Lemma occurrences_cons {A} `{EqDecision A} (x y : A) l :
  occurrences x (y :: l)
  = ((if decide (x = y) then 1 else 0) + occurrences x l)%nat.
Proof.
  unfold occurrences. rewrite filter_cons. by destruct (decide (x = y)).
Qed.

Lemma occurrences_app {A} `{EqDecision A} (x : A) l k :
  occurrences x (l ++ k) = (occurrences x l + occurrences x k)%nat.
Proof. unfold occurrences. by rewrite filter_app, length_app. Qed.

Lemma occurrences_not_in {A} `{EqDecision A} (x : A) l :
  x ∉ l -> occurrences x l = 0.
Proof.
  induction l as [|y l IH]; [done|]. rewrite not_elem_of_cons.
  intros [Hne Hl]. rewrite occurrences_cons, decide_False by done. auto.
Qed.

Lemma occurrences_NoDup {A} `{EqDecision A} (x : A) l :
  NoDup l -> x ∈ l -> occurrences x l = 1.
Proof.
  induction 1 as [|y l Hy _ IH]; [by intros ?%elem_of_nil|].
  rewrite elem_of_cons, occurrences_cons. intros [->|Hx].
  - rewrite decide_True by done. by rewrite occurrences_not_in.
  - rewrite decide_False by (intros ->; done). auto.
Qed.

Lemma occurrences_fmap_ne {A B} `{EqDecision B} (g : A -> B) (x : B) l :
  (forall a, g a <> x) -> occurrences x (g <$> l) = 0.
Proof.
  intros Hg. apply occurrences_not_in. rewrite list_elem_of_fmap.
  intros (a & -> & _). by eapply Hg.
Qed.

Lemma occurrences_fmap_inj {A B} `{EqDecision A, EqDecision B} (g : A -> B)
    (x : A) l :
  (forall a b, g a = g b -> a = b) ->
  occurrences (g x) (g <$> l) = occurrences x l.
Proof.
  intros Hg. induction l as [|y l IH]; [done|].
  rewrite fmap_cons, !occurrences_cons, IH. f_equal.
  destruct (decide (x = y)) as [->|Hne].
  - by rewrite decide_True.
  - rewrite decide_False; [done|]. intros ?%Hg. done.
Qed.

Lemma occurrences_rev {A} `{EqDecision A} (x : A) l :
  occurrences x (rev l) = occurrences x l.
Proof.
  unfold occurrences. apply Permutation_length.
  by rewrite <- Permutation_rev.
Qed.

(** A store after a list of writes, cell by cell: each cell has been
    reversed or negated as many times as the list names it. *)
Lemma lookup_apply_writes ws s a :
  vertex_of (apply_writes ws s) !! a
  = Nat.iter (occurrences (WNormal a) ws) negate_normal <$> vertex_of s !! a /\
  ring_of (apply_writes ws s) !! a
  = Nat.iter (occurrences (WRev a) ws) (@rev positive) <$> ring_of s !! a /\
  plane_of (apply_writes ws s) !! a
  = Nat.iter (occurrences (WPlane a) ws) negate_plane <$> plane_of s !! a.
Proof.
  revert s. induction ws as [|w ws IH]; intros s.
  - simpl. by rewrite !option_fmap_id.
  - rewrite apply_writes_cons. destruct (IH (apply_write w s)) as (Hv & Hr & Hp).
    rewrite Hv, Hr, Hp, !occurrences_cons.
    destruct w as [b|b|b]; simpl; rewrite ?lookup_alter;
      repeat case_decide; simplify_eq; simpl;
      rewrite <- ?option_fmap_compose; repeat split; try done;
      apply option_fmap_ext; intros x; simpl; by rewrite Nat.iter_swap.
Qed.

Lemma flip_writes_rev s q r :
  occurrences (WRev r) (flip_writes s q)
  = if decide (r = vertices q) then 1 else 0.
Proof.
  unfold flip_writes. rewrite occurrences_cons, occurrences_app.
  rewrite occurrences_fmap_ne by done. rewrite occurrences_cons.
  rewrite (decide_False (P := WRev r = WPlane _)) by done.
  destruct (decide (r = vertices q)) as [->|Hne].
  - by rewrite decide_True.
  - rewrite decide_False; [done | congruence].
Qed.

Lemma flip_writes_plane s q a :
  occurrences (WPlane a) (flip_writes s q)
  = if decide (a = plane q) then 1 else 0.
Proof.
  unfold flip_writes. rewrite occurrences_cons, occurrences_app.
  rewrite occurrences_fmap_ne by done. rewrite occurrences_cons.
  rewrite (decide_False (P := WPlane a = WRev _)) by done.
  destruct (decide (a = plane q)) as [->|Hne].
  - by rewrite decide_True.
  - rewrite decide_False; [done | congruence].
Qed.

Lemma flip_writes_normal s q v :
  occurrences (WNormal v) (flip_writes s q)
  = occurrences v (ring_at s (vertices q)).
Proof.
  unfold flip_writes. rewrite occurrences_cons, occurrences_app.
  rewrite (decide_False (P := WNormal v = WRev _)) by done.
  rewrite occurrences_fmap_inj by (by intros ? ? [= ->]).
  rewrite occurrences_rev, occurrences_cons.
  rewrite (decide_False (P := WNormal v = WPlane _)) by done.
  unfold occurrences at 2. simpl. lia.
Qed.

Lemma flips_writes_count s qs a :
  occurrences (WRev a) (qs ≫= flip_writes s) = occurrences a (vertices <$> qs) /\
  occurrences (WPlane a) (qs ≫= flip_writes s) = occurrences a (plane <$> qs) /\
  occurrences (WNormal a) (qs ≫= flip_writes s)
  = occurrences a (qs ≫= fun q => ring_at s (vertices q)).
Proof.
  induction qs as [|q qs (IH1 & IH2 & IH3)]; [done|].
  rewrite !bind_cons, !fmap_cons, !occurrences_app, !occurrences_cons.
  rewrite IH1, IH2, IH3, flip_writes_rev, flip_writes_plane, flip_writes_normal.
  done.
Qed.

(** Flipping each polygon of a list of separate polygons reverses each
    array once and negates each vertex normal and each plane once. *)
Lemma flips_effect lo hi qs s q :
  separate s qs -> Forall (owned lo hi s) qs -> q ∈ qs ->
  let s' := apply_writes (qs ≫= flip_writes s) s in
  ring_values s' q = rev (negate_normal <$> ring_values s q) /\
  polygon_plane s' q = negate_plane (polygon_plane s q) /\
  ring_at s' (vertices q) = rev (ring_at s (vertices q)).
Proof.
  intros (Hsr & Hsp & Hsv) Hown Hq s'.
  rewrite Forall_forall in Hown.
  destruct (Hown q Hq) as (_ & _ & [l Hl] & [pl Hpl] & Hvs).
  assert (Hring : ring_at s' (vertices q) = rev (ring_at s (vertices q))).
  { unfold ring_at, s'.
    rewrite (proj1 (proj2 (lookup_apply_writes _ s (vertices q)))).
    rewrite (proj1 (flips_writes_count s qs (vertices q))).
    rewrite occurrences_NoDup; [|done|by apply list_elem_of_fmap_2].
    by rewrite Hl. }
  split; [|split; [|done]].
  - unfold ring_values. rewrite Hring.
    change (map (vertex_at s') (rev (ring_at s (vertices q))))
      with (vertex_at s' <$> rev (ring_at s (vertices q))).
    change (map (vertex_at s) (ring_at s (vertices q)))
      with (vertex_at s <$> ring_at s (vertices q)).
    rewrite <- list_fmap_compose, <- !map_rev. apply map_ext_Forall.
    apply Forall_rev. rewrite Forall_forall in Hvs |- *.
    intros v Hv. destruct (Hvs v Hv) as (_ & [x Hx]). simpl.
    unfold vertex_at, s'. rewrite !lookup_total_alt.
    rewrite (proj1 (lookup_apply_writes _ s v)).
    rewrite (proj2 (proj2 (flips_writes_count s qs v))).
    rewrite occurrences_NoDup; [by rewrite Hx|done|].
    apply list_elem_of_bind. eauto.
  - unfold polygon_plane, plane_at, s'. rewrite !lookup_total_alt.
    rewrite (proj2 (proj2 (lookup_apply_writes _ s (plane q)))).
    rewrite (proj1 (proj2 (flips_writes_count s qs (plane q)))).
    rewrite occurrences_NoDup; [by rewrite Hpl|done|by apply list_elem_of_fmap_2].
Qed.

(** ** Cloning *)

Lemma Vertex_clone_present a s :
  is_Some (vertex_of (Vertex_clone a s).2 !! next s).
Proof.
  unfold Vertex_clone, Vertex_new, bind, get_vertex. simpl.
  rewrite lookup_insert_eq. eauto.
Qed.

Lemma new_ring_grows vs s : grows s (new_ring vs s).2.
Proof.
  split; simpl; [lia|]. intros a Ha. simpl.
  rewrite lookup_insert_ne; [done | lia].
Qed.

Lemma new_plane_grows pl s : grows s (new_plane pl s).2.
Proof.
  split; simpl; [lia|]. intros a Ha. simpl.
  rewrite lookup_insert_ne; [done | lia].
Qed.

(** Cloning the vertices of an array: fresh, distinct vertex objects with
    the same values. *)
Lemma clone_loop l s0 :
  forall s, grows s0 s -> Forall (fun a => (a < next s0)%positive) l ->
  exists l' s',
    mapM Vertex_clone l s = (Ret l', s') /\ grows s s' /\
    vertex_at s' <$> l' = vertex_at s0 <$> l /\
    Forall (fun v => (next s <= v < next s')%positive /\
                     is_Some (vertex_of s' !! v)) l' /\
    NoDup l'.
Proof.
  induction l as [|a l IH]; intros s Hg Hl.
  - exists [], s. split; [done|]. split; [apply grows_refl|].
    split; [done|]. split; constructor.
  - inversion Hl as [|? ? Ha Hl']; subst.
    destruct (Vertex_clone_run a s) as (s1 & Hc & Hg1 & Hn1 & Hv1).
    assert (Hpres := Vertex_clone_present a s). rewrite Hc in Hpres.
    simpl in Hpres.
    destruct (IH s1 (grows_trans _ _ _ Hg Hg1) Hl')
      as (l' & s2 & Hm & Hg2 & Hvals & Hrange & Hnd).
    exists (next s :: l'), s2. simpl.
    rewrite (bind_Ret _ _ _ _ _ Hc), (bind_Ret _ _ _ _ _ Hm).
    split; [done|]. split; [by eapply grows_trans|].
    assert (Hlt : (a < next s)%positive) by (destruct Hg; lia).
    split; [|split].
    + f_equal; [|exact Hvals].
      rewrite (vertex_at_grows s1 s2 _ Hg2 Hn1), Hv1.
      by apply vertex_at_grows.
    + constructor.
      * split; [destruct Hg2; lia|].
        destruct Hg2 as [_ Hsame]. by rewrite (proj1 (Hsame _ Hn1)).
      * eapply Forall_impl; [exact Hrange|]. intros v [? ?]. split; [lia|done].
    + constructor; [|done]. intros Hin.
      rewrite Forall_forall in Hrange. destruct (Hrange _ Hin). lia.
Qed.

(** [polygon.clone()]: a polygon on fresh objects with the vertex values of
    the original and the plane they define. *)
Lemma Polygon_clone_run p s :
  operand s p ->
  exists q s',
    Polygon_clone p s = (Ret q, s') /\ grows s s' /\
    has_values s' (ring_values s p) q /\
    owned (next s) (next s') s' q /\
    NoDup (ring_at s' (vertices q)).
Proof.
  intros [[_ Hvs] Hlen]. unfold Polygon_clone. rewrite bind_get_ring.
  destruct (clone_loop _ s s (grows_refl s) Hvs)
    as (l' & s1 & Hm & Hg1 & Hvals & Hrange & Hnd).
  rewrite (bind_Ret _ _ _ _ _ Hm).
  assert (Hlen' : length l' = length (ring_at s (vertices p))).
  { apply (f_equal length) in Hvals. by rewrite !length_fmap in Hvals. }
  unfold bind at 1.
  destruct (Polygon_new_run (new_ring l' s1).2 (next s1)) as (pl & Hpl & Hp).
  { rewrite ring_at_new_ring. lia. }
  rewrite ring_at_new_ring in Hpl.
  change (new_ring l' s1) with (Ret (next s1), (new_ring l' s1).2).
  lazy beta iota. rewrite Hp. eexists _, _. split; [reflexivity|].
  change (mkStore _ _ (<[next (new_ring l' s1).2 := pl]> _) _)
    with (new_plane pl (new_ring l' s1).2).2.
  set (s3 := (new_plane pl (new_ring l' s1).2).2).
  assert (Hring : ring_at s3 (next s1) = l').
  { unfold ring_at, s3. simpl. by rewrite lookup_insert_eq. }
  assert (Hplane : plane_at s3 (Pos.succ (next s1)) = pl).
  { unfold plane_at, s3. simpl. by rewrite lookup_total_insert_eq. }
  change (plane_of_values (vertex_at s1 <$> l') = Some pl) in Hpl.
  rewrite Hvals in Hpl.
  split.
  { eapply grows_trans; [exact Hg1|].
    eapply grows_trans; [apply new_ring_grows | apply new_plane_grows]. }
  unfold has_values, owned, ring_values, polygon_plane.
  cbn [vertices plane].
  change (next (new_ring l' s1).2) with (Pos.succ (next s1)).
  rewrite Hring, Hplane.
  change (map (vertex_at s3) l') with (vertex_at s1 <$> l'). rewrite Hvals.
  split; [done|]. split; [|done].
  destruct Hg1 as [Hn1 _].
  change (next s3) with (Pos.succ (Pos.succ (next s1))).
  split; [lia|]. split; [lia|].
  split; [unfold s3; simpl; rewrite lookup_insert_eq; eauto|].
  split; [unfold s3; simpl; rewrite lookup_insert_eq; eauto|].
  eapply Forall_impl; [exact Hrange|]. intros v [? ?]. simpl. split; [lia|done].
Qed.

(** What a polygon owns below [hi] is the same in every later store. *)
Lemma owned_stays lo hi s s' q :
  grows s s' -> (hi <= next s)%positive -> owned lo hi s q ->
  owned lo hi s' q /\ ring_at s' (vertices q) = ring_at s (vertices q) /\
  ring_values s' q = ring_values s q /\
  polygon_plane s' q = polygon_plane s q.
Proof.
  intros [Hn Hsame] Hhi (Hr & Hp & Hsr & Hsp & Hvs).
  assert (Hring : ring_at s' (vertices q) = ring_at s (vertices q)).
  { unfold ring_at. destruct (Hsame (vertices q)) as (_ & -> & _); [lia|done]. }
  destruct (same_below_values (next s) s s' q Hsame) as [Hrv Hpv]; [lia|lia|..].
  { eapply Forall_impl; [exact Hvs|]. intros v [? _]. simpl. lia. }
  split; [|done].
  split; [done|]. split; [done|].
  split. { destruct (Hsame (vertices q)) as (_ & -> & _); [lia|done]. }
  split. { destruct (Hsame (plane q)) as (_ & _ & ->); [lia|done]. }
  rewrite Hring. eapply Forall_impl; [exact Hvs|]. intros v [? ?]. simpl.
  split; [done|]. destruct (Hsame v) as (-> & _); [lia|done].
Qed.

Lemma owned_widen lo lo' hi hi' s q :
  (lo' <= lo)%positive -> (hi <= hi')%positive ->
  owned lo hi s q -> owned lo' hi' s q.
Proof.
  intros Hlo Hhi (Hr & Hp & Hsr & Hsp & Hvs).
  split; [lia|]. split; [lia|]. split; [done|]. split; [done|].
  eapply Forall_impl; [exact Hvs|]. intros v [? ?]. simpl. split; [lia|done].
Qed.

Lemma operand_grows s s' p : grows s s' -> operand s p -> operand s' p.
Proof.
  intros Hg [Hal Hlen]. split; [by eapply ring_allocated_grows|].
  destruct Hg as [_ Hsame], Hal as [Hr _]. unfold ring_at in *.
  by destruct (Hsame _ Hr) as (_ & -> & _).
Qed.

Lemma ring_values_grows s s' p :
  grows s s' -> operand s p -> ring_values s' p = ring_values s p.
Proof.
  intros Hg [[Hr Hvs] _]. unfold ring_values.
  assert (Hring : ring_at s' (vertices p) = ring_at s (vertices p)).
  { destruct Hg as [_ Hsame]. unfold ring_at.
    by destruct (Hsame _ Hr) as (_ & -> & _). }
  rewrite Hring. apply map_ext_Forall.
  eapply Forall_impl; [exact Hvs|]. intros a Ha. by apply vertex_at_grows.
Qed.

(** [polygons.map(p => p.clone())]: polygons on fresh objects, no two of
    which share an object, with the values of the originals. *)
Lemma clones_run ps :
  forall s, Forall (operand s) ps ->
  exists qs s',
    mapM Polygon_clone ps s = (Ret qs, s') /\ grows s s' /\
    Forall2 (fun p q => has_values s' (ring_values s p) q) ps qs /\
    Forall (owned (next s) (next s') s') qs /\
    separate s' qs.
Proof.
  induction ps as [|p ps IH]; intros s Hps.
  - exists [], s. split; [done|]. split; [apply grows_refl|].
    split; [constructor|]. split; [constructor|].
    split; [constructor|]. split; constructor.
  - inversion Hps as [|? ? Hp Hps']; subst.
    destruct (Polygon_clone_run p s Hp) as (q & s1 & Hc & Hg1 & Hv1 & Ho1 & Hnd1).
    destruct (IH s1) as (qs & s2 & Hm & Hg2 & Hv2 & Ho2 & Hsr & Hsp & Hsv).
    { eapply Forall_impl; [exact Hps'|]. intros x. by apply operand_grows. }
    exists (q :: qs), s2. simpl.
    rewrite (bind_Ret _ _ _ _ _ Hc), (bind_Ret _ _ _ _ _ Hm).
    split; [done|]. split; [by eapply grows_trans|].
    destruct (owned_stays _ _ s1 s2 q Hg2 (Pos.le_refl _) Ho1)
      as (Ho1' & Hring & Hrv & Hpv).
    assert (Hn1 : (next s <= next s1)%positive) by (by destruct Hg1).
    assert (Hn2 : (next s1 <= next s2)%positive) by (by destruct Hg2).
    destruct Ho1 as (Hr1 & Hp1 & _ & _ & Hvs1).
    rewrite Forall_forall in Ho2.
    split; [|split; [|split; [|split]]].
    + constructor.
      * destruct Hv1 as [Hva Hpl]. split; [by rewrite Hrv | by rewrite Hpv].
      * apply Forall2_same_length_lookup in Hv2 as [Hlen Hv2].
        apply Forall2_same_length_lookup_2; [done|]. intros i x y Hx Hy.
        rewrite <- (ring_values_grows s s1 x Hg1); [by eapply Hv2|].
        by eapply Forall_lookup_1.
    + constructor.
      * eapply owned_widen; [| |exact Ho1']; lia.
      * apply Forall_forall. intros x Hx.
        eapply owned_widen; [| |exact (Ho2 x Hx)]; lia.
    + rewrite fmap_cons. constructor; [|done].
      intros (x & Hx & Hin)%list_elem_of_fmap.
      destruct (Ho2 x Hin) as (? & _). lia.
    + rewrite fmap_cons. constructor; [|done].
      intros (x & Hx & Hin)%list_elem_of_fmap.
      destruct (Ho2 x Hin) as (_ & ? & _). lia.
    + rewrite bind_cons. apply NoDup_app. split; [by rewrite Hring|].
      split; [|done]. intros v Hv (x & Hvx & Hin)%list_elem_of_bind.
      rewrite Hring in Hv. rewrite Forall_forall in Hvs1.
      destruct (Hvs1 v Hv) as [? _].
      destruct (Ho2 x Hin) as (_ & _ & _ & _ & Hvsx).
      rewrite Forall_forall in Hvsx. destruct (Hvsx v Hvx) as [? _]. lia.
Qed.

(** ** The inverse of a CSG value *)

Lemma plane_of_values_negate l :
  plane_of_values (negate_normal <$> l) = plane_of_values l.
Proof.
  unfold plane_of_values. rewrite !list_lookup_fmap.
  by destruct (l !! 1%nat), (l !! 0%nat), (l !! 2%nat).
Qed.

(** [inverse()]: each polygon of the result has the vertex values of its
    original in reverse order with negated normals, and the negation of the
    plane that clone derived from the original's first three vertices. *)
Lemma inverse_run this s :
  Forall (operand s) (polygons this) ->
  exists c s',
    inverse this s = (Ret c, s') /\
    Forall2 (fun p q => has_flipped_values s' (ring_values s p) q)
            (polygons this) (polygons c) /\
    Forall (operand s') (polygons c).
Proof.
  intros Hps. unfold inverse, CSG_clone.
  destruct (clones_run _ s Hps) as (qs & s1 & Hm & Hg & Hv & Ho & Hsep).
  destruct (flips_run qs s1 s1 (rings_perm_refl s1)) as (ws & Hws & Hrun).
  rewrite (apply_writes_perm _ _ _ Hws) in Hrun.
  exists (mkCSG qs), (apply_writes (qs ≫= flip_writes s1) s1).
  split.
  { unfold bind, ret. rewrite Hm. simpl. by rewrite Hrun. }
  simpl. apply Forall2_same_length_lookup in Hv as [Hlen Hv].
  split.
  - apply Forall2_same_length_lookup_2; [done|]. intros i p q Hp Hq.
    destruct (Hv i p q Hp Hq) as [Hrv Hpl].
    destruct (flips_effect _ _ qs s1 q Hsep Ho) as (Hrv' & Hpl' & _).
    { by eapply list_elem_of_lookup_2. }
    split; [by rewrite Hrv', Hrv|]. by rewrite Hpl', <- Hpl.
  - apply Forall_forall. intros q Hq.
    destruct (flips_effect _ _ qs s1 q Hsep Ho Hq) as (_ & _ & Hring).
    apply list_elem_of_lookup_1 in Hq as [i Hq].
    destruct (lookup_lt_is_Some_2 (polygons this) i) as [p Hp].
    { rewrite Hlen. by eapply lookup_lt_Some. }
    destruct (Hv i p q Hp Hq) as [Hrv _].
    rewrite Forall_forall in Ho.
    destruct (Ho q) as (Hr & _ & _ & _ & Hvs); [by eapply list_elem_of_lookup_2|].
    split; [split|].
    + rewrite next_apply_writes. lia.
    + rewrite Hring, next_apply_writes. apply Forall_rev.
      eapply Forall_impl; [exact Hvs|]. intros v [? _]. simpl. lia.
    + rewrite Hring, length_rev.
      apply (f_equal length) in Hrv. unfold ring_values in Hrv.
      rewrite !length_map in Hrv. rewrite Hrv.
      rewrite Forall_forall in Hps.
      by destruct (Hps p); [eapply list_elem_of_lookup_2|].
Qed.

(** C6 (amended): for a CSG value A whose polygons have at least three
    allocated vertices each, and numbers on which multiplying twice by -1
    and negating twice give the number back, inverse(inverse(A)) returns,
    polygon by polygon, the vertex values of A exactly: positions, normals
    and uvs, in A's order.  The plane of each result polygon is not copied
    from A: it is the negation of the plane that the first three vertices
    of A's reversed vertex list define, which is A's plane only when those
    three vertices define the opposite of it.  Polygon.flip and
    BSPNode.invert are self-inverse: run twice they restore the store, and
    invert twice returns the tree it was given. *)
Theorem inverse_inverse_restores_vertices (this : CSG) (s : Store) :
  negation_involutive ->
  Forall (operand s) (polygons this) ->
  (exists b s2 c s4,
     inverse this s = (Ret b, s2) /\ inverse b s2 = (Ret c, s4) /\
     Forall2 (fun p q =>
                ring_values s4 q = ring_values s p /\
                Some (polygon_plane s4 q) =
                  negate_plane <$> plane_of_values (rev (ring_values s p)))
             (polygons this) (polygons c)) /\
  (forall p s0, exists s', Polygon_flip p s0 = (Ret tt, s') /\
                           Polygon_flip p s' = (Ret tt, s0)) /\
  (forall t s0, exists s', invert t s0 = (Ret (mirror t), s') /\
                           invert (mirror t) s' = (Ret t, s0)).
Proof.
  intros Hneg Hps. split; [|split].
  - destruct (inverse_run this s Hps) as (b & s2 & Hb & Hvb & Hob).
    destruct (inverse_run b s2 Hob) as (c & s4 & Hc & Hvc & _).
    exists b, s2, c, s4. split; [done|]. split; [done|].
    apply Forall2_same_length_lookup in Hvb as [Hlb Hvb].
    apply Forall2_same_length_lookup in Hvc as [Hlc Hvc].
    apply Forall2_same_length_lookup_2; [congruence|]. intros i p q Hp Hq.
    destruct (lookup_lt_is_Some_2 (polygons b) i) as [m Hm].
    { rewrite <- Hlb. by eapply lookup_lt_Some. }
    destruct (Hvb i p m Hp Hm) as [Hrm _].
    destruct (Hvc i m q Hm Hq) as [Hrq Hpq].
    rewrite Hrq, Hpq, Hrm. split.
    + rewrite <- map_rev, rev_involutive.
      change (negate_normal <$> map negate_normal (ring_values s p))
        with (map negate_normal (map negate_normal (ring_values s p))).
      rewrite map_map. rewrite <- (map_id (ring_values s p)) at 2.
      apply map_ext. intros v. by apply negate_normal_involutive.
    + f_equal. change (negate_normal <$> ring_values s p)
        with (map negate_normal (ring_values s p)).
      rewrite <- map_rev. apply plane_of_values_negate.
  - intros p s0. by apply flip_flip.
  - intros t s0. by apply invert_invert.
Qed.

(** ** The two pieces of a polygon that spans a plane *)

Lemma path_edges_app {A} (l1 l2 : list A) (y c : A) :
  path_edges (l1 ++ y :: l2) c = path_edges l1 y ++ path_edges (y :: l2) c.
Proof.
  induction l1 as [|a l1 IH]; [done|]. simpl. rewrite IH. simpl. f_equal.
  f_equal. by destruct l1.
Qed.

(** A ring traversed from any of its elements has the same edges, up to
    order. *)
Lemma edges_of_from {A} (l1 l2 : list A) (y : A) :
  edges_of (l1 ++ y :: l2) ≡ₚ path_edges (y :: l2 ++ l1) y.
Proof.
  destruct l1 as [|a l1].
  - rewrite app_nil_r. simpl app. by rewrite edges_of_path.
  - change ((a :: l1) ++ y :: l2) with (a :: (l1 ++ y :: l2)).
    rewrite edges_of_path.
    change (a :: l1 ++ y :: l2) with ((a :: l1) ++ y :: l2).
    rewrite path_edges_app.
    change (y :: l2 ++ a :: l1) with ((y :: l2) ++ a :: l1).
    rewrite path_edges_app. simpl. rewrite app_comm_cons.
    apply Permutation_app_comm.
Qed.

Lemma first_with {A} (P : A -> bool) (l : list A) :
  (exists x, x ∈ l /\ P x = true) ->
  exists l1 x l2, l = l1 ++ x :: l2 /\ P x = true /\
                  Forall (fun a => P a = false) l1.
Proof.
  induction l as [|a l IH]; intros (x & Hin & Hx).
  - by apply elem_of_nil in Hin.
  - destruct (P a) eqn:Ea.
    + exists [], a, l. by repeat constructor.
    + apply elem_of_cons in Hin as [-> | Hin]; [congruence|].
      destruct IH as (l1 & y & l2 & -> & Hy & Hl1); [by exists x|].
      exists (a :: l1), y, l2. by repeat constructor.
Qed.

Section Pieces.

Context {A B : Type} (isX isY : A -> bool) (part : A * A -> list B).
Context (Hdisjoint : forall a, isY a = true -> isX a = false).
Context (Hvertex : forall a b, isX a = false -> 1 <= length (part (a, b))).
Context (Hleave : forall a b, isY a = true -> isX b = true ->
                              2 <= length (part (a, b))).
Context (Henter : forall a b, isX a = true -> isY b = true ->
                              1 <= length (part (a, b))).

Lemma pieces_out l c :
  l <> [] -> Forall (fun a => isX a = false) l ->
  (forall a, hd_error l = Some a -> isY a = true) -> isX c = true ->
  2 <= length (path_edges l c ≫= part).
Proof using Hvertex Hleave.
  intros Hne Hl Hy Hc. destruct l as [|a [|b l']]; [done|..].
  - simpl. rewrite length_app. pose proof (Hleave a c (Hy a eq_refl) Hc). lia.
  - inversion Hl as [|? ? Ha Hl']; subst. inversion Hl' as [|? ? Hb _]; subst.
    simpl. rewrite !length_app.
    pose proof (Hvertex a b Ha). pose proof (Hvertex b (hd c l') Hb). lia.
Qed.

Lemma pieces_back l a c :
  isX a = true -> (exists y, y ∈ l ++ [c] /\ isY y = true) ->
  1 <= length (path_edges (a :: l) c ≫= part).
Proof using Hvertex Henter.
  revert a. induction l as [|b l IH]; intros a Ha (y & Hin & Hy).
  - simpl in *. apply list_elem_of_singleton in Hin as ->.
    rewrite length_app. pose proof (Henter a c Ha Hy). lia.
  - change (path_edges (a :: b :: l) c)
      with ((a, b) :: path_edges (b :: l) c).
    rewrite bind_cons, length_app.
    destruct (isY b) eqn:Eb; [pose proof (Henter a b Ha Eb); lia|].
    destruct (isX b) eqn:Exb.
    + simpl in Hin. apply elem_of_cons in Hin as [-> | Hin]; [congruence|].
      specialize (IH b Exb (ex_intro _ y (conj Hin Hy))). lia.
    + simpl. rewrite length_app. pose proof (Hvertex b (hd c l) Exb). lia.
Qed.

(** A ring with an element on each side yields at least three elements. *)
Lemma pieces_of_ring l :
  (exists y, y ∈ l /\ isY y = true) -> (exists x, x ∈ l /\ isX x = true) ->
  3 <= length (edges_of l ≫= part).
Proof using Hdisjoint Hvertex Hleave Henter.
  intros (y & Hyin & Hy) (x & Hxin & Hx).
  apply list_elem_of_split in Hyin as (l1 & l2 & ->).
  rewrite (edges_of_from l1 l2 y).
  assert (Hx' : exists x, x ∈ l2 ++ l1 /\ isX x = true).
  { exists x. split; [|done].
    rewrite elem_of_app in Hxin. rewrite elem_of_app.
    destruct Hxin as [?|Hxin]; [by right|].
    apply elem_of_cons in Hxin as [-> | ?]; [|by left].
    rewrite (Hdisjoint _ Hy) in Hx. done. }
  destruct (first_with isX _ Hx') as (r1 & x' & r2 & Hr & Hx'' & Hr1).
  rewrite Hr. change (y :: r1 ++ x' :: r2) with ((y :: r1) ++ x' :: r2).
  rewrite path_edges_app, bind_app, length_app.
  assert (2 <= length (path_edges (y :: r1) x' ≫= part)).
  { apply pieces_out; [done| |by intros ? [= <-]|done].
    constructor; [by apply Hdisjoint | done]. }
  assert (1 <= length (path_edges (x' :: r2) y ≫= part)).
  { apply pieces_back; [done|]. exists y. split; [|done].
    apply elem_of_app. right. by apply list_elem_of_singleton. }
  lia.
Qed.

End Pieces.

Lemma has_exists t (types : list N) :
  has t types = true <-> t ∈ types.
Proof.
  unfold has. rewrite existsb_exists. split.
  - intros (x & Hin & ->%N.eqb_eq). by apply list_elem_of_In.
  - intros Hin. exists t. split; [by apply list_elem_of_In | apply N.eqb_refl].
Qed.

Lemma has_classified pl t (vs : list Vertex) :
  has t (classify pl <$> vs) = true ->
  exists v, v ∈ vs /\ (classify pl v =? t)%N = true.
Proof.
  intros (v & -> & Hin)%has_exists%list_elem_of_fmap.
  exists v. split; [done | apply N.eqb_refl].
Qed.

(** Both rings of a polygon that has a vertex in front of the plane and a
    vertex behind it have at least three vertices. *)
Lemma split_rings_length pl (vs : list Vertex) :
  has FRONT (classify pl <$> vs) = true ->
  has BACK (classify pl <$> vs) = true ->
  3 <= length (front_ring pl vs) /\ 3 <= length (back_ring pl vs).
Proof.
  intros HF%has_classified HB%has_classified. split.
  - apply (pieces_of_ring (fun v => (classify pl v =? BACK)%N)
                          (fun v => (classify pl v =? FRONT)%N)); try done.
    + intros a ->%N.eqb_eq. done.
    + intros a b Ha. unfold front_part. simpl. rewrite Ha, length_app. simpl. lia.
    + intros a b Ha Hb. unfold front_part, crosses. simpl.
      rewrite Ha, Hb. apply N.eqb_eq in Ha. rewrite Ha. done.
    + intros a b Ha Hb. unfold front_part, crosses. simpl.
      rewrite Ha, Hb, length_app, orb_true_r. simpl. lia.
  - apply (pieces_of_ring (fun v => (classify pl v =? FRONT)%N)
                          (fun v => (classify pl v =? BACK)%N)); try done.
    + intros a ->%N.eqb_eq. done.
    + intros a b Ha. unfold back_part. simpl. rewrite Ha, length_app. simpl. lia.
    + intros a b Ha Hb. unfold back_part, crosses. simpl.
      rewrite Ha, Hb. apply N.eqb_eq in Ha. rewrite Ha. done.
    + intros a b Ha Hb. unfold back_part, crosses. simpl.
      rewrite Ha, Hb, length_app. simpl. lia.
Qed.

(** ** Results as operands *)

Lemma extends_refl s : extends s s.
Proof. split; [lia | done]. Qed.

Lemma extends_trans s1 s2 s3 : extends s1 s2 -> extends s2 s3 -> extends s1 s3.
Proof.
  intros [Hn12 H12] [Hn23 H23]. split; [lia|]. intros r Hr.
  etrans; [by apply H12 | apply H23; lia].
Qed.

Lemma grows_extends s s' : grows s s' -> extends s s'.
Proof.
  intros [Hn Hsame]. split; [done|]. intros r Hr. unfold ring_at.
  by destruct (Hsame r Hr) as (_ & -> & _).
Qed.

Lemma operand_extends s s' p : extends s s' -> operand s p -> operand s' p.
Proof.
  intros [Hn Hperm] [[Hr Hvs] Hlen]. specialize (Hperm _ Hr).
  split; [split|].
  - lia.
  - rewrite <- Hperm. eapply Forall_impl; [exact Hvs|]. intros a Ha. simpl in *. lia.
  - by rewrite <- Hperm.
Qed.

Lemma operands_extend s s' ps :
  extends s s' -> Forall (operand s) ps -> Forall (operand s') ps.
Proof.
  intros He Hps. eapply Forall_impl; [exact Hps|].
  intros p. by apply operand_extends.
Qed.

Lemma tree_ok_extends s s' t : extends s s' -> tree_ok s t -> tree_ok s' t.
Proof. apply operands_extend. Qed.

Lemma env_ok_extends s s' env : extends s s' -> env_ok s env -> env_ok s' env.
Proof.
  intros He Henv. eapply Forall_impl; [exact Henv|].
  intros ps. by apply operands_extend.
Qed.

Lemma env_ok_push s slot p env :
  operand s p -> env_ok s env -> env_ok s (push slot p env).
Proof.
  intros Hp Henv. unfold push, env_ok.
  apply Forall_alter; [done|]. intros l _ Hl.
  apply Forall_app. split; [exact Hl|]. constructor; [exact Hp | constructor].
Qed.

Lemma env_ok_lookup s env k : env_ok s env -> Forall (operand s) (env !!! k).
Proof.
  intros Henv. rewrite list_lookup_total_alt.
  destruct (env !! k) as [l|] eqn:E; simpl; [|constructor].
  by eapply (Forall_lookup_1 _ env).
Qed.

(** A polygon that splitPolygon made is an operand. *)
Lemma emitted_operands s ring qs :
  emitted s ring qs -> Forall (operand s) qs.
Proof.
  unfold emitted. destruct (3 <=? length ring) eqn:E; [|by intros ->].
  apply Nat.leb_le in E. intros (q & -> & (Hr & _ & Hvs) & Hrv & _).
  constructor; [|constructor]. split; [by split|].
  apply (f_equal length) in Hrv. unfold ring_values in Hrv.
  rewrite length_map in Hrv. lia.
Qed.

Lemma env_ok_pushes s slot qs env :
  Forall (operand s) qs -> env_ok s env ->
  env_ok s (foldl (fun e q => push slot q e) env qs).
Proof.
  intros Hqs. revert env. induction Hqs as [|q qs Hq _ IH]; intros env Henv.
  - done.
  - simpl. apply IH. by apply env_ok_push.
Qed.

(** splitPolygon puts only operands into the arrays it is given. *)
Lemma splitPolygon_operands a p cf cb f b env s :
  operand s p -> env_ok s env ->
  exists env' s',
    splitPolygon a p cf cb f b env s = (Ret env', s') /\ grows s s' /\
    env_ok s' env'.
Proof.
  intros Hp Henv.
  destruct (splitPolygon_run a p cf cb f b env s (proj2 (proj1 Hp)))
    as (_ & env' & s' & Hrun & Hg & Hcase).
  exists env', s'. split; [done|]. split; [done|].
  destruct (has FRONT _), (has BACK _).
  - destruct Hcase as (fs & bs & Hfs & Hbs & ->).
    apply env_ok_pushes; [by eapply emitted_operands|].
    apply env_ok_pushes; [by eapply emitted_operands|].
    eapply env_ok_extends; [by apply grows_extends | done].
  - destruct Hcase as [-> ->]. by apply env_ok_push.
  - destruct Hcase as [-> ->]. by apply env_ok_push.
  - destruct Hcase as [-> ->]. by apply env_ok_push.
Qed.

Lemma split_loop_operands a cf cb f b polys :
  forall env s,
    Forall (operand s) polys -> env_ok s env ->
    exists env' s',
      foldM (fun env p => splitPolygon a p cf cb f b env) env polys s
      = (Ret env', s') /\ grows s s' /\ env_ok s' env'.
Proof.
  induction polys as [|p polys IH]; intros env s Hps Henv.
  - exists env, s. split; [done|]. split; [apply grows_refl | done].
  - inversion Hps as [|? ? Hp Hps']; subst.
    destruct (splitPolygon_operands a p cf cb f b env s Hp Henv)
      as (env1 & s1 & Hrun & Hg & Henv1).
    destruct (IH env1 s1) as (env2 & s2 & Hrun2 & Hg2 & Henv2); [|done|].
    { eapply operands_extend; [by apply grows_extends | done]. }
    exists env2, s2. simpl. rewrite (bind_Ret _ _ _ _ _ Hrun).
    split; [done|]. split; [by eapply grows_trans | done].
Qed.

(** Where clipPolygons sends one polygon: operands only, and at least one
    polygon; a polygon that spans the plane yields two. *)
Lemma routed_operands a p s s' fs bs :
  operand s p -> routed a p s s' fs bs -> grows s s' ->
  Forall (operand s') fs /\ Forall (operand s') bs /\
  1 <= length fs + length bs.
Proof.
  intros Hp Hr Hg. unfold routed in Hr.
  assert (Hp' : operand s' p).
  { eapply operand_extends; [by apply grows_extends | done]. }
  destruct (has FRONT _) eqn:EF, (has BACK _) eqn:EB.
  - destruct Hr as [Hfs Hbs].
    destruct (split_rings_length _ _ EF EB) as [HlF HlB].
    split; [by eapply emitted_operands|]. split; [by eapply emitted_operands|].
    unfold emitted in Hfs. apply Nat.leb_le in HlF. rewrite HlF in Hfs.
    destruct Hfs as (q & -> & _). simpl. lia.
  - destruct Hr as (-> & -> & ->).
    split; [by apply Forall_singleton|]. split; [constructor | simpl; lia].
  - destruct Hr as (-> & -> & ->).
    split; [constructor|]. split; [by apply Forall_singleton | simpl; lia].
  - destruct Hr as [-> Hr]. destruct (nlt n0 _); destruct Hr as [-> ->].
    + split; [by apply Forall_singleton|]. split; [constructor | simpl; lia].
    + split; [constructor|]. split; [by apply Forall_singleton | simpl; lia].
Qed.

(** The loop of clipPolygons over its input. *)
Lemma partition_operands a ps :
  forall F B s,
    Forall (operand s) ps ->
    exists front back s1,
      foldM (fun env p => splitPolygon a p 0 1 0 1 env) [F; B] ps s
      = (Ret [F ++ front; B ++ back], s1) /\
      grows s s1 /\ Forall (operand s1) front /\ Forall (operand s1) back /\
      length ps <= length front + length back.
Proof.
  induction ps as [|p ps IH]; intros F B s Hps.
  - exists [], [], s. rewrite !app_nil_r.
    split; [done|]. split; [apply grows_refl|].
    split; [constructor|]. split; [constructor | simpl; lia].
  - inversion Hps as [|? ? Hp Hps']; subst.
    destruct (split_in_clip a p F B s (proj1 Hp))
      as (fs & bs & s1 & Hrun & Hr & Hg).
    destruct (routed_operands a p s s1 fs bs Hp Hr Hg) as (Hfs & Hbs & Hn).
    destruct (IH (F ++ fs) (B ++ bs) s1)
      as (front & back & s2 & Hrun2 & Hg2 & Hfront & Hback & Hlen).
    { eapply operands_extend; [by apply grows_extends | done]. }
    exists (fs ++ front), (bs ++ back), s2. simpl.
    rewrite (bind_Ret _ _ _ _ _ Hrun), Hrun2, !app_assoc.
    split; [done|]. split; [by eapply grows_trans|].
    assert (He2 := grows_extends _ _ Hg2).
    split; [apply Forall_app; eauto using operands_extend|].
    split; [apply Forall_app; eauto using operands_extend|].
    rewrite !length_app. simpl. lia.
Qed.

Lemma clipPolygons_operands t :
  forall polys s,
    Forall (operand s) polys ->
    exists res s',
      clipPolygons t polys s = (Ret res, s') /\ grows s s' /\
      Forall (operand s') res /\ length polys <= length res.
Proof.
  induction t as [|pl fr IHf bk IHb own]; intros polys s Hps.
  - exists polys, s. split; [done|]. split; [apply grows_refl | done].
  - destruct pl as [a|].
    2:{ exists polys, s. split; [done|]. split; [apply grows_refl | done]. }
    destruct (partition_operands a polys [] [] s Hps)
      as (front & back & s1 & Hrun & Hg1 & Hfront & Hback & Hlen).
    simpl in Hrun.
    destruct (IHf front s1 Hfront) as (front' & s2 & Hf & Hg2 & Hfront' & Hlf).
    destruct (IHb back s2) as (back' & s3 & Hb & Hg3 & Hback' & Hlb).
    { eapply operands_extend; [by apply grows_extends | done]. }
    exists (front' ++ back'), s3. simpl. rewrite (bind_Ret _ _ _ _ _ Hrun).
    change ([front; back] !!! 0) with front.
    change ([front; back] !!! 1) with back.
    rewrite (bind_Ret _ _ _ _ _ Hf), (bind_Ret _ _ _ _ _ Hb).
    split; [done|]. split; [eauto using grows_trans|].
    split.
    + apply Forall_app. split; [|done].
      eapply operands_extend; [by apply grows_extends | done].
    + rewrite length_app. lia.
Qed.

Lemma clipTo_operands t bsp :
  forall s, tree_ok s t ->
  exists t' s',
    clipTo t bsp s = (Ret t', s') /\ grows s s' /\ tree_ok s' t' /\
    same_shape t t' /\ length (allPolygons t) <= length (allPolygons t').
Proof.
  induction t as [|pl fr IHf bk IHb own]; intros s Ht.
  - exists Null, s. split; [done|]. split; [apply grows_refl | done].
  - unfold tree_ok in Ht. simpl in Ht.
    apply Forall_app in Ht as [Hown Ht]. apply Forall_app in Ht as [Hfr Hbk].
    destruct (clipPolygons_operands bsp own s Hown)
      as (own' & s1 & Hrun1 & Hg1 & Hown' & Hl1).
    destruct (IHf s1) as (fr' & s2 & Hrun2 & Hg2 & Hfr' & Hsf & Hl2).
    { eapply tree_ok_extends; [by apply grows_extends | done]. }
    destruct (IHb s2) as (bk' & s3 & Hrun3 & Hg3 & Hbk' & Hsb & Hl3).
    { eapply tree_ok_extends; [|exact Hbk].
      apply grows_extends. by eapply grows_trans. }
    exists (Node pl fr' bk' own'), s3. simpl.
    rewrite (bind_Ret _ _ _ _ _ Hrun1), (bind_Ret _ _ _ _ _ Hrun2),
      (bind_Ret _ _ _ _ _ Hrun3).
    split; [done|]. split; [eauto using grows_trans|].
    split; [|split; [done|rewrite !length_app; lia]].
    unfold tree_ok. simpl. apply Forall_app. split.
    + eapply operands_extend; [|exact Hown'].
      apply grows_extends. by eapply grows_trans.
    + apply Forall_app. split; [|done].
      eapply tree_ok_extends; [by apply grows_extends | done].
Qed.

Lemma tree_ok_or_new s t : tree_ok s t -> tree_ok s (or_new t).
Proof. destruct t; [intros _; constructor | done]. Qed.

Lemma build_operands fuel :
  forall this polys s,
    is_node this -> length polys <= fuel ->
    tree_ok s this -> Forall (operand s) polys ->
    exists t s',
      build_fuel fuel this polys s = (Ret t, s') /\ grows s s' /\
      tree_ok s' t /\ is_node t.
Proof.
  induction fuel as [|fuel IH]; intros this polys s Hn Hlen Ht Hps.
  - destruct this as [|pl fr bk own]; [done|]. simpl.
    destruct polys; [|simpl in Hlen; lia]. simpl.
    eexists _, s. split; [reflexivity|]. split; [apply grows_refl | done].
  - destruct this as [|pl fr bk own]; [done|]. simpl.
    destruct (_ || _) eqn:Hguard.
    { eexists _, s. split; [reflexivity|]. split; [apply grows_refl | done]. }
    destruct polys as [|p0 polys']; [done|].
    set (polys := p0 :: polys') in *.
    set (pl' := match pl with Some a => a | None => plane p0 end).
    unfold tree_ok in Ht. simpl in Ht.
    apply Forall_app in Ht as [Hown Ht]. apply Forall_app in Ht as [Hfr Hbk].
    destruct (split_loop_operands pl' 0 0 1 2 polys [own; []; []] s Hps)
      as (env & s1 & Hrun & Hg1 & Henv).
    { constructor; [done|]. repeat (constructor; [constructor|]). constructor. }
    destruct (total_split_loop pl' 0 0 1 2 polys [own; []; []] ltac:(lia) s)
      as (env0 & s0 & Hrun0 & Hbound).
    rewrite Hrun in Hrun0. injection Hrun0 as <- <-.
    assert (Hfront := Hbound 1). assert (Hback := Hbound 2).
    unfold slot_length in Hfront, Hback. simpl in Hfront, Hback.
    rewrite (bind_Ret _ _ _ _ _ Hrun).
    assert (He1 := grows_extends _ _ Hg1).
    assert (exists fr' s2,
      (if (length (env !!! 1%nat) =? 0)%nat then ret fr
       else if (length (env !!! 1%nat) =? length polys)%nat then ret (or_new fr)
            else build_fuel fuel (or_new fr) (env !!! 1%nat)) s1 = (Ret fr', s2)
      /\ grows s1 s2 /\ tree_ok s2 fr') as (fr' & s2 & Hrun2 & Hg2 & Hfr').
    { destruct (length (env !!! 1%nat) =? 0)%nat;
        [|destruct (length (env !!! 1%nat) =? length polys)%nat eqn:E].
      - exists fr, s1. split; [done|]. split; [apply grows_refl|].
        by eapply tree_ok_extends.
      - exists (or_new fr), s1. split; [done|]. split; [apply grows_refl|].
        apply tree_ok_or_new. by eapply tree_ok_extends.
      - apply Nat.eqb_neq in E.
        destruct (IH (or_new fr) (env !!! 1%nat) s1) as (t & s2 & Hr & Hg & Hok & _).
        + apply is_node_or_new.
        + subst polys. simpl in *. lia.
        + apply tree_ok_or_new. by eapply tree_ok_extends.
        + by apply env_ok_lookup.
        + by exists t, s2. }
    rewrite (bind_Ret _ _ _ _ _ Hrun2).
    assert (He2 := grows_extends _ _ Hg2).
    assert (exists bk' s3,
      (if (length (env !!! 2%nat) =? 0)%nat then ret bk
       else if (length (env !!! 2%nat) =? length polys)%nat then ret (or_new bk)
            else build_fuel fuel (or_new bk) (env !!! 2%nat)) s2 = (Ret bk', s3)
      /\ grows s2 s3 /\ tree_ok s3 bk') as (bk' & s3 & Hrun3 & Hg3 & Hbk').
    { assert (Hbk2 : tree_ok s2 bk).
      { eapply tree_ok_extends; [exact He2|]. by eapply tree_ok_extends. }
      destruct (length (env !!! 2%nat) =? 0)%nat;
        [|destruct (length (env !!! 2%nat) =? length polys)%nat eqn:E].
      - exists bk, s2. split; [done|]. split; [apply grows_refl | done].
      - exists (or_new bk), s2. split; [done|]. split; [apply grows_refl|].
        by apply tree_ok_or_new.
      - apply Nat.eqb_neq in E.
        destruct (IH (or_new bk) (env !!! 2%nat) s2) as (t & s3 & Hr & Hg & Hok & _).
        + apply is_node_or_new.
        + subst polys. simpl in *. lia.
        + by apply tree_ok_or_new.
        + eapply operands_extend; [exact He2|]. by apply env_ok_lookup.
        + by exists t, s3. }
    rewrite (bind_Ret _ _ _ _ _ Hrun3).
    assert (He3 := grows_extends _ _ Hg3).
    eexists _, s3. split; [reflexivity|].
    split; [eauto using grows_trans|]. split; [|done].
    unfold tree_ok. simpl. apply Forall_app. split.
    + eapply operands_extend; [exact He3|]. eapply operands_extend; [exact He2|].
      by apply env_ok_lookup.
    + apply Forall_app. split; [|done]. by eapply tree_ok_extends.
Qed.

Lemma invert_operands t s :
  tree_ok s t ->
  exists s', invert t s = (Ret (mirror t), s') /\ extends s s' /\
             tree_ok s' (mirror t).
Proof.
  intros Ht.
  destruct (invert_run t s s (rings_perm_refl s)) as (ws & _ & Hrun).
  exists (apply_writes ws s). split; [done|].
  assert (He : extends s (apply_writes ws s)).
  { split; [rewrite next_apply_writes; lia|].
    intros r _. apply rings_perm_apply_writes. }
  split; [done|]. unfold tree_ok. rewrite allPolygons_mirror.
  by eapply tree_ok_extends.
Qed.

(** The clones of operands are operands. *)
Lemma clones_operands ps s :
  Forall (operand s) ps ->
  exists qs s',
    mapM Polygon_clone ps s = (Ret qs, s') /\ grows s s' /\
    Forall (operand s') qs /\ length qs = length ps.
Proof.
  intros Hps.
  destruct (clones_run ps s Hps) as (qs & s1 & Hm & Hg & Hv & Ho & _).
  exists qs, s1. split; [done|]. split; [done|].
  apply Forall2_same_length_lookup in Hv as [Hlen Hv]. split; [|done].
  apply Forall_lookup_2. intros i q Hq.
  destruct (lookup_lt_is_Some_2 ps i) as [p Hp].
  { rewrite Hlen. by eapply lookup_lt_Some. }
  destruct (Hv i p q Hp Hq) as [Hrv _].
  destruct (Forall_lookup_1 _ _ _ _ Ho Hq) as (Hr & _ & _ & _ & Hvs).
  split; [split|].
  - lia.
  - eapply Forall_impl; [exact Hvs|]. intros v [? _]. simpl. lia.
  - apply (f_equal length) in Hrv. unfold ring_values in Hrv.
    rewrite !length_map in Hrv. rewrite Hrv.
    by destruct (Forall_lookup_1 _ _ _ _ Hps Hp).
Qed.

Lemma tree_of_operands c s :
  Forall (operand s) (polygons c) ->
  exists a s',
    tree_of c s = (Ret a, s') /\ grows s s' /\ tree_ok s' a /\ is_node a.
Proof.
  intros Hps. destruct (clones_operands _ s Hps) as (qs & s1 & Hm & Hg & Hqs & _).
  destruct (build_operands (length qs) empty_node qs s1 I (le_n _))
    as (a & s2 & Hb & Hg2 & Ha & Hn); [constructor | done |].
  exists a, s2. unfold tree_of, CSG_clone.
  unfold bind at 1. unfold bind at 1. rewrite Hm. simpl.
  split; [exact Hb|]. split; [by eapply grows_trans | done].
Qed.

Ltac chain_extends :=
  repeat (eapply extends_trans; [eassumption|]); apply extends_refl.

Lemma union_operands this csg s :
  Forall (operand s) (polygons this) -> Forall (operand s) (polygons csg) ->
  exists c s', union this csg s = (Ret c, s') /\ extends s s' /\
               Forall (operand s') (polygons c).
Proof.
  intros Hthis Hcsg. unfold union.
  destruct (tree_of_operands this s Hthis) as (a & s1 & E1 & G1 & Ta1 & Na).
  apply grows_extends in G1.
  destruct (tree_of_operands csg s1) as (b & s2 & E2 & G2 & Tb2 & Nb);
    [by eapply operands_extend|]. apply grows_extends in G2.
  assert (Ta2 := tree_ok_extends _ _ _ G2 Ta1).
  destruct (clipTo_operands a b s2 Ta2) as (a1 & s3 & E3 & G3 & Ta3 & Sa & _).
  apply grows_extends in G3. assert (Tb3 := tree_ok_extends _ _ _ G3 Tb2).
  destruct (clipTo_operands b a1 s3 Tb3) as (b1 & s4 & E4 & G4 & Tb4 & _ & _).
  apply grows_extends in G4. assert (Ta4 := tree_ok_extends _ _ _ G4 Ta3).
  destruct (invert_operands b1 s4 Tb4) as (s5 & E5 & G5 & Tb5).
  assert (Ta5 := tree_ok_extends _ _ _ G5 Ta4).
  destruct (clipTo_operands (mirror b1) a1 s5 Tb5)
    as (b2 & s6 & E6 & G6 & Tb6 & _ & _).
  apply grows_extends in G6. assert (Ta6 := tree_ok_extends _ _ _ G6 Ta5).
  destruct (invert_operands b2 s6 Tb6) as (s7 & E7 & G7 & Tb7).
  assert (Ta7 := tree_ok_extends _ _ _ G7 Ta6).
  destruct (build_operands (length (allPolygons (mirror b2))) a1
              (allPolygons (mirror b2)) s7) as (a2 & s8 & E8 & G8 & Ta8 & _);
    [by eapply same_shape_is_node | done | done | done |].
  apply grows_extends in G8.
  exists (mkCSG (allPolygons a2)), s8.
  rewrite (bind_Ret _ _ _ _ _ E1), (bind_Ret _ _ _ _ _ E2),
    (bind_Ret _ _ _ _ _ E3), (bind_Ret _ _ _ _ _ E4), (bind_Ret _ _ _ _ _ E5),
    (bind_Ret _ _ _ _ _ E6), (bind_Ret _ _ _ _ _ E7).
  unfold build in E8 |- *. rewrite (bind_Ret _ _ _ _ _ E8).
  split; [done|]. split; [chain_extends | exact Ta8].
Qed.

Lemma subtract_operands this csg s :
  Forall (operand s) (polygons this) -> Forall (operand s) (polygons csg) ->
  exists c s', subtract this csg s = (Ret c, s') /\ extends s s' /\
               Forall (operand s') (polygons c).
Proof.
  intros Hthis Hcsg. unfold subtract.
  destruct (tree_of_operands this s Hthis) as (a & s1 & E1 & G1 & Ta1 & Na).
  apply grows_extends in G1.
  destruct (tree_of_operands csg s1) as (b & s2 & E2 & G2 & Tb2 & Nb);
    [by eapply operands_extend|]. apply grows_extends in G2.
  assert (Ta2 := tree_ok_extends _ _ _ G2 Ta1).
  destruct (invert_operands a s2 Ta2) as (s3 & E3 & G3 & Ta3).
  assert (Tb3 := tree_ok_extends _ _ _ G3 Tb2).
  destruct (clipTo_operands (mirror a) b s3 Ta3)
    as (a1 & s4 & E4 & G4 & Ta4 & Sa & _).
  apply grows_extends in G4. assert (Tb4 := tree_ok_extends _ _ _ G4 Tb3).
  destruct (clipTo_operands b a1 s4 Tb4) as (b1 & s5 & E5 & G5 & Tb5 & _ & _).
  apply grows_extends in G5. assert (Ta5 := tree_ok_extends _ _ _ G5 Ta4).
  destruct (invert_operands b1 s5 Tb5) as (s6 & E6 & G6 & Tb6).
  assert (Ta6 := tree_ok_extends _ _ _ G6 Ta5).
  destruct (clipTo_operands (mirror b1) a1 s6 Tb6)
    as (b2 & s7 & E7 & G7 & Tb7 & _ & _).
  apply grows_extends in G7. assert (Ta7 := tree_ok_extends _ _ _ G7 Ta6).
  destruct (invert_operands b2 s7 Tb7) as (s8 & E8 & G8 & Tb8).
  assert (Ta8 := tree_ok_extends _ _ _ G8 Ta7).
  destruct (build_operands (length (allPolygons (mirror b2))) a1
              (allPolygons (mirror b2)) s8) as (a2 & s9 & E9 & G9 & Ta9 & _);
    [|done|done|done|].
  { eapply same_shape_is_node; [done|]. by apply mirror_is_node. }
  apply grows_extends in G9.
  destruct (invert_operands a2 s9 Ta9) as (s10 & E10 & G10 & Ta10).
  exists (mkCSG (allPolygons (mirror a2))), s10.
  rewrite (bind_Ret _ _ _ _ _ E1), (bind_Ret _ _ _ _ _ E2),
    (bind_Ret _ _ _ _ _ E3), (bind_Ret _ _ _ _ _ E4), (bind_Ret _ _ _ _ _ E5),
    (bind_Ret _ _ _ _ _ E6), (bind_Ret _ _ _ _ _ E7), (bind_Ret _ _ _ _ _ E8).
  unfold build in E9 |- *.
  rewrite (bind_Ret _ _ _ _ _ E9), (bind_Ret _ _ _ _ _ E10).
  split; [done|]. split; [chain_extends | exact Ta10].
Qed.

Lemma intersect_operands this csg s :
  Forall (operand s) (polygons this) -> Forall (operand s) (polygons csg) ->
  exists c s', intersect this csg s = (Ret c, s') /\ extends s s' /\
               Forall (operand s') (polygons c).
Proof.
  intros Hthis Hcsg. unfold intersect.
  destruct (tree_of_operands this s Hthis) as (a & s1 & E1 & G1 & Ta1 & Na).
  apply grows_extends in G1.
  destruct (tree_of_operands csg s1) as (b & s2 & E2 & G2 & Tb2 & Nb);
    [by eapply operands_extend|]. apply grows_extends in G2.
  assert (Ta2 := tree_ok_extends _ _ _ G2 Ta1).
  destruct (invert_operands a s2 Ta2) as (s3 & E3 & G3 & Ta3).
  assert (Tb3 := tree_ok_extends _ _ _ G3 Tb2).
  destruct (clipTo_operands b (mirror a) s3 Tb3)
    as (b1 & s4 & E4 & G4 & Tb4 & _ & _).
  apply grows_extends in G4. assert (Ta4 := tree_ok_extends _ _ _ G4 Ta3).
  destruct (invert_operands b1 s4 Tb4) as (s5 & E5 & G5 & Tb5).
  assert (Ta5 := tree_ok_extends _ _ _ G5 Ta4).
  destruct (clipTo_operands (mirror a) (mirror b1) s5 Ta5)
    as (a1 & s6 & E6 & G6 & Ta6 & Sa & _).
  apply grows_extends in G6. assert (Tb6 := tree_ok_extends _ _ _ G6 Tb5).
  destruct (clipTo_operands (mirror b1) a1 s6 Tb6)
    as (b2 & s7 & E7 & G7 & Tb7 & _ & _).
  apply grows_extends in G7. assert (Ta7 := tree_ok_extends _ _ _ G7 Ta6).
  destruct (build_operands (length (allPolygons b2)) a1
              (allPolygons b2) s7) as (a2 & s8 & E8 & G8 & Ta8 & _);
    [|done|done|done|].
  { eapply same_shape_is_node; [done|]. by apply mirror_is_node. }
  apply grows_extends in G8.
  destruct (invert_operands a2 s8 Ta8) as (s9 & E9 & G9 & Ta9).
  exists (mkCSG (allPolygons (mirror a2))), s9.
  rewrite (bind_Ret _ _ _ _ _ E1), (bind_Ret _ _ _ _ _ E2),
    (bind_Ret _ _ _ _ _ E3), (bind_Ret _ _ _ _ _ E4), (bind_Ret _ _ _ _ _ E5),
    (bind_Ret _ _ _ _ _ E6), (bind_Ret _ _ _ _ _ E7).
  unfold build in E8 |- *.
  rewrite (bind_Ret _ _ _ _ _ E8), (bind_Ret _ _ _ _ _ E9).
  split; [done|]. split; [chain_extends | exact Ta9].
Qed.

Lemma inverse_operands this s :
  Forall (operand s) (polygons this) ->
  exists c s', inverse this s = (Ret c, s') /\ extends s s' /\
               Forall (operand s') (polygons c).
Proof.
  intros Hthis. unfold inverse, CSG_clone.
  destruct (clones_operands _ s Hthis) as (qs & s1 & Hm & Hg & Hqs & _).
  apply grows_extends in Hg.
  destruct (flips_run qs s1 s1 (rings_perm_refl s1)) as (ws & _ & Hrun).
  exists (mkCSG qs), (apply_writes ws s1).
  assert (He : extends s1 (apply_writes ws s1)).
  { split; [rewrite next_apply_writes; lia|].
    intros r _. apply rings_perm_apply_writes. }
  split.
  { unfold bind, ret. rewrite Hm. simpl. by rewrite Hrun. }
  split; [by eapply extends_trans|]. simpl. by eapply operands_extend.
Qed.

(** ** What flip and invert leave alone *)

Lemma negations_keep n v :
  position (Nat.iter n negate_normal v) = position v /\
  uv (Nat.iter n negate_normal v) = uv v.
Proof. induction n as [|n [IHp IHu]]; [done|]. simpl. by rewrite IHp, IHu. Qed.

Lemma apply_writes_keep ws s a :
  position (vertex_at (apply_writes ws s) a) = position (vertex_at s a) /\
  uv (vertex_at (apply_writes ws s) a) = uv (vertex_at s a).
Proof.
  unfold vertex_at. rewrite !lookup_total_alt.
  rewrite (proj1 (lookup_apply_writes ws s a)).
  destruct (vertex_of s !! a) as [v|]; simpl; [apply negations_keep | done].
Qed.

(** X3: the whole effect of [polygon.flip()] on the heap, for any polygon:
    its array is reversed, its plane object negated, and the normal of a
    vertex object is negated once for each time the array holds it; nothing
    else is written and nothing is allocated. *)
Theorem Polygon_flip_writes (p : Polygon) (s : Store) :
  exists s',
    Polygon_flip p s = (Ret tt, s') /\ next s' = next s /\
    (forall r, ring_of s' !! r
               = if decide (r = vertices p) then @rev positive <$> ring_of s !! r
                 else ring_of s !! r) /\
    (forall a, plane_of s' !! a
               = if decide (a = plane p) then negate_plane <$> plane_of s !! a
                 else plane_of s !! a) /\
    (forall v, vertex_of s' !! v
               = Nat.iter (occurrences v (ring_at s (vertices p))) negate_normal
                 <$> vertex_of s !! v).
Proof.
  exists (apply_writes (flip_writes s p) s).
  split; [apply flip_run|]. split; [apply next_apply_writes|].
  split; [|split].
  - intros r. rewrite (proj1 (proj2 (lookup_apply_writes _ s r))).
    rewrite flip_writes_rev. case_decide; simpl; [done|].
    by rewrite option_fmap_id.
  - intros a. rewrite (proj2 (proj2 (lookup_apply_writes _ s a))).
    rewrite flip_writes_plane. case_decide; simpl; [done|].
    by rewrite option_fmap_id.
  - intros v. rewrite (proj1 (lookup_apply_writes _ s v)).
    by rewrite flip_writes_normal.
Qed.

(** X4: flip as a caller sees it, on a polygon whose objects are in the
    store and whose array holds no vertex twice: the vertices come back in
    reverse order with the same positions and uvs and negated normals, and
    the plane is negated. *)
Theorem Polygon_flip_values (q : Polygon) (s : Store) :
  owned 1 (next s) s q -> NoDup (ring_at s (vertices q)) ->
  exists s',
    Polygon_flip q s = (Ret tt, s') /\
    ring_values s' q = rev (negate_normal <$> ring_values s q) /\
    polygon_plane s' q = negate_plane (polygon_plane s q).
Proof.
  intros Hown Hnd. exists (apply_writes (flip_writes s q) s).
  split; [apply flip_run|].
  destruct (flips_effect 1 (next s) [q] s q) as (Hrv & Hpl & _).
  - split; [|split]; simpl; rewrite ?app_nil_r; try done;
      apply NoDup_singleton.
  - by apply Forall_singleton.
  - by apply list_elem_of_singleton.
  - simpl in Hrv, Hpl. rewrite app_nil_r in Hrv, Hpl. done.
Qed.

(** X5: [node.invert()] never throws and allocates nothing; it returns the
    tree with front and back exchanged at every node, holding the same
    polygon objects; every array keeps its vertices up to order; and no
    vertex position or uv anywhere in the store changes. *)
Theorem invert_keeps_geometry (t : BSPNode) (s : Store) :
  exists s',
    invert t s = (Ret (mirror t), s') /\ next s' = next s /\
    allPolygons (mirror t) ≡ₚ allPolygons t /\
    (forall r, ring_at s r ≡ₚ ring_at s' r) /\
    (forall a, position (vertex_at s' a) = position (vertex_at s a) /\
               uv (vertex_at s' a) = uv (vertex_at s a)).
Proof.
  destruct (invert_run t s s (rings_perm_refl s)) as (ws & _ & Hrun).
  exists (apply_writes ws s). split; [done|].
  split; [apply next_apply_writes|]. split; [apply allPolygons_mirror|].
  split; [apply rings_perm_apply_writes | apply apply_writes_keep].
Qed.

(** ** Further properties of the engine *)

(** X1: [polygon.clone()] on a polygon with at least three allocated
    vertices returns a polygon on objects of its own: a new array of new
    vertex objects, no two the same even if the original array held a vertex
    twice, with the values of the original in the same order, and a new
    plane computed from the first three of them.  Nothing that existed is
    written. *)
Theorem Polygon_clone_copies (p : Polygon) (s : Store) :
  operand s p ->
  exists q s',
    Polygon_clone p s = (Ret q, s') /\ grows s s' /\
    ring_values s' q = ring_values s p /\
    Some (polygon_plane s' q) = plane_of_values (ring_values s p) /\
    (next s <= vertices q)%positive /\ (next s <= plane q)%positive /\
    Forall (fun v => (next s <= v)%positive) (ring_at s' (vertices q)) /\
    NoDup (ring_at s' (vertices q)).
Proof.
  intros Hp.
  destruct (Polygon_clone_run p s Hp)
    as (q & s' & Hrun & Hg & [Hrv Hpl] & (Hr & Hpq & _ & _ & Hvs) & Hnd).
  exists q, s'. split; [done|]. split; [done|]. split; [done|].
  split; [done|]. split; [lia|]. split; [lia|]. split; [|done].
  eapply Forall_impl; [exact Hvs|]. intros v [? _]. simpl. lia.
Qed.

(** X2: [csg.clone()] is a deep copy: polygon by polygon the clone has the
    vertex values of the original and the plane its first three vertices
    define, every object of the clone is new, and no two polygons of the
    clone share an array, a plane object or a vertex object, even where the
    polygons of the original do. *)
Theorem CSG_clone_separate (c : CSG) (s : Store) :
  Forall (operand s) (polygons c) ->
  exists c' s',
    CSG_clone c s = (Ret c', s') /\ grows s s' /\
    Forall2 (fun p q => has_values s' (ring_values s p) q)
            (polygons c) (polygons c') /\
    Forall (owned (next s) (next s') s') (polygons c') /\
    separate s' (polygons c').
Proof.
  intros Hps.
  destruct (clones_run _ s Hps) as (qs & s' & Hm & Hg & Hv & Ho & Hsep).
  exists (mkCSG qs), s'. unfold CSG_clone.
  by rewrite (bind_Ret _ _ _ _ _ Hm).
Qed.

(** X7: a polygon with a vertex in front of the plane and a vertex behind
    it always becomes exactly two polygons, one pushed to front and one to
    back, each with at least three vertices: the guards [f.length >= 3] and
    [b.length >= 3] never drop a piece, and the polygon itself is pushed
    nowhere. *)
Theorem splitPolygon_spanning_pieces (a : positive) (p : Polygon)
    (cf cb f b : nat) (env : list (list Polygon)) (s : Store) :
  Forall (fun v => (v < next s)%positive) (ring_at s (vertices p)) ->
  has FRONT (classify (plane_at s a) <$> ring_values s p) = true ->
  has BACK (classify (plane_at s a) <$> ring_values s p) = true ->
  exists qf qb s',
    splitPolygon a p cf cb f b env s = (Ret (push b qb (push f qf env)), s') /\
    grows s s' /\
    ring_values s' qf = front_ring (plane_at s a) (ring_values s p) /\
    ring_values s' qb = back_ring (plane_at s a) (ring_values s p) /\
    3 <= length (ring_values s' qf) /\ 3 <= length (ring_values s' qb).
Proof.
  intros Hvs HF HB.
  destruct (splitPolygon_run a p cf cb f b env s Hvs)
    as (_ & env' & s' & Hrun & Hg & Hcase).
  rewrite HF, HB in Hcase. destruct Hcase as (fs & bs & Hfs & Hbs & ->).
  destruct (split_rings_length _ _ HF HB) as [HlF HlB].
  unfold emitted in Hfs, Hbs.
  rewrite (proj2 (Nat.leb_le _ _) HlF) in Hfs.
  rewrite (proj2 (Nat.leb_le _ _) HlB) in Hbs.
  destruct Hfs as (qf & -> & _ & Hrf & _). destruct Hbs as (qb & -> & _ & Hrb & _).
  exists qf, qb, s'. split; [exact Hrun|]. split; [done|].
  split; [done|]. split; [done|]. by rewrite Hrf, Hrb.
Qed.

(** X10: clipPolygons never removes a polygon: whatever the tree, the list
    it returns is at least as long as the list it was given, and all its
    polygons have at least three allocated vertices; it only allocates. *)
Theorem clipPolygons_never_discards (t : BSPNode) (polys : list Polygon)
    (s : Store) :
  Forall (operand s) polys ->
  exists res s',
    clipPolygons t polys s = (Ret res, s') /\ grows s s' /\
    length polys <= length res /\ Forall (operand s') res.
Proof.
  intros Hps.
  destruct (clipPolygons_operands t polys s Hps) as (res & s' & Hrun & Hg & Hok & Hl).
  by exists res, s'.
Qed.

(** X12: [a.clipTo(b)] keeps the nodes, planes and children of a, changes
    only the polygon arrays of its nodes, and removes nothing: the tree has
    at least as many polygons afterwards. *)
Theorem clipTo_never_discards (t bsp : BSPNode) (s : Store) :
  tree_ok s t ->
  exists t' s',
    clipTo t bsp s = (Ret t', s') /\ grows s s' /\ same_shape t t' /\
    length (allPolygons t) <= length (allPolygons t') /\ tree_ok s' t'.
Proof.
  intros Ht.
  destruct (clipTo_operands t bsp s Ht) as (t' & s' & Hrun & Hg & Hok & Hs & Hl).
  by exists t', s'.
Qed.

(** X17: the results of the four operations are operands again.  On CSG
    values whose polygons have at least three allocated vertices, union,
    subtract, intersect and inverse return a CSG value whose polygons all
    have at least three allocated vertices, in a store where every array
    that existed holds the vertices it held. *)
Theorem operations_closed (this csg : CSG) (s : Store) :
  Forall (operand s) (polygons this) -> Forall (operand s) (polygons csg) ->
  (exists c s', union this csg s = (Ret c, s') /\ extends s s' /\
                Forall (operand s') (polygons c)) /\
  (exists c s', subtract this csg s = (Ret c, s') /\ extends s s' /\
                Forall (operand s') (polygons c)) /\
  (exists c s', intersect this csg s = (Ret c, s') /\ extends s s' /\
                Forall (operand s') (polygons c)) /\
  (exists c s', inverse this s = (Ret c, s') /\ extends s s' /\
                Forall (operand s') (polygons c)).
Proof.
  intros Hthis Hcsg.
  split; [by apply union_operands|]. split; [by apply subtract_operands|].
  split; [by apply intersect_operands | by apply inverse_operands].
Qed.

(** X19: with a second operand that has no polygons, union and subtract
    return what intersect returns: the flattened polygon list of the tree
    built from the clones of the first operand. *)
Theorem union_subtract_with_empty (this csg : CSG) (s : Store) :
  negation_involutive -> polygons csg = [] ->
  union this csg s
  = (do a <- tree_of this; ret (fromPolygons (allPolygons a))) s /\
  subtract this csg s
  = (do a <- tree_of this; ret (fromPolygons (allPolygons a))) s.
Proof.
  intros Hneg Hnil. unfold union, subtract.
  destruct (tree_of this s) as [[a|e] s1] eqn:Ea;
    [|by rewrite !(bind_Throw _ _ _ _ _ Ea)].
  rewrite !(bind_Ret _ _ _ _ _ Ea).
  assert (Ha := total_tree_node _ _ _ _ Ea).
  rewrite !(bind_Ret _ _ _ _ _ (tree_of_empty csg s1 Hnil)).
  assert (Hie : forall s0, invert empty_node s0 = (Ret empty_node, s0)) by done.
  split.
  - rewrite (bind_Ret _ _ _ _ _ (clipTo_leaf _ s1)).
    rewrite (bind_Ret _ _ _ _ _ (clipTo_empty_node _ s1)).
    rewrite (bind_Ret _ _ _ _ _ (Hie s1)).
    rewrite (bind_Ret _ _ _ _ _ (clipTo_empty_node _ s1)).
    rewrite (bind_Ret _ _ _ _ _ (Hie s1)).
    by rewrite (bind_Ret _ _ _ _ _ (build_nil _ s1 Ha)).
  - destruct (invert_invert a s1 Hneg) as (s2 & Hi1 & Hi2).
    rewrite (bind_Ret _ _ _ _ _ Hi1).
    rewrite (bind_Ret _ _ _ _ _ (clipTo_leaf _ s2)).
    rewrite (bind_Ret _ _ _ _ _ (clipTo_empty_node _ s2)).
    rewrite (bind_Ret _ _ _ _ _ (Hie s2)).
    rewrite (bind_Ret _ _ _ _ _ (clipTo_empty_node _ s2)).
    rewrite (bind_Ret _ _ _ _ _ (Hie s2)).
    rewrite (bind_Ret _ _ _ _ _ (build_nil _ s2 (mirror_is_node _ Ha))).
    by rewrite (bind_Ret _ _ _ _ _ Hi2).
Qed.

(** X20: with a first operand that has no polygons, union returns the
    second operand rebuilt: the flattened polygon list of a tree built from
    the polygons of the tree built from its clones. *)
Theorem union_of_empty (this csg : CSG) (s : Store) :
  negation_involutive -> polygons this = [] ->
  union this csg s
  = (do b <- tree_of csg;
     do a <- build empty_node (allPolygons b);
     ret (fromPolygons (allPolygons a))) s.
Proof.
  intros Hneg Hnil. unfold union.
  rewrite (bind_Ret _ _ _ _ _ (tree_of_empty this s Hnil)).
  destruct (tree_of csg s) as [[b|e] s1] eqn:Eb;
    [|by rewrite !(bind_Throw _ _ _ _ _ Eb)].
  rewrite !(bind_Ret _ _ _ _ _ Eb).
  rewrite (bind_Ret _ _ _ _ _ (clipTo_empty_node _ s1)).
  rewrite (bind_Ret _ _ _ _ _ (clipTo_leaf _ s1)).
  destruct (invert_invert b s1 Hneg) as (s2 & Hi1 & Hi2).
  rewrite (bind_Ret _ _ _ _ _ Hi1).
  rewrite (bind_Ret _ _ _ _ _ (clipTo_leaf _ s2)).
  by rewrite (bind_Ret _ _ _ _ _ Hi2).
Qed.

(** ** When fromGeometry returns *)

Lemma faces_run_iff points uvs faces :
  faces_run points uvs 0 faces
  <-> Forall (face_valid points uvs) faces /\ first_face_long faces.
Proof.
  assert (Hlater : forall n faces, 3 <= n ->
            (faces_run points uvs n faces <-> Forall (face_valid points uvs) faces)).
  { intros n fs. revert n. induction fs as [|f fs IH]; intros n Hn; simpl.
    - split; [constructor | done].
    - rewrite Forall_cons. rewrite (IH (n + length (face_vertices f))%nat) by lia.
      split; [by intros (? & _ & ?) | intros [? ?]].
      split; [done|]. split; [lia | done]. }
  destruct faces as [|f fs]; simpl.
  - split; [by split | done].
  - rewrite Forall_cons. split.
    + intros (Hv & Hl & Hr). rewrite Hlater in Hr by lia. done.
    + intros ([Hv Hr] & Hl). rewrite Hlater by lia. done.
Qed.

Lemma only_bind {A B} (m : M Store A) (k : A -> M Store B) :
  only_TypeError m -> (forall a, only_TypeError (k a)) ->
  only_TypeError (bind m k).
Proof.
  intros Hm Hk s e s'. unfold bind.
  destruct (m s) as [[a|e1] s1] eqn:E.
  - apply Hk.
  - intros [= <- <-]. by eapply Hm.
Qed.

Lemma only_ret {A} (a : A) : only_TypeError (ret a).
Proof. by intros s e s'. Qed.

Lemma only_throw {A} : only_TypeError (throw (A := A) TypeError).
Proof. by intros s e s' [= <- _]. Qed.

Lemma only_total {A} (Q : A -> Prop) (m : M Store A) :
  total Q m -> only_TypeError m.
Proof. intros Hm s e s' E. destruct (Hm s) as (a & s1 & E' & _). congruence. Qed.

Lemma only_foldM {A B} (f : B -> A -> M Store B) l b :
  (forall b a, only_TypeError (f b a)) -> only_TypeError (foldM f b l).
Proof.
  intros Hf. revert b. induction l as [|a l IH]; intros b; simpl.
  - apply only_ret.
  - apply only_bind; [apply Hf | intros b'; apply IH].
Qed.

Lemma only_forM_i {A} (f : nat -> A -> M Store unit) l i :
  (forall i a, only_TypeError (f i a)) -> only_TypeError (forM_i i l f).
Proof.
  intros Hf. revert i. induction l as [|a l IH]; intros i; simpl.
  - apply only_ret.
  - apply only_bind; [apply Hf | intros _; apply IH].
Qed.

Lemma only_Polygon_new r : only_TypeError (Polygon_new r).
Proof.
  intros s e s' E.
  destruct (decide (3 <= length (ring_at s r))) as [Hl|Hl].
  - destruct (Polygon_new_returns s r Hl) as [pl Hp]. congruence.
  - rewrite Polygon_new_throws in E by lia. congruence.
Qed.

Lemma only_face_vertex points normals uvs face fv i idx :
  only_TypeError (face_vertex points normals uvs face fv i idx).
Proof.
  unfold face_vertex. apply only_bind.
  - destruct uvs; [destruct (face_uvs face)|];
      auto using only_ret, only_throw.
  - intros uv0. destruct (points !! idx); [|apply only_throw].
    apply only_bind; [|intros a; eapply only_total; apply total_modify_ring].
    eapply only_total. apply total_Vertex_new.
Qed.

Lemma only_fromGeometry points faces normals uvs :
  only_TypeError (fromGeometry points faces normals uvs).
Proof.
  unfold fromGeometry. apply only_bind.
  { eapply only_total. apply total_new_ring. }
  intros fv. apply only_bind; [|intros; apply only_ret].
  apply only_foldM. intros ps face. apply only_bind.
  - apply only_forM_i. intros. apply only_face_vertex.
  - intros _. apply only_bind; [apply only_Polygon_new | intros; apply only_ret].
Qed.

(** One iteration of the inner loop returns only for an index within the
    point array and, when uvs are given, a face with uv indices. *)
Lemma face_vertex_returned points normals uvs face fv i idx s s' :
  face_vertex points normals uvs face fv i idx s = (Ret tt, s') ->
  idx < length points /\ (is_Some uvs -> is_Some (face_uvs face)).
Proof.
  unfold face_vertex. intros E.
  apply bind_returns in E as (uv0 & s1 & Euv & E). split.
  - destruct (points !! idx) eqn:Ep; [by eapply lookup_lt_Some | done].
  - intros [us ->]. destruct (face_uvs face); [by eexists | done].
Qed.

Lemma face_loop_returned points normals uvs face fv idxs :
  forall i s s',
    forM_i i idxs (face_vertex points normals uvs face fv) s = (Ret tt, s') ->
    Forall (fun k => k < length points) idxs /\
    (is_Some uvs -> idxs <> [] -> is_Some (face_uvs face)).
Proof.
  induction idxs as [|idx idxs IH]; intros i s s' E; [by split|].
  simpl in E. apply bind_returns in E as ([] & s1 & E1 & E).
  apply face_vertex_returned in E1 as [Hidx Huv].
  apply IH in E as [Hidxs _]. split; [by constructor | auto].
Qed.

Lemma face_loop_runs points normals uvs face fv s l :
  (fv < next s)%positive -> ring_of s !! fv = Some l ->
  face_valid points uvs face ->
  exists l' s',
    forM_i 0 (face_vertices face) (face_vertex points normals uvs face fv) s
    = (Ret tt, s') /\
    (fv < next s')%positive /\ ring_of s' !! fv = Some (l ++ l') /\
    length l' = length (face_vertices face).
Proof.
  intros Hfv Hl [Hidxs Huv].
  destruct (face_vertices face) as [|idx idxs] eqn:E.
  - exists [], s. by rewrite app_nil_r.
  - rewrite <- E in *. apply face_loop_appends; try done.
    intros Hu. apply Huv; [done|]. by rewrite E.
Qed.

(** The loop of fromGeometry over the faces, from an array that holds the
    vertices [l]. *)
Lemma faces_loop points normals uvs fv faces :
  forall ps0 s l,
    (fv < next s)%positive -> ring_of s !! fv = Some l ->
    let body := fun ps face =>
      forM_i 0 (face_vertices face) (face_vertex points normals uvs face fv) >>
      do p <- Polygon_new fv; ret (ps ++ [p]) in
    (faces_run points uvs (length l) faces ->
     exists ps s' l',
       foldM body ps0 faces s = (Ret (ps0 ++ ps), s') /\
       length ps = length faces /\ Forall (fun p => vertices p = fv) ps /\
       ring_of s' !! fv = Some (l ++ l') /\
       length l' = length (faces ≫= face_vertices)) /\
    (returns (foldM body ps0 faces) s -> faces_run points uvs (length l) faces).
Proof.
  induction faces as [|face faces IH]; intros ps0 s l Hfv Hl body.
  - split; [|done]. intros _. exists [], s, []. by rewrite !app_nil_r.
  - split.
    + intros (Hvalid & Hlen & Hrest).
      destruct (face_loop_runs points normals uvs face fv s l Hfv Hl Hvalid)
        as (l1 & s1 & E1 & Hfv1 & Hl1 & Hlen1).
      destruct (Polygon_new_returns s1 fv) as [pl Ep].
      { unfold ring_at. rewrite Hl1. simpl. rewrite length_app. lia. }
      set (s2 := mkStore _ _ _ _) in Ep.
      destruct (IH (ps0 ++ [mkPolygon fv (next s1)]) s2 (l ++ l1)) as [Hrun _].
      { subst s2. simpl. lia. }
      { subst s2. done. }
      destruct Hrun as (ps & s3 & l2 & E3 & Hps & Hshare & Hl3 & Hlen3).
      { rewrite length_app, Hlen1. done. }
      exists (mkPolygon fv (next s1) :: ps), s3, (l1 ++ l2).
      split; [|split; [|split; [|split]]].
      * assert (Hbody : body ps0 face s
                          = (Ret (ps0 ++ [mkPolygon fv (next s1)]), s2)).
        { unfold body. rewrite (bind_Ret _ _ _ _ _ E1).
          by rewrite (bind_Ret _ _ _ _ _ Ep). }
        change (foldM body ps0 (face :: faces))
          with (bind (body ps0 face) (fun b' => foldM body b' faces)).
        rewrite (bind_Ret _ _ _ _ _ Hbody). unfold body. rewrite E3.
        by rewrite <- app_assoc.
      * simpl. by rewrite Hps.
      * by constructor.
      * by rewrite Hl3, <- app_assoc.
      * rewrite bind_cons, !length_app. lia.
    + intros (ps & s3 & E). simpl in E.
      apply bind_returns in E as (ps1 & s2 & E12 & E3).
      unfold body at 1 in E12.
      apply bind_returns in E12 as ([] & s1 & E1 & E2).
      apply bind_returns in E2 as (p & s2' & Ep & Eret).
      injection Eret as <- <-.
      assert (Hvalid : face_valid points uvs face).
      { by eapply face_loop_returned. }
      destruct (face_loop_runs points normals uvs face fv s l Hfv Hl Hvalid)
        as (l1 & s1' & E1' & Hfv1 & Hl1 & Hlen1).
      rewrite E1 in E1'. injection E1' as <-.
      assert (Hlen : 3 <= length l + length (face_vertices face)).
      { destruct (decide (3 <= length (ring_at s1 fv))) as [Hge|Hlt].
        - unfold ring_at in Hge. rewrite Hl1 in Hge. simpl in Hge.
          rewrite length_app in Hge. lia.
        - rewrite Polygon_new_throws in Ep by lia. done. }
      split; [done|]. split; [done|].
      destruct (Polygon_new_returns s1 fv) as [pl Ep'].
      { unfold ring_at. rewrite Hl1. simpl. rewrite length_app. lia. }
      rewrite Ep in Ep'. injection Ep' as -> ->.
      destruct (IH (ps0 ++ [mkPolygon fv (next s1)])
                  (mkStore (vertex_of s1) (ring_of s1)
                           (<[next s1 := pl]> (plane_of s1)) (Pos.succ (next s1)))
                  (l ++ l1)) as [_ Hback].
      { simpl. lia. }
      { done. }
      rewrite length_app, Hlen1 in Hback. apply Hback. by exists ps, s3.
Qed.

(** ** What fromGeometry builds *)

Lemma plane_of_values_app (l l' : list Vertex) :
  3 <= length l -> plane_of_values (l ++ l') = plane_of_values l.
Proof.
  intros Hl. unfold plane_of_values.
  by rewrite !lookup_app_l by lia.
Qed.

(** One iteration of the inner loop: a new vertex object with the value of
    [face_value], pushed onto the shared array. *)
Lemma face_vertex_value points normals uvs face fv i idx s val :
  face_value points normals uvs face i idx = Some val ->
  (is_Some uvs -> is_Some (face_uvs face)) ->
  face_vertex points normals uvs face fv i idx s
  = (Ret tt, mkStore (<[next s := val]> (vertex_of s))
                     (alter (fun l => l ++ [next s]) fv (ring_of s))
                     (plane_of s) (Pos.succ (next s))).
Proof.
  unfold face_value, face_vertex. intros Hval Huv.
  destruct (points !! idx) as [pos|]; [|done]. injection Hval as <-.
  destruct uvs as [us|].
  - destruct Huv as [fu ->]; [done|]. done.
  - done.
Qed.

Lemma face_loop_values points normals uvs face fv idxs :
  forall i s l,
    (fv < next s)%positive -> ring_of s !! fv = Some l ->
    Forall (fun a => (a < next s)%positive) l ->
    Forall (fun k => k < length points) idxs ->
    (is_Some uvs -> idxs <> [] -> is_Some (face_uvs face)) ->
    exists l' s',
      forM_i i idxs (face_vertex points normals uvs face fv) s = (Ret tt, s') /\
      grows s (mkStore (vertex_of s') (ring_of s) (plane_of s') (next s')) /\
      ring_of s' !! fv = Some (l ++ l') /\
      Forall (fun a => (a < next s')%positive) (l ++ l') /\
      (fun a => Some (vertex_at s' a)) <$> l'
      = face_values_from points normals uvs face i idxs.
Proof.
  induction idxs as [|idx idxs IH]; intros i s l Hfv Hl Hlt Hidxs Huv.
  - exists [], s. rewrite app_nil_r. split; [done|].
    split; [destruct s; apply grows_refl | done].
  - inversion Hidxs as [|? ? Hidx Hidxs']; subst.
    assert (Huv' : is_Some uvs -> is_Some (face_uvs face)) by auto.
    destruct (face_value points normals uvs face i idx) as [val|] eqn:Hval.
    2:{ unfold face_value in Hval.
        destruct (lookup_lt_is_Some_2 points idx Hidx) as [pos Hp].
        by rewrite Hp in Hval. }
    pose proof (face_vertex_value points normals uvs face fv i idx s val
                  Hval Huv') as E1.
    set (s1 := mkStore _ _ _ _) in E1.
    destruct (IH (S i) s1 (l ++ [next s]))
      as (l' & s2 & E2 & Hg & Hl2 & Hlt2 & Hvals); [..|done|by auto|].
    { subst s1. simpl. lia. }
    { subst s1. simpl. by rewrite lookup_alter_eq, Hl. }
    { subst s1. simpl. apply Forall_app. split.
      - eapply Forall_impl; [exact Hlt|]. intros a Ha. simpl in *. lia.
      - repeat constructor. lia. }
    exists (next s :: l'), s2. simpl. rewrite (bind_Ret _ _ _ _ _ E1).
    split; [done|]. rewrite <- app_assoc in Hl2, Hlt2. simpl in Hl2, Hlt2.
    destruct Hg as [Hn Hsame]. subst s1. simpl in *.
    split; [|split; [done|split; [done|]]].
    + split; simpl; [lia|]. intros a Ha. simpl.
      destruct (Hsame a) as (Hv & _ & Hp); [lia|]. simpl in Hv, Hp.
      rewrite lookup_insert_ne in Hv by lia. done.
    + f_equal; [|done]. f_equal. unfold vertex_at.
      destruct (Hsame (next s)) as (Hv & _); [lia|]. simpl in Hv.
      rewrite lookup_insert_eq in Hv. by rewrite lookup_total_alt, Hv.
Qed.

Lemma faces_loop_values points normals uvs fv faces :
  forall ps0 s l,
    (fv < next s)%positive -> ring_of s !! fv = Some l ->
    Forall (fun a => (a < next s)%positive) l ->
    faces_run points uvs (length l) faces ->
    exists ps s' l',
      foldM (fun ps face =>
               forM_i 0 (face_vertices face)
                      (face_vertex points normals uvs face fv) >>
               do p <- Polygon_new fv; ret (ps ++ [p])) ps0 faces s
      = (Ret (ps0 ++ ps), s') /\
      grows s (mkStore (vertex_of s') (ring_of s) (plane_of s') (next s')) /\
      ring_of s' !! fv = Some (l ++ l') /\
      Forall (fun a => (a < next s')%positive) (l ++ l') /\
      (fun a => Some (vertex_at s' a)) <$> l'
      = faces ≫= face_values points normals uvs /\
      Forall (fun p => vertices p = fv /\
                       Some (plane_at s' (plane p))
                       = plane_of_values (vertex_at s' <$> (l ++ l'))) ps.
Proof.
  induction faces as [|face faces IH]; intros ps0 s l Hfv Hl Hlt Hrun.
  - exists [], s, []. rewrite !app_nil_r. split; [done|].
    split; [destruct s; apply grows_refl|]. by repeat split.
  - destruct Hrun as ((Hidxs & Huv) & Hlen & Hrest).
    destruct (face_loop_values points normals uvs face fv (face_vertices face)
                0 s l Hfv Hl Hlt Hidxs Huv)
      as (l1 & s1 & E1 & Hg1 & Hl1 & Hlt1 & Hv1).
    assert (Hlen1 : length l1 = length (face_vertices face)).
    { apply (f_equal length) in Hv1. rewrite length_fmap in Hv1.
      rewrite Hv1. clear. generalize 0. 
      induction (face_vertices face) as [|? ? IHl]; intros n; simpl; auto. }
    destruct (Polygon_new_run s1 fv) as (pl & Hpl & Ep).
    { unfold ring_at. rewrite Hl1. simpl. rewrite length_app. lia. }
    set (s2 := mkStore _ _ _ _) in Ep.
    assert (Hr1 : ring_at s1 fv = l ++ l1) by (unfold ring_at; by rewrite Hl1).
    rewrite Hr1 in Hpl.
    destruct (IH (ps0 ++ [mkPolygon fv (next s1)]) s2 (l ++ l1))
      as (ps & s3 & l2 & E3 & Hg3 & Hl3 & Hlt3 & Hv3 & Hps).
    { subst s2. simpl. destruct Hg1 as [Hn _]. simpl in Hn. lia. }
    { subst s2. done. }
    { subst s2. simpl. eapply Forall_impl; [exact Hlt1|].
      intros a Ha. simpl in *. lia. }
    { rewrite length_app, Hlen1. done. }
    assert (Hbody :
      (forM_i 0 (face_vertices face) (face_vertex points normals uvs face fv) >>
       do p <- Polygon_new fv; ret (ps0 ++ [p])) s
      = (Ret (ps0 ++ [mkPolygon fv (next s1)]), s2)).
    { rewrite (bind_Ret _ _ _ _ _ E1). by rewrite (bind_Ret _ _ _ _ _ Ep). }
    exists (mkPolygon fv (next s1) :: ps), s3, (l1 ++ l2).
    split.
    { cbn [foldM]. rewrite (bind_Ret _ _ _ _ _ Hbody), E3.
      by rewrite <- app_assoc. }
    clear Hbody E1 E3 Ep.
    destruct Hg1 as [Hn1 Hsame1]. destruct Hg3 as [Hn3 Hsame3].
    subst s2. simpl in *.
    assert (Hkeep : forall a, (a < next s1)%positive ->
              vertex_at s3 a = vertex_at s1 a).
    { intros a Ha. unfold vertex_at. rewrite !lookup_total_alt.
      destruct (Hsame3 a) as (Hv & _); [lia|]. simpl in Hv. by rewrite Hv. }
    rewrite !app_assoc.
    split; [|split; [|split; [|split]]].
    + split; simpl; [lia|]. intros a Ha. simpl.
      destruct (Hsame1 a Ha) as (Hv & _ & Hp). simpl in Hv, Hp.
      destruct (Hsame3 a) as (Hv' & _ & Hp'); [lia|]. simpl in Hv', Hp'.
      rewrite lookup_insert_ne in Hp' by lia.
      rewrite Hv', Hv, Hp', Hp. done.
    + done.
    + done.
    + rewrite fmap_app. f_equal; [|exact Hv3].
      unfold face_values. rewrite <- Hv1. apply list_fmap_ext. intros j a Ha. f_equal.
      apply Hkeep. rewrite Forall_forall in Hlt1. apply Hlt1.
      apply elem_of_app. right. by eapply list_elem_of_lookup_2.
    + assert (Hplane : plane_of_values (vertex_at s3 <$> ((l ++ l1) ++ l2))
                       = Some pl).
      { rewrite fmap_app, plane_of_values_app.
        2:{ rewrite length_fmap, length_app. lia. }
        rewrite <- Hpl. f_equal. apply list_fmap_ext. intros j a Ha.
        apply Hkeep. rewrite Forall_forall in Hlt1. apply Hlt1.
        by eapply list_elem_of_lookup_2. }
      constructor; [|done]. simpl. split; [done|]. rewrite Hplane. f_equal.
      unfold plane_at. rewrite lookup_total_alt.
      destruct (Hsame3 (next s1)) as (_ & _ & Hp); [lia|]. simpl in Hp.
      by rewrite Hp, lookup_insert_eq.
Qed.

(** X21: fromMesh (fromGeometry on the fields of the mesh) returns exactly
    when every vertex index of every face is within the vertex array, every
    face with vertices has uv indices if uvs are given, and the first face
    has at least three vertex indices; later faces need not, because they
    find the vertices of the earlier faces in the shared array.  Whatever
    it throws is a TypeError. *)
Theorem fromMesh_returns_iff (mesh : Mesh) (s : Store) :
  (returns (fromMesh mesh) s <->
   Forall (face_valid (mesh_vertices mesh) (mesh_uvs mesh)) (mesh_faces mesh) /\
   first_face_long (mesh_faces mesh)) /\
  (forall e s', fromMesh mesh s = (Throw e, s') -> e = TypeError).
Proof.
  split; [|intros e s'; apply only_fromGeometry].
  unfold fromMesh, fromGeometry. rewrite <- faces_run_iff.
  unfold returns, bind at 1. simpl.
  set (s1 := mkStore _ _ _ _).
  destruct (faces_loop (mesh_vertices mesh) (mesh_normals mesh) (mesh_uvs mesh)
              (next s) (mesh_faces mesh) [] s1 [])
    as [Hfwd Hbwd]; [subst s1; simpl; lia | subst s1; simpl; by rewrite lookup_insert_eq |].
  simpl in Hfwd, Hbwd. split.
  - intros (c & s' & E). apply Hbwd.
    apply bind_returns in E as (ps & s2 & E & _). by exists ps, s2.
  - intros Hrun. destruct (Hfwd Hrun) as (ps & s2 & l' & E & _).
    rewrite (bind_Ret _ _ _ _ _ E). simpl. eauto.
Qed.

(** X22: what fromGeometry returns when it returns: one polygon per face,
    but every polygon holds the same array, which holds a vertex for every
    vertex index of every face, in order, each with the point at its index,
    the normal at its index or the zero vector, and the uv pair at the
    face's uv index or [[0, 0]]; and every polygon has the plane of the
    first three vertices of that array.  With one face this is the polygon
    of the face. *)
Theorem fromGeometry_builds (points : list Vec3) (faces : list Face)
    (normals : option (list Vec3)) (uvs : option (list (R * R))) (s : Store) :
  Forall (face_valid points uvs) faces -> first_face_long faces ->
  exists c s' vals,
    fromGeometry points faces normals uvs s = (Ret c, s') /\
    length (polygons c) = length faces /\
    Some <$> vals = faces ≫= face_values points normals uvs /\
    Forall (fun p => vertices p = next s /\ has_values s' vals p) (polygons c).
Proof.
  intros Hvalid Hfirst.
  assert (Hrun : faces_run points uvs 0 faces) by (by apply faces_run_iff).
  unfold fromGeometry. unfold bind at 1. simpl.
  set (s1 := mkStore _ _ _ _).
  assert (Hfv : (next s < next s1)%positive) by (subst s1; simpl; lia).
  assert (Hl : ring_of s1 !! next s = Some []).
  { subst s1. simpl. by rewrite lookup_insert_eq. }
  destruct (faces_loop points normals uvs (next s) faces [] s1 [] Hfv Hl)
    as [Hcount _].
  destruct (Hcount Hrun) as (ps0 & s0 & l0 & E0 & Hlen & _).
  destruct (faces_loop_values points normals uvs (next s) faces [] s1 []
              Hfv Hl (Forall_nil_2 _) Hrun)
    as (ps & s' & l' & E & _ & Hring & _ & Hvals & Hps).
  simpl in E0, E, Hring, Hps. rewrite E in E0. injection E0 as <- <-.
  exists (mkCSG ps), s', (vertex_at s' <$> l').
  rewrite (bind_Ret _ _ _ _ _ E). split; [done|]. split; [done|].
  split; [by rewrite <- list_fmap_compose|].
  eapply Forall_impl; [exact Hps|]. intros p [Hv Hp]. simpl in *.
  split; [done|]. unfold has_values, ring_values, polygon_plane, ring_at.
  rewrite Hv, Hring. done.
Qed.

(** ** What build keeps *)

Lemma total_conj {St A} (Q1 Q2 : A -> Prop) (m : M St A) :
  total Q1 m -> total Q2 m -> total (fun a => Q1 a /\ Q2 a) m.
Proof.
  intros H1 H2 s. destruct (H1 s) as (a & s' & E & Ha).
  destruct (H2 s) as (a' & s'' & E' & Ha'). rewrite E in E'.
  injection E' as <- <-. by exists a, s'.
Qed.

Lemma slots_grow_refl env : slots_grow env env.
Proof. by intros k. Qed.

Lemma slots_grow_trans env1 env2 env3 :
  slots_grow env1 env2 -> slots_grow env2 env3 -> slots_grow env1 env3.
Proof. intros H12 H23 k. etrans; [apply H12 | apply H23]. Qed.

Lemma push_grows i p env : slots_grow env (push i p env).
Proof.
  intros k. unfold push. destruct (decide (k = i)) as [->|Hne].
  - destruct (decide (i < length env)) as [Hlt|Hge].
    + rewrite list_lookup_total_alter_eq by done. by apply prefix_app_r.
    + rewrite !list_lookup_total_alt, list_lookup_alter_eq.
      by rewrite lookup_ge_None_2 by lia.
  - by rewrite list_lookup_total_alter_ne.
Qed.

Lemma total_emit_grows slot ring env :
  total (slots_grow env) (emit slot ring env).
Proof.
  unfold emit. destruct (3 <=? length ring) eqn:E.
  - intros s. apply Nat.leb_le in E.
    destruct (Polygon_new_returns (new_ring ring s).2 (next s)) as [pl Hp].
    { by rewrite ring_at_new_ring. }
    unfold bind at 1. simpl. unfold bind. simpl in Hp. rewrite Hp.
    eexists _, _. split; [reflexivity|]. apply push_grows.
  - apply total_ret. apply slots_grow_refl.
Qed.

Lemma total_splitPolygon_grows a p cf cb f b env :
  total (slots_grow env) (splitPolygon a p cf cb f b env).
Proof.
  unfold splitPolygon. total_go.
  eapply total_bind; [apply total_mapM with (Q := fun _ => True) |].
  { intros v. total_go. }
  intros types _.
  repeat case_match; total_go;
    try apply push_grows; try apply slots_grow_refl.
  eapply total_bind; [apply total_foldM with (I := fun _ => True) |];
    [eauto with total | done |].
  intros [fr bk] _.
  eapply total_bind; [apply total_emit_grows |]. intros env1 He1.
  eapply total_weaken; [apply total_emit_grows |]. intros env2 He2.
  by eapply slots_grow_trans.
Qed.

Lemma total_split_loop_grows a cf cb f b polys env :
  total (slots_grow env)
        (foldM (fun env poly => splitPolygon a poly cf cb f b env) env polys).
Proof.
  revert env. induction polys as [|p polys IH]; intros env; simpl.
  - apply total_ret. apply slots_grow_refl.
  - eapply total_bind; [apply total_splitPolygon_grows |]. intros env1 He1.
    eapply total_weaken; [apply IH |]. intros env2 He2.
    by eapply slots_grow_trans.
Qed.

Lemma allPolygons_or_new t : allPolygons (or_new t) = allPolygons t.
Proof. by destruct t. Qed.

Lemma total_build_keeps fuel this polys :
  is_node this -> length polys <= fuel ->
  total (fun t => is_node t /\ allPolygons this ⊆+ allPolygons t)
        (build_fuel fuel this polys).
Proof.
  revert this polys. induction fuel as [|fuel IH]; intros this polys Hn Hlen.
  - destruct this as [|pl fr bk own]; [done|]. simpl.
    destruct polys; [|simpl in Hlen; lia]. simpl. by apply total_ret.
  - destruct this as [|pl fr bk own]; [done|]. simpl.
    destruct (_ || _) eqn:Hguard; [by apply total_ret|].
    destruct polys as [|p0 polys']; [done|].
    set (polys := p0 :: polys') in *.
    eapply total_bind.
    { apply total_conj; [apply total_split_loop; lia
                        | apply total_split_loop_grows]. }
    intros env [Henv Hgrow].
    assert (Hfront := Henv 1). assert (Hback := Henv 2).
    unfold slot_length in Hfront, Hback. simpl in Hfront, Hback.
    eapply total_bind with (Q1 := fun t => allPolygons fr ⊆+ allPolygons t).
    { repeat case_match; try by apply total_ret.
      - apply total_ret. by rewrite allPolygons_or_new.
      - eapply total_weaken; [apply IH|]; [apply is_node_or_new| |].
        + repeat match goal with
                 | E : (_ =? _) = false |- _ => apply Nat.eqb_neq in E
                 end.
          subst polys. simpl in *. lia.
        + intros t [_ Ht]. by rewrite allPolygons_or_new in Ht. }
    intros fr' Hfr.
    eapply total_bind with (Q1 := fun t => allPolygons bk ⊆+ allPolygons t).
    { repeat case_match; try by apply total_ret.
      - apply total_ret. by rewrite allPolygons_or_new.
      - eapply total_weaken; [apply IH|]; [apply is_node_or_new| |].
        + repeat match goal with
                 | E : (_ =? _) = false |- _ => apply Nat.eqb_neq in E
                 end.
          subst polys. simpl in *. lia.
        + intros t [_ Ht]. by rewrite allPolygons_or_new in Ht. }
    intros bk' Hbk. apply total_ret. split; [done|]. simpl.
    apply submseteq_app; [|by apply submseteq_app].
    destruct (Hgrow 0) as [added Hadded]. simpl in Hadded. rewrite Hadded.
    by apply submseteq_inserts_r.
Qed.

(** X14: build never removes a polygon from the tree it is called on:
    every polygon the tree held is in the tree it returns, as many times;
    the new polygons are added to it. *)
Theorem build_keeps_polygons (pl : option positive) (fr bk : BSPNode)
    (own polys : list Polygon) (s : Store) :
  exists t s',
    build (Node pl fr bk own) polys s = (Ret t, s') /\
    allPolygons (Node pl fr bk own) ⊆+ allPolygons t.
Proof.
  destruct (total_build_keeps (length polys) (Node pl fr bk own) polys I
              (le_n _) s) as (t & s' & E & _ & Hkeep).
  by exists t, s'.
Qed.

(** ** What build drops *)

Lemma split_loop_one_sided (front_side : bool) a polys :
  forall own F B s,
    Forall (ring_allocated s) polys -> Forall (on_side front_side a s) polys ->
    foldM (fun env p => splitPolygon a p 0 0 1 2 env) [own; F; B] polys s
    = (Ret (if front_side then [own; F ++ polys; B] else [own; F; B ++ polys]),
       s).
Proof.
  induction polys as [|p polys IH]; intros own F B s Hal Hside.
  - simpl. rewrite !app_nil_r. by destruct front_side.
  - inversion Hal as [|? ? Hp Hal']; subst.
    inversion Hside as [|? ? Hs Hside']; subst. destruct Hs as [HF HB].
    destruct (splitPolygon_run a p 0 0 1 2 [own; F; B] s (proj2 Hp))
      as (_ & env' & s' & Hrun & _ & Hcase).
    rewrite HF, HB in Hcase. simpl.
    destruct front_side; simpl in Hcase; destruct Hcase as [-> ->];
      rewrite (bind_Ret _ _ _ _ _ Hrun).
    + change (push 1 p [own; F; B]) with [own; F ++ [p]; B].
      rewrite IH by done. by rewrite <- app_assoc.
    + change (push 2 p [own; F; B]) with [own; F; B ++ [p]].
      rewrite IH by done. by rewrite <- app_assoc.
Qed.

(** X16: build drops a list that lies on one side of the plane of the node
    it is called on.  When the node has a plane and every polygon of the
    list is in front of it, the guard [front.length !== polygons.length]
    skips the build of the front child: the node gets an empty front child
    if it had none, no polygon of the list is stored anywhere, and the store
    is untouched; likewise behind the plane.  This is the call
    [a.build(b.allPolygons())] of union, subtract and intersect when what is
    left of b lies on one side of a's plane. *)
Theorem build_drops_one_sided (front_side : bool) (a : positive)
    (fr bk : BSPNode) (own polys : list Polygon) (s : Store) :
  polys <> [] -> length own <= 1000 ->
  Forall (ring_allocated s) polys -> Forall (on_side front_side a s) polys ->
  build (Node (Some a) fr bk own) polys s
  = (Ret (if front_side then Node (Some a) (or_new fr) bk own
          else Node (Some a) fr (or_new bk) own), s).
Proof.
  intros Hne Hown Hal Hside. unfold build.
  destruct polys as [|p0 polys']; [done|].
  change (length (p0 :: polys')) with (S (length polys')).
  cbn [build_fuel].
  replace (1000 <? length own) with false by (symmetry; apply Nat.ltb_ge; lia).
  change (length (p0 :: polys') =? 0) with false. cbn [orb].
  rewrite (bind_Ret _ _ _ _ _
             (split_loop_one_sided front_side a (p0 :: polys') own [] [] s
                Hal Hside)).
  destruct front_side; simpl; rewrite Nat.eqb_refl; done.
Qed.

(** ** The polygons of the first operand *)

Lemma tree_length_invert t s s' t' :
  invert t s = (Ret t', s') -> length (allPolygons t') = length (allPolygons t).
Proof.
  intros E. destruct (total_invert t s) as (t0 & s0 & E0 & ->).
  rewrite E in E0. injection E0 as -> _. by rewrite allPolygons_mirror.
Qed.

Lemma tree_length_build t polys s s' t' :
  is_node t -> build t polys s = (Ret t', s') ->
  length (allPolygons t) <= length (allPolygons t').
Proof.
  intros Hn E.
  destruct (total_build_keeps (length polys) t polys Hn (le_n _) s)
    as (t0 & s0 & E0 & _ & Hkeep).
  unfold build in E. rewrite E in E0. injection E0 as -> _.
  by apply submseteq_length.
Qed.

(** X18: no operation removes a polygon of its first operand's tree.  On
    operands, the result of union, of subtract and of intersect has at least
    as many polygons as the tree built from the clones of the first operand:
    clipping only splits, inverting keeps every polygon, and build keeps what
    the tree held. *)
Theorem operations_keep_first_tree (this csg : CSG) (s : Store) :
  Forall (operand s) (polygons this) -> Forall (operand s) (polygons csg) ->
  exists a s1,
    tree_of this s = (Ret a, s1) /\
    (exists c s', union this csg s = (Ret c, s') /\
                  length (allPolygons a) <= length (polygons c)) /\
    (exists c s', subtract this csg s = (Ret c, s') /\
                  length (allPolygons a) <= length (polygons c)) /\
    (exists c s', intersect this csg s = (Ret c, s') /\
                  length (allPolygons a) <= length (polygons c)).
Proof.
  intros Hthis Hcsg.
  destruct (tree_of_operands this s Hthis) as (a & s1 & E1 & G1 & Ta1 & Na).
  exists a, s1. split; [done|]. apply grows_extends in G1.
  destruct (tree_of_operands csg s1) as (b & s2 & E2 & G2 & Tb2 & Nb);
    [by eapply operands_extend|]. apply grows_extends in G2.
  assert (Ta2 := tree_ok_extends _ _ _ G2 Ta1).
  split; [|split].
  - unfold union.
    destruct (clipTo_operands a b s2 Ta2) as (a1 & s3 & E3 & G3 & Ta3 & Sa & L3).
    apply grows_extends in G3. assert (Tb3 := tree_ok_extends _ _ _ G3 Tb2).
    destruct (clipTo_operands b a1 s3 Tb3) as (b1 & s4 & E4 & G4 & Tb4 & _ & _).
    destruct (invert_operands b1 s4 Tb4) as (s5 & E5 & G5 & Tb5).
    destruct (clipTo_operands (mirror b1) a1 s5 Tb5)
      as (b2 & s6 & E6 & G6 & Tb6 & _ & _).
    destruct (invert_operands b2 s6 Tb6) as (s7 & E7 & G7 & Tb7).
    assert (Na1 : is_node a1) by (by eapply same_shape_is_node).
    destruct (total_build a1 (allPolygons (mirror b2)) Na1 s7)
      as (a2 & s8 & E8 & _).
    exists (mkCSG (allPolygons a2)), s8.
    rewrite (bind_Ret _ _ _ _ _ E1), (bind_Ret _ _ _ _ _ E2),
      (bind_Ret _ _ _ _ _ E3), (bind_Ret _ _ _ _ _ E4), (bind_Ret _ _ _ _ _ E5),
      (bind_Ret _ _ _ _ _ E6), (bind_Ret _ _ _ _ _ E7), (bind_Ret _ _ _ _ _ E8).
    split; [done|]. simpl.
    pose proof (tree_length_build _ _ _ _ _ Na1 E8). lia.
  - unfold subtract.
    destruct (invert_operands a s2 Ta2) as (s3 & E3 & G3 & Ta3).
    assert (Tb3 := tree_ok_extends _ _ _ G3 Tb2).
    destruct (clipTo_operands (mirror a) b s3 Ta3)
      as (a1 & s4 & E4 & G4 & Ta4 & Sa & L4).
    apply grows_extends in G4. assert (Tb4 := tree_ok_extends _ _ _ G4 Tb3).
    destruct (clipTo_operands b a1 s4 Tb4) as (b1 & s5 & E5 & G5 & Tb5 & _ & _).
    destruct (invert_operands b1 s5 Tb5) as (s6 & E6 & G6 & Tb6).
    destruct (clipTo_operands (mirror b1) a1 s6 Tb6)
      as (b2 & s7 & E7 & G7 & Tb7 & _ & _).
    destruct (invert_operands b2 s7 Tb7) as (s8 & E8 & G8 & Tb8).
    assert (Na1 : is_node a1).
    { eapply same_shape_is_node; [done|]. by apply mirror_is_node. }
    destruct (total_build a1 (allPolygons (mirror b2)) Na1 s8)
      as (a2 & s9 & E9 & _).
    destruct (total_invert a2 s9) as (a3 & s10 & E10 & ->).
    exists (mkCSG (allPolygons (mirror a2))), s10.
    rewrite (bind_Ret _ _ _ _ _ E1), (bind_Ret _ _ _ _ _ E2),
      (bind_Ret _ _ _ _ _ E3), (bind_Ret _ _ _ _ _ E4), (bind_Ret _ _ _ _ _ E5),
      (bind_Ret _ _ _ _ _ E6), (bind_Ret _ _ _ _ _ E7), (bind_Ret _ _ _ _ _ E8),
      (bind_Ret _ _ _ _ _ E9), (bind_Ret _ _ _ _ _ E10).
    split; [done|]. simpl.
    pose proof (tree_length_build _ _ _ _ _ Na1 E9).
    pose proof (tree_length_invert _ _ _ _ E10).
    pose proof (tree_length_invert _ _ _ _ E3). lia.
  - unfold intersect.
    destruct (invert_operands a s2 Ta2) as (s3 & E3 & G3 & Ta3).
    assert (Tb3 := tree_ok_extends _ _ _ G3 Tb2).
    destruct (clipTo_operands b (mirror a) s3 Tb3)
      as (b1 & s4 & E4 & G4 & Tb4 & _ & _).
    apply grows_extends in G4. assert (Ta4 := tree_ok_extends _ _ _ G4 Ta3).
    destruct (invert_operands b1 s4 Tb4) as (s5 & E5 & G5 & Tb5).
    assert (Ta5 := tree_ok_extends _ _ _ G5 Ta4).
    destruct (clipTo_operands (mirror a) (mirror b1) s5 Ta5)
      as (a1 & s6 & E6 & G6 & Ta6 & Sa & L6).
    apply grows_extends in G6. assert (Tb6 := tree_ok_extends _ _ _ G6 Tb5).
    destruct (clipTo_operands (mirror b1) a1 s6 Tb6)
      as (b2 & s7 & E7 & G7 & Tb7 & _ & _).
    assert (Na1 : is_node a1).
    { eapply same_shape_is_node; [done|]. by apply mirror_is_node. }
    destruct (total_build a1 (allPolygons b2) Na1 s7) as (a2 & s8 & E8 & _).
    destruct (total_invert a2 s8) as (a3 & s9 & E9 & ->).
    exists (mkCSG (allPolygons (mirror a2))), s9.
    rewrite (bind_Ret _ _ _ _ _ E1), (bind_Ret _ _ _ _ _ E2),
      (bind_Ret _ _ _ _ _ E3), (bind_Ret _ _ _ _ _ E4), (bind_Ret _ _ _ _ _ E5),
      (bind_Ret _ _ _ _ _ E6), (bind_Ret _ _ _ _ _ E7), (bind_Ret _ _ _ _ _ E8),
      (bind_Ret _ _ _ _ _ E9).
    split; [done|]. simpl.
    pose proof (tree_length_build _ _ _ _ _ Na1 E8).
    pose proof (tree_length_invert _ _ _ _ E9).
    pose proof (tree_length_invert _ _ _ _ E3). lia.
Qed.

(** ** Polygons in the plane of a node, and on one side of it *)

Lemma split_loop_on_plane a polys :
  forall own F B s,
    Forall (ring_allocated s) polys -> Forall (on_plane a s) polys ->
    foldM (fun env p => splitPolygon a p 0 0 1 2 env) [own; F; B] polys s
    = (Ret [own ++ polys; F; B], s).
Proof.
  induction polys as [|p polys IH]; intros own F B s Hal Hon.
  - simpl. by rewrite app_nil_r.
  - inversion Hal as [|? ? Hp Hal']; subst.
    inversion Hon as [|? ? Ho Hon']; subst. destruct Ho as [HF HB].
    destruct (splitPolygon_run a p 0 0 1 2 [own; F; B] s (proj2 Hp))
      as (_ & env' & s' & Hrun & _ & Hcase).
    rewrite HF, HB in Hcase. destruct Hcase as [-> ->].
    simpl. rewrite (bind_Ret _ _ _ _ _ Hrun).
    replace (push (if nlt n0 (vdot (pnormal (plane_at s a))
                                   (pnormal (polygon_plane s p)))
                   then 0 else 0) p [own; F; B])
      with [own ++ [p]; F; B] by (by destruct (nlt _ _)).
    rewrite IH by done. by rewrite <- app_assoc.
Qed.

(** X15: build stores every polygon that lies in the plane of the node in
    the node itself, whichever way it faces (in build coplanarFront and
    coplanarBack are the one array [this.polygons]): a list of such
    polygons is appended to the node's own array in order, no child is
    created and the store is untouched.  A node without a plane measures
    them against the plane of the first polygon of the list. *)
Theorem build_stores_coplanar (pl : option positive) (fr bk : BSPNode)
    (own : list Polygon) (p0 : Polygon) (rest : list Polygon) (s : Store) :
  length own <= 1000 ->
  Forall (ring_allocated s) (p0 :: rest) ->
  Forall (on_plane (match pl with Some a => a | None => plane p0 end) s)
         (p0 :: rest) ->
  build (Node pl fr bk own) (p0 :: rest) s
  = (Ret (Node (Some (match pl with Some a => a | None => plane p0 end))
               fr bk (own ++ p0 :: rest)), s).
Proof.
  intros Hown Hal Hon. unfold build.
  change (length (p0 :: rest)) with (S (length rest)).
  cbn [build_fuel].
  replace (1000 <? length own) with false by (symmetry; apply Nat.ltb_ge; lia).
  change (length (p0 :: rest) =? 0) with false. cbn [orb].
  rewrite (bind_Ret _ _ _ _ _
             (split_loop_on_plane _ (p0 :: rest) own [] [] s Hal Hon)).
  done.
Qed.

Lemma clip_loop_one_sided (front_side : bool) a polys :
  forall F B s,
    Forall (ring_allocated s) polys -> Forall (on_side front_side a s) polys ->
    foldM (fun env p => splitPolygon a p 0 1 0 1 env) [F; B] polys s
    = (Ret (if front_side then [F ++ polys; B] else [F; B ++ polys]), s).
Proof.
  induction polys as [|p polys IH]; intros F B s Hal Hside.
  - simpl. rewrite !app_nil_r. by destruct front_side.
  - inversion Hal as [|? ? Hp Hal']; subst.
    inversion Hside as [|? ? Hs Hside']; subst. destruct Hs as [HF HB].
    destruct (splitPolygon_run a p 0 1 0 1 [F; B] s (proj2 Hp))
      as (_ & env' & s' & Hrun & _ & Hcase).
    rewrite HF, HB in Hcase. simpl.
    destruct front_side; simpl in Hcase; destruct Hcase as [-> ->];
      rewrite (bind_Ret _ _ _ _ _ Hrun).
    + change (push 0 p [F; B]) with [F ++ [p]; B].
      rewrite IH by done. by rewrite <- app_assoc.
    + change (push 1 p [F; B]) with [F; B ++ [p]].
      rewrite IH by done. by rewrite <- app_assoc.
Qed.

(** X11: clipping removes nothing on either side of a plane.  Polygons that
    all lie behind the plane of a node without a back child come back from
    clipPolygons unchanged, and so do polygons that all lie in front of the
    plane of a node without a front child; the store is untouched. *)
Theorem clipPolygons_keeps_one_sided (front_side : bool) (a : positive)
    (child : BSPNode) (own polys : list Polygon) (s : Store) :
  Forall (ring_allocated s) polys -> Forall (on_side front_side a s) polys ->
  clipPolygons (if front_side then Node (Some a) Null child own
                else Node (Some a) child Null own) polys s
  = (Ret polys, s).
Proof.
  intros Hal Hside.
  pose proof (clip_loop_one_sided front_side a polys [] [] s Hal Hside) as E.
  destruct front_side; simpl; rewrite (bind_Ret _ _ _ _ _ E); simpl.
  - change ([polys; []] !!! 0) with polys.
    change ([polys; []] !!! 1) with (@nil Polygon).
    unfold bind, ret. simpl. rewrite clipPolygons_nil. by rewrite app_nil_r.
  - change ([[]; polys] !!! 0) with (@nil Polygon).
    change ([[]; polys] !!! 1) with polys.
    unfold bind, ret. simpl. by rewrite clipPolygons_nil.
Qed.

(** X6: [csg.inverse()] on a CSG value whose polygons have at least three
    allocated vertices returns, polygon by polygon, the vertex values of the
    original in reverse order with negated normals, and the negation of the
    plane that the first three vertices of the original define. *)
Theorem inverse_flips_each (this : CSG) (s : Store) :
  Forall (operand s) (polygons this) ->
  exists c s',
    inverse this s = (Ret c, s') /\
    Forall2 (fun p q =>
               ring_values s' q = rev (negate_normal <$> ring_values s p) /\
               Some (polygon_plane s' q)
               = negate_plane <$> plane_of_values (ring_values s p))
            (polygons this) (polygons c).
Proof.
  intros Hps. destruct (inverse_run this s Hps) as (c & s' & Hrun & Hv & _).
  by exists c, s'.
Qed.

(** ** From meshes to operations *)

Lemma rings_else_face_vertex points normals uvs face fv i idx s r :
  r <> fv ->
  ring_of (face_vertex points normals uvs face fv i idx s).2 !! r
  = ring_of s !! r.
Proof.
  intros Hr. unfold face_vertex, bind.
  destruct uvs as [us|]; [destruct (face_uvs face)|];
    destruct (points !! idx); simpl; try done; by rewrite lookup_alter_ne.
Qed.

Lemma rings_else_face_loop points normals uvs face fv idxs r :
  r <> fv ->
  forall i s,
    ring_of (forM_i i idxs (face_vertex points normals uvs face fv) s).2 !! r
    = ring_of s !! r.
Proof.
  intros Hr. induction idxs as [|idx idxs IH]; intros i s; [done|].
  simpl. unfold bind.
  pose proof (rings_else_face_vertex points normals uvs face fv i idx s r Hr)
    as Hstep.
  destruct (face_vertex points normals uvs face fv i idx s) as [[[]|e] s1];
    simpl in *; [by rewrite IH | done].
Qed.

Lemma ring_of_Polygon_new r s : ring_of (Polygon_new r s).2 = ring_of s.
Proof.
  destruct (decide (3 <= length (ring_at s r))) as [Hl|Hl].
  - destruct (Polygon_new_returns s r Hl) as [pl ->]. done.
  - by rewrite Polygon_new_throws by lia.
Qed.

Lemma rings_else_faces points normals uvs fv faces r :
  r <> fv ->
  forall ps0 s,
    ring_of (foldM (fun ps face =>
                      forM_i 0 (face_vertices face)
                             (face_vertex points normals uvs face fv) >>
                      do p <- Polygon_new fv; ret (ps ++ [p])) ps0 faces s).2 !! r
    = ring_of s !! r.
Proof.
  intros Hr. induction faces as [|face faces IH]; intros ps0 s; [done|].
  cbn [foldM]. unfold bind at 1. unfold bind at 1.
  pose proof (rings_else_face_loop points normals uvs face fv
                (face_vertices face) r Hr 0 s) as Hloop.
  destruct (forM_i 0 (face_vertices face) _ s) as [[[]|e] s1];
    simpl in *; [|done].
  unfold bind at 1.
  pose proof (ring_of_Polygon_new fv s1) as Hnew.
  destruct (Polygon_new fv s1) as [[p|e] s2]; simpl in *.
  - rewrite IH. by rewrite Hnew.
  - by rewrite Hnew.
Qed.

(** The polygons fromGeometry returns are operands, and no array that
    existed is written. *)
Lemma fromGeometry_operands points faces normals uvs s :
  Forall (face_valid points uvs) faces -> first_face_long faces ->
  exists c s',
    fromGeometry points faces normals uvs s = (Ret c, s') /\ extends s s' /\
    Forall (operand s') (polygons c).
Proof.
  intros Hvalid Hfirst.
  assert (Hrun : faces_run points uvs 0 faces) by (by apply faces_run_iff).
  unfold fromGeometry. unfold bind at 1. simpl.
  set (s1 := mkStore _ _ _ _).
  assert (Hfv : (next s < next s1)%positive) by (subst s1; simpl; lia).
  assert (Hl : ring_of s1 !! next s = Some []).
  { subst s1. simpl. by rewrite lookup_insert_eq. }
  destruct (faces_loop points normals uvs (next s) faces [] s1 [] Hfv Hl)
    as [Hcount _].
  destruct (Hcount Hrun) as (ps0 & s0 & l0 & E0 & Hlen & _ & Hl0 & Hlen0).
  destruct (faces_loop_values points normals uvs (next s) faces [] s1 []
              Hfv Hl (Forall_nil_2 _) Hrun)
    as (ps & s' & l' & E & [Hn _] & Hring & Hlt & _ & Hps).
  simpl in E0, E, Hring, Hps, Hlt, Hn, Hl0.
  rewrite E in E0. injection E0 as <- <-.
  rewrite Hring in Hl0. injection Hl0 as <-.
  exists (mkCSG ps), s'. rewrite (bind_Ret _ _ _ _ _ E).
  split; [done|]. split.
  - split; [subst s1; simpl in Hn; lia|]. intros r Hr. unfold ring_at.
    pose proof (rings_else_faces points normals uvs (next s) faces r
                  ltac:(lia) [] s1) as Hkeep.
    rewrite E in Hkeep. simpl in Hkeep. rewrite Hkeep. subst s1. simpl.
    by rewrite lookup_insert_ne by lia.
  - simpl. destruct faces as [|face faces'].
    { destruct ps; [constructor | done]. }
    assert (Hthree : 3 <= length l').
    { rewrite Hlen0, bind_cons, length_app.
      destruct Hrun as (_ & Hthree & _). lia. }
    eapply Forall_impl; [exact Hps|]. intros p [Hv _]. simpl in *.
    unfold operand, ring_allocated, ring_at. rewrite Hv, Hring. simpl.
    split; [split; [subst s1; simpl in Hn; lia | done] | done].
Qed.

(** X23: the engine calls of DoorWindow.generateGeometry return on every
    three meshes that fromMesh accepts (vertex indices within the vertex
    array, uv indices where uvs are given, a first face with at least three
    vertex indices), and its three components are CSG values that further
    operations accept. *)
Theorem DoorWindow_components_return (outerFrame innerCutout glassPanel : Mesh)
    (s : Store) :
  mesh_valid outerFrame -> mesh_valid innerCutout -> mesh_valid glassPanel ->
  exists frame glass complete s',
    DoorWindow_components outerFrame innerCutout glassPanel s
    = (Ret (frame, glass, complete), s') /\
    Forall (operand s') (polygons frame) /\
    Forall (operand s') (polygons glass) /\
    Forall (operand s') (polygons complete).
Proof.
  intros [Hv1 Hf1] [Hv2 Hf2] [Hv3 Hf3]. unfold DoorWindow_components, fromMesh.
  destruct (fromGeometry_operands _ _ (mesh_normals outerFrame) _ s Hv1 Hf1)
    as (fc & s1 & E1 & X1 & O1).
  destruct (fromGeometry_operands _ _ (mesh_normals innerCutout) _ s1 Hv2 Hf2)
    as (cc & s2 & E2 & X2 & O2).
  destruct (fromGeometry_operands _ _ (mesh_normals glassPanel) _ s2 Hv3 Hf3)
    as (gc & s3 & E3 & X3 & O3).
  assert (O1' : Forall (operand s3) (polygons fc)).
  { eapply operands_extend; [exact X3|]. by eapply operands_extend. }
  assert (O2' : Forall (operand s3) (polygons cc)) by (by eapply operands_extend).
  destruct (subtract_operands fc cc s3 O1' O2') as (fr & s4 & E4 & X4 & O4).
  destruct (subtract_operands fc cc s4) as (cut & s5 & E5 & X5 & O5);
    [by eapply operands_extend..|].
  destruct (union_operands cut gc s5 O5) as (co & s6 & E6 & X6 & O6).
  { eapply operands_extend; [exact X5|]. by eapply operands_extend. }
  exists fr, gc, co, s6.
  rewrite (bind_Ret _ _ _ _ _ E1), (bind_Ret _ _ _ _ _ E2),
    (bind_Ret _ _ _ _ _ E3), (bind_Ret _ _ _ _ _ E4), (bind_Ret _ _ _ _ _ E5),
    (bind_Ret _ _ _ _ _ E6).
  split; [done|]. split; [|split; [|done]].
  - eapply operands_extend; [exact X6|]. by eapply operands_extend.
  - eapply operands_extend; [exact X6|]. eapply operands_extend; [exact X5|].
    by eapply operands_extend.
Qed.

(** ** Results are made of new objects *)

Ltac fresh_step n :=
  eapply (fs_bind n);
    [ first [ apply fs_tree_of
            | by apply fs_clipTo
            | by apply fs_invert
            | apply fs_build; [done | by apply fresh_tree_allPolygons] ]
    | intros ? ? ].

Lemma union_fresh n a b :
  sound (closed_above n) (same_below n)
    (fun c => Forall (fresh_polygon n) (polygons c)) (union a b).
Proof.
  unfold union. do 8 fresh_step n.
  apply fs_ret. simpl. by apply fresh_tree_allPolygons.
Qed.

Lemma subtract_fresh n a b :
  sound (closed_above n) (same_below n)
    (fun c => Forall (fresh_polygon n) (polygons c)) (subtract a b).
Proof.
  unfold subtract. do 10 fresh_step n.
  apply fs_ret. simpl. by apply fresh_tree_allPolygons.
Qed.

Lemma intersect_fresh n a b :
  sound (closed_above n) (same_below n)
    (fun c => Forall (fresh_polygon n) (polygons c)) (intersect a b).
Proof.
  unfold intersect. do 9 fresh_step n.
  apply fs_ret. simpl. by apply fresh_tree_allPolygons.
Qed.

Lemma inverse_fresh n a :
  sound (closed_above n) (same_below n)
    (fun c => Forall (fresh_polygon n) (polygons c)) (inverse a).
Proof.
  unfold inverse. eapply fs_bind; [apply fs_CSG_clone|]. intros c Hc.
  eapply fs_bind.
  { apply fs_forM_ with (P := fresh_polygon n); [|exact Hc].
    intros p Hp. by apply fs_Polygon_flip. }
  intros ? ?. by apply fs_ret.
Qed.

(** X26: the result of an operation is made of new objects only.  When
    union, subtract, intersect or inverse returns from a well-formed store,
    every polygon of the result has a vertex array, a plane object and
    vertex objects that did not exist before the call; so it shares no array,
    plane or vertex with any polygon that existed before, the operands
    included, and writing to a result cannot change an operand. *)
Theorem results_share_nothing (this csg c : CSG) (s s' : Store) :
  well_formed s ->
  union this csg s = (Ret c, s') \/ subtract this csg s = (Ret c, s') \/
  intersect this csg s = (Ret c, s') \/ inverse this s = (Ret c, s') ->
  forall p, p ∈ polygons c ->
    ((next s <= vertices p)%positive /\ (next s <= plane p)%positive /\
     Forall (fun v => (next s <= v)%positive) (ring_at s' (vertices p))) /\
    forall q, allocated s q ->
      vertices p <> vertices q /\ plane p <> plane q /\
      forall v, v ∈ ring_at s' (vertices p) -> v ∉ ring_at s' (vertices q).
Proof.
  intros Hwf Hrun p Hp. assert (Hcl := well_formed_closed s Hwf).
  assert (Hall : closed_above (next s) s' /\ same_below (next s) s s' /\
                 Forall (fresh_polygon (next s)) (polygons c)).
  { destruct Hrun as [Hrun | [Hrun | [Hrun | Hrun]]].
    - generalize (union_fresh (next s) this csg s Hcl). by rewrite Hrun.
    - generalize (subtract_fresh (next s) this csg s Hcl). by rewrite Hrun.
    - generalize (intersect_fresh (next s) this csg s Hcl). by rewrite Hrun.
    - generalize (inverse_fresh (next s) this s Hcl). by rewrite Hrun. }
  destruct Hall as ([_ Hclosed] & Hsame & Hfresh).
  rewrite Forall_forall in Hfresh. destruct (Hfresh p Hp) as [Hr Hpl].
  assert (Hvs : Forall (fun v => (next s <= v)%positive)
                  (ring_at s' (vertices p))).
  { unfold ring_at. destruct (ring_of s' !! vertices p) as [vs|] eqn:E;
      simpl; [exact (Hclosed _ _ Hr E) | constructor]. }
  split; [done|]. intros q (Hqr & Hqp & Hqv).
  split; [lia|]. split; [lia|]. intros v Hv Hv'.
  rewrite Forall_forall in Hvs. specialize (Hvs v Hv).
  assert (Hq : ring_at s' (vertices q) = ring_at s (vertices q)).
  { unfold ring_at. by destruct (Hsame _ Hqr) as (_ & -> & _). }
  rewrite Hq in Hv'. rewrite Forall_forall in Hqv. specialize (Hqv v Hv').
  simpl in Hqv. lia.
Qed.

End Engine.

(** * Negation on binary64 numbers *)

(** Multiplying a finite binary64 number by -1 changes its sign and nothing
    else: the product of the mantissas is shifted back by 52 bits without
    loss. *)
Lemma SFmul_minus_one sx mx ex :
  SpecFloat.bounded prec emax mx ex = true ->
  SpecFloat.SFmul prec emax (SpecFloat.S754_finite sx mx ex)
                  (Prim2SF (- 1)%float)
  = SpecFloat.S754_finite (negb sx) mx ex.
Proof.
  intros Hb. unfold SpecFloat.bounded, SpecFloat.canonical_mantissa in Hb.
  apply andb_prop in Hb as [Hc He]. apply Z.eqb_eq in Hc.
  change (Prim2SF (- 1)%float)
    with (SpecFloat.S754_finite true 4503599627370496 (-52)).
  unfold SpecFloat.SFmul. rewrite Pos.mul_comm. lazy [Pos.mul].
  unfold SpecFloat.binary_round_aux, SpecFloat.shr_fexp.
  cbn [SpecFloat.Zdigits2 SpecFloat.digits2_pos].
  replace (SpecFloat.fexp prec emax (Z.pos _ + (ex + -52)) - (ex + -52))%Z
    with 52%Z.
  2:{ rewrite <- Hc at 2.
      match goal with
      | |- _ = (SpecFloat.fexp _ _ ?a - _)%Z =>
          replace a with (Z.pos (SpecFloat.digits2_pos mx) + ex)%Z by lia
      end.
      rewrite Hc. lia. }
  cbn [SpecFloat.shr SpecFloat.iter_pos SpecFloat.shr_1
       SpecFloat.shr_record_of_loc orb SpecFloat.shr_m SpecFloat.shr_r
       SpecFloat.shr_s SpecFloat.loc_of_shr_record
       SpecFloat.round_nearest_even SpecFloat.Zdigits2].
  replace (ex + -52 + 52)%Z with ex by lia.
  rewrite Hc, Z.sub_diag. cbn [SpecFloat.shr SpecFloat.shr_m]. rewrite He.
  destruct sx; reflexivity.
Qed.

Lemma float_mul_minus_one (x : float) : (x * - 1)%float = (- x)%float.
Proof.
  apply Prim2SF_inj. rewrite mul_spec, opp_spec.
  assert (Hv := Prim2SF_valid x).
  destruct (Prim2SF x) as [sx|sx| |sx mx ex].
  - destruct sx; reflexivity.
  - destruct sx; reflexivity.
  - reflexivity.
  - exact (SFmul_minus_one sx mx ex Hv).
Qed.

Lemma float_opp_opp (x : float) : (- - x)%float = x.
Proof.
  apply Prim2SF_inj. rewrite !opp_spec.
  destruct (Prim2SF x) as [sx|sx| |sx mx ex]; simpl;
    rewrite ?negb_involutive; reflexivity.
Qed.

(** The two facts about negation that flip and invert rely on hold for the
    numbers of the program. *)
Lemma float_negation_involutive : negation_involutive (R := float).
Proof.
  split; intros x; simpl.
  - rewrite !float_mul_minus_one. apply float_opp_opp.
  - apply float_opp_opp.
Qed.

(** * Runs on binary64 numbers *)

(** The CSG of [level 0] and [crossing_triangle] built in the empty store,
    and the store that holds it. *)
Abbreviation two_triangles :=
  (csg_of (R := float) [level 0; crossing_triangle] empty_store).
Abbreviation two_triangles_csg := (result_of (fromPolygons []) two_triangles).
Abbreviation two_triangles_store := (two_triangles.2).

(** C2, at two triangular faces: both returned polygons hold the one array
    that fromGeometry fills across all faces, so the ring of each polygon is
    the six vertices of both faces and not the three of its own face. *)
Lemma fromGeometry_faces_share_ring :
  match fromGeometry (R := float) six_points two_faces None None empty_store with
  | (Ret csg, s) =>
      map vertices (polygons csg) = [1%positive; 1%positive] /\
      map (fun p => map position (ring_values s p)) (polygons csg)
      = [six_points; six_points]
  | (Throw _, _) => False
  end.
Proof. vm_compute. split; reflexivity. Qed.

(** C8, counterexample: a first face with two vertex indices makes
    fromGeometry throw a TypeError in the Polygon constructor. *)
Lemma fromGeometry_short_face_throws :
  (fromGeometry (R := float) six_points short_face None None empty_store).1
  = Throw TypeError.
Proof. vm_compute. reflexivity. Qed.

(** C5, counterexample: build on 1023 parallel triangles returns a tree of
    more than 1000 nodes (one node per triangle). *)
Lemma build_exceeds_ceiling :
  match (do ps <- shelves (R := float) 10; BSPNode_new (Some ps)) empty_store with
  | (Ret t, _) => (1000 <? node_count t)%nat = true
  | (Throw _, _) => False
  end.
Proof. vm_compute. reflexivity. Qed.

(** C6, counterexample: for the dented pentagon, inverse(inverse(A)) yields
    a polygon whose plane is not the plane of A's polygon (the normal is
    (0,0,-1) where A has (0,0,1)). *)
Lemma inverse_inverse_changes_plane :
  match (do a <- csg_of (R := float) [dented_pentagon];
         do b <- inverse a;
         do c <- inverse b;
         ret (a, c)) empty_store with
  | (Ret (a, c), s) =>
      map (polygon_plane s) (polygons c) <> map (polygon_plane s) (polygons a)
  | (Throw _, _) => False
  end.
Proof.
  vm_compute. intros E.
  apply (f_equal (map (fun pl => PrimFloat.ltb 0 (vz (pnormal pl))))) in E.
  vm_compute in E. discriminate.
Qed.

(** C9, counterexample: the result is not A's polygon set.  Intersecting a
    triangle and a triangle that crosses its plane with the empty CSG
    returns three polygons, not the two of the operand (build splits the
    second).  Intersecting the CSG that fromGeometry makes of two parallel
    triangular faces with the empty CSG returns no polygon at all: both
    polygons hold the six vertices of both faces, so both lie in front of
    the plane of the first, and build stores nothing when the whole list is
    on one side. *)
Lemma intersect_empty_splits_or_drops :
  match (do a <- csg_of (R := float) [level 0; crossing_triangle];
         do c <- intersect a (fromPolygons []);
         ret (a, c)) empty_store with
  | (Ret (a, c), _) => length (polygons a) = 2 /\ length (polygons c) = 3
  | (Throw _, _) => False
  end /\
  match (do a <- fromGeometry (R := float) six_points two_faces None None;
         do c <- intersect a (fromPolygons []);
         ret (a, c)) empty_store with
  | (Ret (a, c), _) => length (polygons a) = 2 /\ polygons c = []
  | (Throw _, _) => False
  end.
Proof. vm_compute. repeat split; reflexivity. Qed.


(** C3, counterexample: on a triangle and a triangle crossing its plane the
    code and the specified order of steps return different polygon lists
    (the first polygon has four vertices under the code, three under the
    specified order). *)
Lemma intersect_not_as_specified :
  match (do a <- csg_of (R := float) [level 0];
         do b <- csg_of [crossing_triangle];
         ret (a, b)) empty_store with
  | (Ret (a, b), s) => intersect a b s <> intersect_as_specified a b s
  | (Throw _, _) => False
  end.
Proof.
  vm_compute. intros E.
  apply (f_equal (fun r : outcome CSG * Store =>
    match r with
    | (Ret c, s) => map (fun p => length (ring_at s (vertices p))) (polygons c)
    | (Throw _, _) => []
    end)) in E.
  vm_compute in E. discriminate.
Qed.

(** C10, at the tree built from one triangle: the node's plane is the plane
    object of its first polygon, so invert negates that object twice.  After
    invert the ring is reversed, but the plane of the node and of the polygon
    is what it was. *)
Lemma invert_keeps_shared_plane :
  match (do p <- polygon_of (R := float) (level 0);
         do t <- BSPNode_new (Some [p]);
         ret (p, t)) empty_store with
  | (Ret (p, t), s) =>
      t = Node (Some (plane p)) Null Null [p] /\
      (invert t s).1 = Ret t /\
      ring_at (invert t s).2 (vertices p) = rev (ring_at s (vertices p)) /\
      polygon_plane (invert t s).2 p = polygon_plane s p /\
      pnormal (polygon_plane s p) = mkVec3 0%float 0%float 1%float
  | (Throw _, _) => False
  end.
Proof. vm_compute. repeat split; reflexivity. Qed.

(** The store holding the two triangles is well formed, and intersecting
    their CSG with itself leaves its objects as they were. *)
Lemma operations_leave_operands_witness :
  well_formed two_triangles_store /\
  (same_below (next two_triangles_store) two_triangles_store
     (intersect two_triangles_csg two_triangles_csg two_triangles_store).2 /\
   forall p, p ∈ polygons two_triangles_csg \/ p ∈ polygons two_triangles_csg ->
     allocated two_triangles_store p ->
     ring_values (intersect two_triangles_csg two_triangles_csg
                    two_triangles_store).2 p
     = ring_values two_triangles_store p /\
     polygon_plane (intersect two_triangles_csg two_triangles_csg
                      two_triangles_store).2 p
     = polygon_plane two_triangles_store p).
Proof.
  assert (Hwf : well_formed two_triangles_store).
  { exact (csg_of_well_formed _ _ well_formed_empty). }
  split; [exact Hwf|].
  apply (operations_leave_operands two_triangles_csg two_triangles_csg
           two_triangles_store
           (intersect two_triangles_csg two_triangles_csg two_triangles_store).2
           Hwf).
  right. right. left. exact eq_refl.
Defined.

(** The two triangles have three vertices each, and the four operations
    return on them. *)
Lemma no_error_from_three_vertices_witness :
  well_formed two_triangles_store /\
  Forall (proper two_triangles_store) (polygons two_triangles_csg) /\
  (returns (union two_triangles_csg two_triangles_csg) two_triangles_store /\
   returns (subtract two_triangles_csg two_triangles_csg) two_triangles_store /\
   returns (intersect two_triangles_csg two_triangles_csg) two_triangles_store /\
   returns (inverse two_triangles_csg) two_triangles_store).
Proof.
  assert (Hwf : well_formed two_triangles_store).
  { exact (csg_of_well_formed _ _ well_formed_empty). }
  assert (Hp : Forall (proper two_triangles_store) (polygons two_triangles_csg)).
  { vm_compute. repeat constructor. }
  split; [exact Hwf|]. split; [exact Hp|].
  destruct (no_error_from_three_vertices two_triangles_csg two_triangles_csg
              two_triangles_store Hwf Hp Hp) as (Hu & Hs & Hi & Hv & _).
  exact (conj Hu (conj Hs (conj Hi Hv))).
Defined.

(** Intersecting the two triangles with the empty CSG returns the polygons
    of their tree. *)
Lemma intersect_with_empty_witness :
  negation_involutive (R := float) /\
  polygons (fromPolygons []) = [] /\
  intersect (R := float) two_triangles_csg (fromPolygons [])
    two_triangles_store
  = (do a <- tree_of two_triangles_csg;
     ret (fromPolygons (allPolygons a))) two_triangles_store.
Proof.
  split; [exact float_negation_involutive|]. split; [reflexivity|].
  exact (proj2 (proj2 (intersect_with_empty two_triangles_csg (fromPolygons [])
                         two_triangles_store float_negation_involutive
                         eq_refl))).
Defined.

(** The second of the two triangles has one vertex behind the plane of the
    first and two in front of it: it is split into a front polygon of four
    vertices and a back polygon of three. *)
Lemma splitPolygon_spec_witness :
  Forall (fun a => (a < next two_triangles_store)%positive)
         (ring_at two_triangles_store (vertices (mkPolygon 9 10))) /\
  polygon_type (plane_at two_triangles_store 5)
    (ring_values two_triangles_store (mkPolygon 9 10)) = Spanning /\
  exists f b s',
    splitPolygon 5 (mkPolygon 9 10) 0 1 0 1 [[]; []] two_triangles_store
    = (Ret [[f]; [b]], s') /\
    grows two_triangles_store s' /\
    length (ring_values s' f) = 4 /\ length (ring_values s' b) = 3.
Proof.
  assert (Hvs : Forall (fun a => (a < next two_triangles_store)%positive)
                  (ring_at two_triangles_store (vertices (mkPolygon 9 10)))).
  { vm_compute. repeat constructor. }
  assert (Ht : polygon_type (plane_at two_triangles_store 5)
                 (ring_values two_triangles_store (mkPolygon 9 10))
               = Spanning).
  { vm_compute. reflexivity. }
  assert (Hf : (3 <=? length (front_side_ring (plane_at two_triangles_store 5)
                               (ring_values two_triangles_store
                                  (mkPolygon 9 10)))) = true).
  { vm_compute. reflexivity. }
  assert (Hb : (3 <=? length (back_side_ring (plane_at two_triangles_store 5)
                               (ring_values two_triangles_store
                                  (mkPolygon 9 10)))) = true).
  { vm_compute. reflexivity. }
  split; [exact Hvs|]. split; [exact Ht|].
  destruct (splitPolygon_spec 5 (mkPolygon 9 10) 0 1 0 1 [[]; []]
              two_triangles_store Hvs) as (env' & s' & Hrun & Hg & Hcase).
  rewrite Ht in Hcase. destruct Hcase as (fs & bs & Hfs & Hbs & Henv).
  unfold emitted in Hfs, Hbs. rewrite Hf in Hfs. rewrite Hb in Hbs.
  destruct Hfs as (f & Efs & _ & Hfv & _).
  destruct Hbs as (b & Ebs & _ & Hbv & _).
  exists f, b, s'. rewrite Henv, Efs, Ebs in Hrun.
  split; [exact Hrun|]. split; [exact Hg|].
  rewrite Hfv, Hbv. split; vm_compute; reflexivity.
Defined.


(** The two triangles are operands, and inverse runs twice on them. *)
Lemma inverse_inverse_restores_vertices_witness :
  negation_involutive (R := float) /\
  Forall (operand two_triangles_store) (polygons two_triangles_csg) /\
  exists b s2 c s4,
    inverse (R := float) two_triangles_csg two_triangles_store = (Ret b, s2) /\
    inverse b s2 = (Ret c, s4).
Proof.
  assert (Hop : Forall (operand two_triangles_store)
                  (polygons two_triangles_csg)).
  { vm_compute. repeat constructor. }
  split; [exact float_negation_involutive|]. split; [exact Hop|].
  destruct (inverse_inverse_restores_vertices two_triangles_csg
              two_triangles_store float_negation_involutive Hop)
    as ((b & s2 & c & s4 & Hb & Hc & _) & _).
  exists b, s2, c, s4. exact (conj Hb Hc).
Defined.

(** * Vector.Vec3 and classification on binary64 numbers *)

Lemma float_mul_comm (x y : float) : (x * y)%float = (y * x)%float.
Proof.
  apply Prim2SF_inj. rewrite !mul_spec. unfold SF64mul, SpecFloat.SFmul.
  destruct (Prim2SF x) as [sx|sx| |sx mx ex],
           (Prim2SF y) as [sy|sy| |sy my ey];
    rewrite ?(xorb_comm sx sy), ?(Pos.mul_comm mx my), ?(Z.add_comm ex ey);
    reflexivity.
Qed.

Lemma float_mul_nan (x : float) : (x * nan)%float = nan.
Proof.
  apply Prim2SF_inj. rewrite mul_spec.
  change (Prim2SF nan) with SpecFloat.S754_nan.
  destruct (Prim2SF x); reflexivity.
Qed.

Lemma float_add_nan_r (x : float) : (x + nan)%float = nan.
Proof.
  apply Prim2SF_inj. rewrite add_spec.
  change (Prim2SF nan) with SpecFloat.S754_nan.
  destruct (Prim2SF x); reflexivity.
Qed.

Lemma float_add_nan_l (x : float) : (nan + x)%float = nan.
Proof.
  apply Prim2SF_inj. rewrite add_spec.
  change (Prim2SF nan) with SpecFloat.S754_nan.
  destruct (Prim2SF x); reflexivity.
Qed.

Lemma float_sub_nan_l (x : float) : (nan - x)%float = nan.
Proof.
  apply Prim2SF_inj. rewrite sub_spec.
  change (Prim2SF nan) with SpecFloat.S754_nan.
  destruct (Prim2SF x); reflexivity.
Qed.

Lemma float_ltb_nan_l (x : float) : (nan <? x)%float = false.
Proof.
  rewrite ltb_spec. change (Prim2SF nan) with SpecFloat.S754_nan. reflexivity.
Qed.

Lemma float_ltb_nan_r (x : float) : (x <? nan)%float = false.
Proof.
  rewrite ltb_spec. change (Prim2SF nan) with SpecFloat.S754_nan.
  unfold SpecFloat.SFltb, SpecFloat.SFcompare. destruct (Prim2SF x); reflexivity.
Qed.

(** X24: [v.mul(-1)] on binary64 numbers negates each component exactly,
    whatever it is (a zero of either sign, an infinity, NaN), and applied
    twice it gives the vector back. *)
Theorem Vec3_mul_minus_one (v : Vec3 (R := float)) :
  vmul v (- 1)%float = mkVec3 (- vx v)%float (- vy v)%float (- vz v)%float /\
  vmul (vmul v (- 1)%float) (- 1)%float = v.
Proof.
  destruct v as [x y z]. unfold vmul. simpl.
  rewrite !float_mul_minus_one, !float_opp_opp. done.
Qed.

(** X25: [u.dot(v)] on binary64 numbers is the same number as [v.dot(u)],
    rounding included. *)
Theorem Vec3_dot_comm (u v : Vec3 (R := float)) : vdot u v = vdot v u.
Proof.
  unfold vdot. simpl.
  by rewrite (float_mul_comm (vx u)), (float_mul_comm (vy u)),
    (float_mul_comm (vz u)).
Qed.

(** X8: a vertex with a NaN coordinate is COPLANAR with every plane: both
    comparisons of its distance with the tolerance are false. *)
Theorem classify_nan (pl : Plane (R := float)) (v : Vertex) :
  vx (position v) = nan \/ vy (position v) = nan \/ vz (position v) = nan ->
  classify pl v = COPLANAR.
Proof.
  intros Hnan. unfold classify, vdot. simpl.
  assert (Ht : (vx (pnormal pl) * vx (position v)
                + vy (pnormal pl) * vy (position v)
                + vz (pnormal pl) * vz (position v) - pw pl)%float = nan).
  { destruct Hnan as [-> | [-> | ->]];
      rewrite float_mul_nan, ?float_add_nan_r, ?float_add_nan_l;
      apply float_sub_nan_l. }
  rewrite Ht, float_ltb_nan_l, float_ltb_nan_r. done.
Qed.

(** * The further properties at the two triangles *)

(** The first triangle is an operand and is cloned. *)
Lemma Polygon_clone_copies_witness :
  operand two_triangles_store (mkPolygon 4 5) /\
  exists q s',
    Polygon_clone (mkPolygon 4 5) two_triangles_store = (Ret q, s') /\
    grows two_triangles_store s'.
Proof.
  assert (Hp : operand two_triangles_store (mkPolygon 4 5)).
  { vm_compute. repeat constructor. }
  split; [exact Hp|].
  destruct (Polygon_clone_copies (mkPolygon 4 5) two_triangles_store Hp)
    as (q & s' & Hrun & Hg & _).
  exists q, s'. exact (conj Hrun Hg).
Defined.

(** The CSG of the two triangles is cloned into separate polygons. *)
Lemma CSG_clone_separate_witness :
  Forall (operand two_triangles_store) (polygons two_triangles_csg) /\
  exists c' s',
    CSG_clone two_triangles_csg two_triangles_store = (Ret c', s') /\
    separate s' (polygons c').
Proof.
  assert (Hop : Forall (operand two_triangles_store)
                  (polygons two_triangles_csg)).
  { vm_compute. repeat constructor. }
  split; [exact Hop|].
  destruct (CSG_clone_separate two_triangles_csg two_triangles_store Hop)
    as (c' & s' & Hrun & _ & _ & _ & Hsep).
  exists c', s'. exact (conj Hrun Hsep).
Defined.

(** The first triangle owns its three distinct vertices and is flipped. *)
Lemma Polygon_flip_values_witness :
  owned 1 (next two_triangles_store) two_triangles_store (mkPolygon 4 5) /\
  NoDup (ring_at two_triangles_store (vertices (mkPolygon 4 5))) /\
  exists s',
    Polygon_flip (mkPolygon 4 5) two_triangles_store = (Ret tt, s') /\
    polygon_plane s' (mkPolygon 4 5)
    = negate_plane (polygon_plane two_triangles_store (mkPolygon 4 5)).
Proof.
  assert (Hown : owned 1 (next two_triangles_store) two_triangles_store
                   (mkPolygon 4 5)).
  { vm_compute. repeat split; try discriminate; eauto.
    repeat constructor; try discriminate; eauto. }
  assert (Hnd : NoDup (ring_at two_triangles_store (vertices (mkPolygon 4 5)))).
  { apply (bool_decide_unpack _). vm_compute. exact I. }
  split; [exact Hown|]. split; [exact Hnd|].
  destruct (Polygon_flip_values (mkPolygon 4 5) two_triangles_store Hown Hnd)
    as (s' & Hrun & _ & Hpl).
  exists s'. exact (conj Hrun Hpl).
Defined.

(** The second triangle has a vertex on each side of the plane of the
    first and becomes two polygons. *)
Lemma splitPolygon_spanning_pieces_witness :
  Forall (fun v => (v < next two_triangles_store)%positive)
         (ring_at two_triangles_store (vertices (mkPolygon 9 10))) /\
  has FRONT (classify (plane_at two_triangles_store 5)
             <$> ring_values two_triangles_store (mkPolygon 9 10)) = true /\
  has BACK (classify (plane_at two_triangles_store 5)
            <$> ring_values two_triangles_store (mkPolygon 9 10)) = true /\
  exists qf qb s',
    splitPolygon 5 (mkPolygon 9 10) 0 1 0 1 [[]; []] two_triangles_store
    = (Ret (push 1 qb (push 0 qf [[]; []])), s').
Proof.
  assert (Hvs : Forall (fun v => (v < next two_triangles_store)%positive)
                  (ring_at two_triangles_store (vertices (mkPolygon 9 10)))).
  { vm_compute. repeat constructor. }
  assert (HF : has FRONT (classify (plane_at two_triangles_store 5)
                 <$> ring_values two_triangles_store (mkPolygon 9 10)) = true).
  { vm_compute. reflexivity. }
  assert (HB : has BACK (classify (plane_at two_triangles_store 5)
                 <$> ring_values two_triangles_store (mkPolygon 9 10)) = true).
  { vm_compute. reflexivity. }
  split; [exact Hvs|]. split; [exact HF|]. split; [exact HB|].
  destruct (splitPolygon_spanning_pieces 5 (mkPolygon 9 10) 0 1 0 1 [[]; []]
              two_triangles_store Hvs HF HB) as (qf & qb & s' & Hrun & _).
  exists qf, qb, s'. exact Hrun.
Defined.

(** The two triangles are clipped through a node on the plane of the
    first; none is lost. *)
Lemma clipPolygons_never_discards_witness :
  Forall (operand two_triangles_store) (polygons two_triangles_csg) /\
  exists res s',
    clipPolygons (Node (Some 5%positive) Null Null [])
      (polygons two_triangles_csg) two_triangles_store = (Ret res, s') /\
    length (polygons two_triangles_csg) <= length res.
Proof.
  assert (Hop : Forall (operand two_triangles_store)
                  (polygons two_triangles_csg)).
  { vm_compute. repeat constructor. }
  split; [exact Hop|].
  destruct (clipPolygons_never_discards (Node (Some 5%positive) Null Null [])
              (polygons two_triangles_csg) two_triangles_store Hop)
    as (res & s' & Hrun & _ & Hlen & _).
  exists res, s'. exact (conj Hrun Hlen).
Defined.

(** A node holding the two triangles is clipped to a node on the plane of
    the first. *)
Lemma clipTo_never_discards_witness :
  tree_ok two_triangles_store
    (Node None Null Null (polygons two_triangles_csg)) /\
  exists t' s',
    clipTo (Node None Null Null (polygons two_triangles_csg))
      (Node (Some 5%positive) Null Null []) two_triangles_store = (Ret t', s') /\
    length (allPolygons (Node None Null Null (polygons two_triangles_csg)))
    <= length (allPolygons t').
Proof.
  assert (Ht : tree_ok two_triangles_store
                 (Node None Null Null (polygons two_triangles_csg))).
  { vm_compute. repeat constructor. }
  split; [exact Ht|].
  destruct (clipTo_never_discards
              (Node None Null Null (polygons two_triangles_csg))
              (Node (Some 5%positive) Null Null []) two_triangles_store Ht)
    as (t' & s' & Hrun & _ & _ & Hlen & _).
  exists t', s'. exact (conj Hrun Hlen).
Defined.

(** The union of the two triangles with themselves is a CSG value of
    operands. *)
Lemma operations_closed_witness :
  Forall (operand two_triangles_store) (polygons two_triangles_csg) /\
  exists c s',
    union two_triangles_csg two_triangles_csg two_triangles_store = (Ret c, s') /\
    Forall (operand s') (polygons c).
Proof.
  assert (Hop : Forall (operand two_triangles_store)
                  (polygons two_triangles_csg)).
  { vm_compute. repeat constructor. }
  split; [exact Hop|].
  destruct (operations_closed two_triangles_csg two_triangles_csg
              two_triangles_store Hop Hop) as ((c & s' & Hrun & _ & Hres) & _).
  exists c, s'. exact (conj Hrun Hres).
Defined.

(** Union and subtraction of the two triangles with the empty CSG. *)
Lemma union_subtract_with_empty_witness :
  negation_involutive (R := float) /\
  polygons (fromPolygons []) = [] /\
  union (R := float) two_triangles_csg (fromPolygons []) two_triangles_store
  = (do a <- tree_of two_triangles_csg;
     ret (fromPolygons (allPolygons a))) two_triangles_store.
Proof.
  split; [exact float_negation_involutive|]. split; [reflexivity|].
  exact (proj1 (union_subtract_with_empty two_triangles_csg (fromPolygons [])
                  two_triangles_store float_negation_involutive eq_refl)).
Defined.

(** Union of the empty CSG with the two triangles. *)
Lemma union_of_empty_witness :
  negation_involutive (R := float) /\
  polygons (fromPolygons []) = [] /\
  union (R := float) (fromPolygons []) two_triangles_csg two_triangles_store
  = (do b <- tree_of two_triangles_csg;
     do a <- build empty_node (allPolygons b);
     ret (fromPolygons (allPolygons a))) two_triangles_store.
Proof.
  split; [exact float_negation_involutive|]. split; [reflexivity|].
  exact (union_of_empty (fromPolygons []) two_triangles_csg
           two_triangles_store float_negation_involutive eq_refl).
Defined.

(** The two faces over the six points are valid and the first has three
    vertex indices. *)
Lemma fromGeometry_builds_witness :
  Forall (face_valid (R := float) six_points None) two_faces /\
  first_face_long two_faces /\
  exists c s' vals,
    fromGeometry (R := float) six_points two_faces None None empty_store
    = (Ret c, s') /\
    length (polygons c) = length two_faces /\
    Forall (fun p => vertices p = next (empty_store (R := float)) /\
                     has_values s' vals p) (polygons c).
Proof.
  assert (Hvalid : Forall (face_valid (R := float) six_points None) two_faces).
  { repeat constructor; simpl; try lia; by intros [? ?]. }
  assert (Hfirst : first_face_long two_faces) by (simpl; lia).
  split; [exact Hvalid|]. split; [exact Hfirst|].
  destruct (fromGeometry_builds six_points two_faces None None empty_store
              Hvalid Hfirst) as (c & s' & vals & Hrun & Hlen & _ & Hps).
  exists c, s', vals. exact (conj Hrun (conj Hlen Hps)).
Defined.

(** A vertex at (NaN, 0, 0) against the plane z = 0. *)
Abbreviation nan_vertex :=
  (mkVertex (mkVec3 nan 0 0) (mkVec3 0 0 0) (0, 0))%float.
Abbreviation ground_plane := (mkPlane (mkVec3 0 0 1) 0)%float.

Lemma classify_nan_witness :
  (vx (position nan_vertex) = nan \/ vy (position nan_vertex) = nan \/
   vz (position nan_vertex) = nan) /\
  classify (R := float) ground_plane nan_vertex = COPLANAR.
Proof.
  assert (Hnan : vx (position nan_vertex) = nan \/
                 vy (position nan_vertex) = nan \/
                 vz (position nan_vertex) = nan).
  { left. reflexivity. }
  split; [exact Hnan|].
  exact (classify_nan ground_plane nan_vertex Hnan).
Defined.

(** The triangles (0,0,0), (1,0,0), (0,1,0) and (0,0,1), (1,0,1), (0,1,1)
    built in the empty store: the second lies in front of the plane of the
    first. *)
Abbreviation two_shelves :=
  (csg_of (R := float) [level 0; level 1] empty_store).
Abbreviation two_shelves_store := (two_shelves.2).

(** A node on the plane of the first shelf, holding it, is given the second
    shelf to build in: it gets an empty front child and the second shelf is
    stored nowhere. *)
Lemma build_drops_one_sided_witness :
  [mkPolygon 9 10] <> [] /\
  length [mkPolygon 4 5] <= 1000 /\
  Forall (ring_allocated two_shelves_store) [mkPolygon 9 10] /\
  Forall (on_side true 5 two_shelves_store) [mkPolygon 9 10] /\
  build (Node (Some 5%positive) Null Null [mkPolygon 4 5]) [mkPolygon 9 10]
    two_shelves_store
  = (Ret (Node (Some 5%positive) (or_new Null) Null [mkPolygon 4 5]),
     two_shelves_store).
Proof.
  assert (Hne : [mkPolygon 9 10] <> []) by discriminate.
  assert (Hown : length [mkPolygon 4 5] <= 1000) by (simpl; lia).
  assert (Hal : Forall (ring_allocated two_shelves_store) [mkPolygon 9 10]).
  { vm_compute. repeat constructor. }
  assert (Hside : Forall (on_side true 5 two_shelves_store) [mkPolygon 9 10]).
  { vm_compute. repeat constructor. }
  split; [exact Hne|]. split; [exact Hown|]. split; [exact Hal|].
  split; [exact Hside|].
  exact (build_drops_one_sided true 5 Null Null [mkPolygon 4 5]
           [mkPolygon 9 10] two_shelves_store Hne Hown Hal Hside).
Defined.

(** The union of the two triangles with themselves has at least the
    polygons of the tree of the first operand. *)
Lemma operations_keep_first_tree_witness :
  Forall (operand two_triangles_store) (polygons two_triangles_csg) /\
  exists a s1 c s',
    tree_of two_triangles_csg two_triangles_store = (Ret a, s1) /\
    union two_triangles_csg two_triangles_csg two_triangles_store
    = (Ret c, s') /\
    length (allPolygons a) <= length (polygons c).
Proof.
  assert (Hop : Forall (operand two_triangles_store)
                  (polygons two_triangles_csg)).
  { vm_compute. repeat constructor. }
  split; [exact Hop|].
  destruct (operations_keep_first_tree two_triangles_csg two_triangles_csg
              two_triangles_store Hop Hop)
    as (a & s1 & Ha & (c & s' & Hc & Hlen) & _).
  exists a, s1, c, s'. exact (conj Ha (conj Hc Hlen)).
Defined.

(** * The plane of three coincident points *)

Lemma float_sub_diag (x : float) : float_finite x -> (x - x)%float = 0%float.
Proof.
  unfold float_finite. intros Hfin. apply Prim2SF_inj. rewrite sub_spec.
  change (Prim2SF 0) with (SpecFloat.S754_zero false).
  destruct (Prim2SF x) as [sx|sx| |sx mx ex]; try done.
  - by destruct sx.
  - unfold SF64sub, SpecFloat.SFsub. cbv zeta. by rewrite Z.sub_diag.
Qed.

Lemma float_zero_mul (x : float) : float_finite x -> float_is_zero (0 * x).
Proof.
  unfold float_finite, float_is_zero. intros Hfin.
  destruct (Prim2SF x) as [sx|sx| |sx mx ex] eqn:E; try done.
  - destruct sx; [right|left]; apply Prim2SF_inj; rewrite mul_spec, E;
      reflexivity.
  - destruct sx; [right|left]; apply Prim2SF_inj; rewrite mul_spec, E;
      reflexivity.
Qed.

Lemma float_zero_add (a b : float) :
  float_is_zero a -> float_is_zero b -> float_is_zero (a + b).
Proof. intros [-> | ->] [-> | ->]; vm_compute; auto. Qed.

Lemma float_zero_sub (a b : float) :
  float_is_zero a -> float_is_zero b -> float_is_zero (a - b).
Proof. intros [-> | ->] [-> | ->]; vm_compute; auto. Qed.

Lemma float_zero_dot (p : Vec3 (R := float)) :
  float_finite (vx p) -> float_finite (vy p) -> float_finite (vz p) ->
  float_is_zero (vdot (mkVec3 0 0 0)%float p).
Proof.
  intros Hx Hy Hz. unfold vdot. simpl.
  auto using float_zero_add, float_zero_mul.
Qed.

(** X9: a polygon whose first three vertices are at one point with finite
    coordinates gets the plane with normal (0,0,0) and w zero: normalize
    leaves the zero vector as it is instead of dividing by its length.
    Against that plane every vertex with finite coordinates is COPLANAR, so
    a tree whose node takes it partitions nothing. *)
Theorem coincident_points_plane (vals : list (Vertex (R := float)))
    (v0 v1 v2 v : Vertex) :
  vals !! 0%nat = Some v0 -> vals !! 1%nat = Some v1 -> vals !! 2%nat = Some v2 ->
  position v1 = position v0 -> position v2 = position v0 ->
  float_finite (vx (position v0)) -> float_finite (vy (position v0)) ->
  float_finite (vz (position v0)) ->
  float_finite (vx (position v)) -> float_finite (vy (position v)) ->
  float_finite (vz (position v)) ->
  exists pl,
    plane_of_values vals = Some pl /\
    pnormal pl = (mkVec3 0 0 0)%float /\ float_is_zero (pw pl) /\
    classify pl v = COPLANAR.
Proof.
  intros E0 E1 E2 H1 H2 Hx Hy Hz Hvx Hvy Hvz.
  unfold plane_of_values. rewrite E0, E1, E2, H1, H2.
  assert (Hsub : vsub (position v0) (position v0) = (mkVec3 0 0 0)%float).
  { unfold vsub. simpl. by rewrite !float_sub_diag. }
  rewrite Hsub.
  change (vnormalize (vcross (mkVec3 0 0 0)%float (mkVec3 0 0 0)%float))
    with (mkVec3 (R := float) 0 0 0)%float.
  eexists. split; [reflexivity|]. simpl. split; [done|].
  pose proof (float_zero_dot (position v0) Hx Hy Hz) as Hw.
  split; [exact Hw|].
  pose proof (float_zero_dot (position v) Hvx Hvy Hvz) as Hd.
  pose proof (float_zero_sub _ _ Hd Hw) as Ht.
  assert (Hc : forall t : float, float_is_zero t ->
            (if nlt t (nneg EPSILON) then BACK
             else if nlt EPSILON t then FRONT else COPLANAR) = COPLANAR).
  { intros t [-> | ->]; reflexivity. }
  unfold classify. apply Hc. exact Ht.
Qed.

(** A node without a plane is given the first triangle, which lies in its
    own plane. *)
Lemma build_stores_coplanar_witness :
  length (@nil Polygon) <= 1000 /\
  Forall (ring_allocated two_triangles_store) [mkPolygon 4 5] /\
  Forall (on_plane 5 two_triangles_store) [mkPolygon 4 5] /\
  build (Node None Null Null []) [mkPolygon 4 5] two_triangles_store
  = (Ret (Node (Some 5%positive) Null Null ([] ++ [mkPolygon 4 5])),
     two_triangles_store).
Proof.
  assert (Hown : length (@nil Polygon) <= 1000) by (simpl; lia).
  assert (Hal : Forall (ring_allocated two_triangles_store) [mkPolygon 4 5]).
  { vm_compute. repeat constructor. }
  assert (Hon : Forall (on_plane 5 two_triangles_store) [mkPolygon 4 5]).
  { vm_compute. repeat constructor. }
  split; [exact Hown|]. split; [exact Hal|]. split; [exact Hon|].
  exact (build_stores_coplanar None Null Null [] (mkPolygon 4 5) []
           two_triangles_store Hown Hal Hon).
Defined.

(** The second shelf, in front of the plane of the first, is clipped
    through a node on that plane that has no children. *)
Lemma clipPolygons_keeps_one_sided_witness :
  Forall (ring_allocated two_shelves_store) [mkPolygon 9 10] /\
  Forall (on_side true 5 two_shelves_store) [mkPolygon 9 10] /\
  clipPolygons (Node (Some 5%positive) Null Null []) [mkPolygon 9 10]
    two_shelves_store
  = (Ret [mkPolygon 9 10], two_shelves_store).
Proof.
  assert (Hal : Forall (ring_allocated two_shelves_store) [mkPolygon 9 10]).
  { vm_compute. repeat constructor. }
  assert (Hside : Forall (on_side true 5 two_shelves_store) [mkPolygon 9 10]).
  { vm_compute. repeat constructor. }
  split; [exact Hal|]. split; [exact Hside|].
  exact (clipPolygons_keeps_one_sided true 5 Null [] [mkPolygon 9 10]
           two_shelves_store Hal Hside).
Defined.

(** The inverse of the two triangles. *)
Lemma inverse_flips_each_witness :
  Forall (operand two_triangles_store) (polygons two_triangles_csg) /\
  exists c s',
    inverse two_triangles_csg two_triangles_store = (Ret c, s') /\
    length (polygons c) = length (polygons two_triangles_csg).
Proof.
  assert (Hop : Forall (operand two_triangles_store)
                  (polygons two_triangles_csg)).
  { vm_compute. repeat constructor. }
  split; [exact Hop|].
  destruct (inverse_flips_each two_triangles_csg two_triangles_store Hop)
    as (c & s' & Hrun & Hv).
  exists c, s'. split; [exact Hrun|].
  symmetry. exact (Forall2_length _ _ _ Hv).
Defined.

(** Three vertices at (1,1,1), and a vertex at (0,0,1). *)
Abbreviation corner_vertex :=
  (mkVertex (mkVec3 1 1 1) (mkVec3 0 0 0) (0, 0))%float.
Abbreviation apex_vertex :=
  (mkVertex (mkVec3 0 0 1) (mkVec3 0 0 0) (0, 0))%float.

Lemma coincident_points_plane_witness :
  float_finite 1 /\ float_finite 0 /\
  exists pl,
    plane_of_values [corner_vertex; corner_vertex; corner_vertex] = Some pl /\
    classify pl apex_vertex = COPLANAR.
Proof.
  assert (H1 : float_finite 1) by exact I.
  assert (H0 : float_finite 0) by exact I.
  split; [exact H1|]. split; [exact H0|].
  destruct (coincident_points_plane
              [corner_vertex; corner_vertex; corner_vertex]
              corner_vertex corner_vertex corner_vertex apex_vertex
              eq_refl eq_refl eq_refl eq_refl eq_refl H1 H1 H1 H0 H0 H1)
    as (pl & Hpl & _ & _ & Hc).
  exists pl. exact (conj Hpl Hc).
Defined.

(** The mesh of the two faces over the six points, for all three meshes of
    the window. *)
Abbreviation two_face_mesh :=
  (mkMesh (R := float) six_points two_faces None None).

Lemma DoorWindow_components_return_witness :
  mesh_valid two_face_mesh /\
  exists frame glass complete s',
    DoorWindow_components two_face_mesh two_face_mesh two_face_mesh empty_store
    = (Ret (frame, glass, complete), s') /\
    Forall (operand s') (polygons complete).
Proof.
  assert (Hm : mesh_valid two_face_mesh).
  { split; [|simpl; lia]. repeat constructor; simpl; try lia; by intros [? ?]. }
  split; [exact Hm|].
  destruct (DoorWindow_components_return two_face_mesh two_face_mesh
              two_face_mesh empty_store Hm Hm Hm)
    as (frame & glass & complete & s' & Hrun & _ & _ & Hc).
  exists frame, glass, complete, s'. exact (conj Hrun Hc).
Defined.

(** The inverse of the two triangles is made of new objects. *)
Lemma results_share_nothing_witness :
  well_formed two_triangles_store /\
  exists c s',
    inverse two_triangles_csg two_triangles_store = (Ret c, s') /\
    forall p, p ∈ polygons c ->
      (next two_triangles_store <= vertices p)%positive /\
      (next two_triangles_store <= plane p)%positive.
Proof.
  assert (Hwf : well_formed two_triangles_store).
  { exact (csg_of_well_formed _ _ well_formed_empty). }
  assert (Hop : Forall (operand two_triangles_store)
                  (polygons two_triangles_csg)).
  { vm_compute. repeat constructor. }
  split; [exact Hwf|].
  destruct (inverse_run two_triangles_csg two_triangles_store Hop)
    as (c & s' & Hrun & _).
  exists c, s'. split; [exact Hrun|]. intros p Hp.
  destruct (results_share_nothing two_triangles_csg two_triangles_csg c
              two_triangles_store s' Hwf
              (or_intror (or_intror (or_intror Hrun))) p Hp)
    as ((Hr & Hpl & _) & _).
  split; [exact Hr | exact Hpl].
Defined.
